(** * A3C worker (11_A3C_v2.py): trajectory buffer, bootstrapped returns,
      loss, worker loop and shared episode counter

    A shallow embedding of [ActorCritic] and [Agent.run].  Python floats and
    torch tensors are read as exact real numbers and lists of them (rounding
    is outside the model; infinities and NaN enter in [Float32], for lines
    94-100); an exception raised by the code is [None] (or [Crashed] in the
    worker loop). *)

From Stdlib Require Import Reals List ZArith Lia Lra Bool Arith ZifyNat.
Import ListNotations.
Open Scope R_scope.

(** ** Option plumbing for the code's exceptions *)

Notation "x <- c ;; k" := (match c with Some x => k | None => None end)
  (at level 61, c at next level, right associativity).
Notation "' p <- c ;; k" := (match c with Some p => k | None => None end)
  (at level 61, p pattern, c at next level, right associativity).

Fixpoint mapM {A B : Type} (f : A -> option B) (l : list A) : option (list B) :=
  match l with
  | [] => Some []
  | x :: xs => y <- f x ;; ys <- mapM f xs ;; Some (y :: ys)
  end.

(** In-place update of a list cell; the callers check the index first. *)
Fixpoint list_set {A : Type} (l : list A) (i : nat) (x : A) : list A :=
  match l, i with
  | [], _ => []
  | _ :: tl, O => x :: tl
  | h :: tl, S j => h :: list_set tl j x
  end.

(** ** Tensors as lists of reals *)

Definition State := list R.
Definition Action := nat.

Definition Rsum (l : list R) : R := fold_right Rplus 0 l.

Definition dot (u v : list R) : R :=
  Rsum (map (fun p => fst p * snd p) (combine u v)).

(** [t[-1]]: the last row of a tensor; an IndexError on an empty one. *)
Definition last_item {A : Type} (l : list A) : option A :=
  match l with
  | [] => None
  | _ => nth_error l (length l - 1)
  end.

(** A one-element tensor read as a number (the value head has one output). *)
Definition item (l : list R) : option R :=
  match l with
  | [x] => Some x
  | _ => None
  end.

(** [nn.Linear]: [y = x W^T + b].  The shapes must agree, as torch checks. *)
Record Linear := mkLinear { weight : list (list R); bias : list R }.

Definition Linear_forward (l : Linear) (x : list R) : option (list R) :=
  if forallb (fun row => Nat.eqb (length row) (length x)) (weight l)
     && Nat.eqb (length (weight l)) (length (bias l))
  then Some (map (fun rb => dot (fst rb) x + snd rb) (combine (weight l) (bias l)))
  else None.

Definition relu (x : list R) : list R := map (Rmax 0) x.

(** [T.softmax(pi, dim=1)] on one row. *)
Definition softmax (x : list R) : list R :=
  let e := map exp x in map (fun ei => ei / Rsum e) e.

(** [Categorical(probs)] normalises its argument.  [log_prob(a)] reads
    index [a] of the distribution's logits, which torch computes from the
    probabilities as [log(clamp(probs, eps, 1 - eps))] with the float32
    machine epsilon [eps = 2^-23]; an index out of range is an error. *)
Definition Categorical (probs : list R) : list R :=
  map (fun p => p / Rsum probs) probs.

Definition EPS : R := / 2 ^ 23.

Definition clamp_probs (p : R) : R := Rmin (Rmax p EPS) (1 - EPS).

Definition log_prob (dist : list R) (a : Action) : option R :=
  p <- nth_error dist a ;; Some (ln (clamp_probs p)).

(** Elementwise tensor operation with torch's broadcasting of a one-element
    operand; other length mismatches raise. *)
Definition bcast2 {A B C : Type} (f : A -> B -> C) (xs : list A) (ys : list B)
  : option (list C) :=
  if Nat.eqb (length xs) (length ys)
  then Some (map (fun p => f (fst p) (snd p)) (combine xs ys))
  else match xs, ys with
       | [x], _ => Some (map (f x) ys)
       | _, [y] => Some (map (fun x => f x y) xs)
       | _, _ => None
       end.

(** [t.mean()]; the mean of an empty tensor is NaN, which is no real. *)
Definition mean (l : list R) : option R :=
  match l with
  | [] => None
  | _ => Some (Rsum l / INR (length l))
  end.

(** ** ActorCritic *)

(** The module's four layers, its discount factor and the four buffers.
    [param_grad] holds the [.grad] slot of each tensor of [parameters()]
    as a reference into the worker's store of gradient tensors. *)
Record ActorCritic := mkActorCritic {
  gamma : R;
  policy_l1 : Linear;
  policy_l2 : Linear;
  value_l1 : Linear;
  value_l2 : Linear;
  param_grad : list (option nat);
  rewards : list R;
  actions : list Action;
  states : list State;
  next_states : list State
}.

(** [__init__]: the layers as torch initialised them, no gradient, empty
    buffers.  [parameters()] has eight tensors (weight and bias per layer). *)
Definition ActorCritic_init (g : R) (p1 p2 v1 v2 : Linear) : ActorCritic :=
  mkActorCritic g p1 p2 v1 v2 (repeat None 8) [] [] [] [].

Definition remember (m : ActorCritic) (state : State) (action : Action)
    (reward : R) (next_state : State) : ActorCritic :=
  mkActorCritic (gamma m) (policy_l1 m) (policy_l2 m) (value_l1 m) (value_l2 m)
    (param_grad m)
    (rewards m ++ [reward])
    (actions m ++ [action])
    (states m ++ [state])
    (next_states m ++ [next_state]).

Definition clear_memory (m : ActorCritic) : ActorCritic :=
  mkActorCritic (gamma m) (policy_l1 m) (policy_l2 m) (value_l1 m) (value_l2 m)
    (param_grad m) [] [] [] [].

(** [forward] on one state: policy logits and the value estimate. *)
Definition forward (m : ActorCritic) (state : State) : option (list R * R) :=
  l1 <- Linear_forward (policy_l1 m) state ;;
  let p1 := relu l1 in
  p2 <- Linear_forward (policy_l2 m) p1 ;;
  l1' <- Linear_forward (value_l1 m) state ;;
  let v1 := relu l1' in
  v2 <- Linear_forward (value_l2 m) v1 ;;
  v <- item v2 ;;
  Some (p2, v).

(** [forward] on a batch (a tensor built from a list of states): the rows
    of logits and the column of values.  The tensor built from an empty
    list has no features at all, and the first layer rejects it. *)
Definition forward_batch (m : ActorCritic) (batch : list State)
  : option (list (list R) * list R) :=
  match batch with
  | [] => None
  | _ =>
      rows <- mapM (forward m) batch ;;
      Some (map fst rows, map snd rows)
  end.

(** One turn of the backward scan of [calc_R]:
    [R = reward + self.gamma * R; batch_return.append(R)]. *)
Definition calc_R_step (g : R) (acc : R * list R) (reward : R) : R * list R :=
  let R' := reward + g * fst acc in (R', snd acc ++ [R']).

(** The value the scan starts from: [v_next[-1] * (1 - int(done))]. *)
Definition bootstrap (m : ActorCritic) (done : bool) : option R :=
  '(_, v_next) <- forward_batch m (next_states m) ;;
  vlast <- last_item v_next ;;
  Some (vlast * IZR (1 - Z.b2z done)).

Definition calc_R (m : ActorCritic) (done : bool) : option (list R) :=
  '(_, v) <- forward_batch m (states m) ;;
  '(_, v_next) <- forward_batch m (next_states m) ;;
  vlast <- last_item v_next ;;
  let R0 := vlast * IZR (1 - Z.b2z done) in
  let batch_return := snd (fold_left (calc_R_step (gamma m)) (rev (rewards m)) (R0, [])) in
  Some (rev batch_return).

Definition calc_loss (m : ActorCritic) (done : bool) : option R :=
  returns <- calc_R m done ;;
  '(pi, values) <- forward_batch m (states m) ;;
  diff <- bcast2 Rminus returns values ;;
  let critic_loss := map (fun d => d ^ 2) diff in
  let probs := map softmax pi in
  let dist := map Categorical probs in
  lps <- bcast2 log_prob dist (actions m) ;;
  log_probs <- mapM (fun lp => lp) lps ;;
  adv <- bcast2 Rminus returns values ;;
  actor_loss <- bcast2 Rmult (map Ropp log_probs) adv ;;
  total <- bcast2 Rplus critic_loss actor_loss ;;
  mean total.

(** The distribution [choose_action] samples from: the row of the
    one-state batch. *)
Definition action_dist (m : ActorCritic) (state : State) : option (list R) :=
  '(pi, _) <- forward_batch m [state] ;;
  nth_error (map Categorical (map softmax pi)) 0.

(** The four buffers hold the same number of steps. *)
Definition balanced (m : ActorCritic) : Prop :=
  length (states m) = length (actions m)
  /\ length (actions m) = length (rewards m)
  /\ length (rewards m) = length (next_states m).

(** The two operations of the code that write the buffers. *)
Inductive MemoryOp :=
| OpRemember (state : State) (action : Action) (reward : R) (next_state : State)
| OpClear.

Definition apply_op (m : ActorCritic) (op : MemoryOp) : ActorCritic :=
  match op with
  | OpRemember s a r s' => remember m s a r s'
  | OpClear => clear_memory m
  end.

(** Every buffered state and next state has a shape the layers accept. *)
Definition shapes_ok (m : ActorCritic) : Prop :=
  (forall s, In s (states m) -> forward m s <> None)
  /\ (forall s, In s (next_states m) -> forward m s <> None).

(** The recurrence of the specification: the return of a step is its
    reward plus the discounted return of the next step, the return after
    the last step being the start value [R0]. *)
Fixpoint returns_from (g : R) (rs : list R) (R0 : R) : list R :=
  match rs with
  | [] => []
  | r :: tl =>
      let rest := returns_from g tl R0 in
      (r + g * hd R0 rest) :: rest
  end.

(** The loss of one buffered step, in the specification's words: the
    squared error between return and value estimate, and the negative
    log-probability of the action taken, under the categorical distribution
    of the logits, weighted by the advantage. *)
Definition critic_loss_at (ret value : R) : R := (ret - value) ^ 2.

Definition actor_loss_at (logits : list R) (action : Action) (ret value : R) : R :=
  - ln (nth action (Categorical (softmax logits)) 0) * (ret - value).

(** The actor loss of one buffered step as [log_prob] computes it, on the
    clamped probability. *)
Definition clamped_actor_loss_at (logits : list R) (action : Action)
    (ret value : R) : R :=
  - ln (clamp_probs (nth action (Categorical (softmax logits)) 0))
  * (ret - value).

(** The specification's sentence on the loss, read on a buffer: the mean
    over the steps of critic loss plus actor loss, the actor loss on the
    probability itself. *)
Definition loss_claim (m : ActorCritic) (done : bool) : Prop :=
  forall pis vs Rs,
    forward_batch m (states m) = Some (pis, vs) ->
    calc_R m done = Some Rs ->
    calc_loss m done
    = Some (Rsum (map (fun t =>
                         critic_loss_at (nth t Rs 0) (nth t vs 0)
                         + actor_loss_at (nth t pis []) (nth t (actions m) 0%nat)
                             (nth t Rs 0) (nth t vs 0))
                    (seq 0 (length (rewards m))))
            / INR (length (rewards m))).

(** ** Parameters, gradients and the synchronization point *)

Inductive Tensor :=
| Vec (v : list R)
| Mat (rows : list (list R)).

Definition tensor_add (x y : Tensor) : Tensor :=
  match x, y with
  | Vec u, Vec v => Vec (map (fun p => fst p + snd p) (combine u v))
  | Mat a, Mat b =>
      Mat (map (fun p => map (fun q => fst q + snd q) (combine (fst p) (snd p)))
             (combine a b))
  | _, _ => x
  end.

Definition zeros_like (x : Tensor) : Tensor :=
  match x with
  | Vec v => Vec (map (fun _ => 0) v)
  | Mat a => Mat (map (map (fun _ => 0)) a)
  end.

(** The four layers: what [state_dict()] holds and [parameters()] lists. *)
Record Layers := mkLayers {
  l_policy_l1 : Linear;
  l_policy_l2 : Linear;
  l_value_l1 : Linear;
  l_value_l2 : Linear
}.

Definition state_dict (m : ActorCritic) : Layers :=
  mkLayers (policy_l1 m) (policy_l2 m) (value_l1 m) (value_l2 m).

Definition load_state_dict (m : ActorCritic) (sd : Layers) : ActorCritic :=
  mkActorCritic (gamma m) (l_policy_l1 sd) (l_policy_l2 sd) (l_value_l1 sd)
    (l_value_l2 sd) (param_grad m) (rewards m) (actions m) (states m)
    (next_states m).

Definition parameters (sd : Layers) : list Tensor :=
  [ Mat (weight (l_policy_l1 sd)); Vec (bias (l_policy_l1 sd));
    Mat (weight (l_policy_l2 sd)); Vec (bias (l_policy_l2 sd));
    Mat (weight (l_value_l1 sd)); Vec (bias (l_value_l1 sd));
    Mat (weight (l_value_l2 sd)); Vec (bias (l_value_l2 sd)) ].

Definition set_param_grad (m : ActorCritic) (g : list (option nat)) : ActorCritic :=
  mkActorCritic (gamma m) (policy_l1 m) (policy_l2 m) (value_l1 m) (value_l2 m)
    g (rewards m) (actions m) (states m) (next_states m).

(** The store of gradient tensors of one worker process; a [.grad] slot is
    [None] or the index of a tensor in it. *)
Definition Store := list Tensor.

Definition store_set (st : Store) (i : nat) (x : Tensor) : Store :=
  list_set st i x.

Definition grad_value (st : Store) (slot : option nat) : option Tensor :=
  match slot with
  | Some i => nth_error st i
  | None => None
  end.

(** [optimizer.zero_grad()] on the shared parameters: each slot is dropped
    ([set_to_none], the default of recent torch) or the tensor it refers to
    is zeroed in place (older torch). *)
Fixpoint zero_grad (set_to_none : bool) (slots : list (option nat)) (st : Store)
  : list (option nat) * Store :=
  match slots with
  | [] => ([], st)
  | slot :: tl =>
      let st1 :=
        match slot with
        | Some i =>
            if set_to_none then st
            else match nth_error st i with
                 | Some x => store_set st i (zeros_like x)
                 | None => st
                 end
        | None => st
        end in
      let '(tl', st2) := zero_grad set_to_none tl st1 in
      ((if set_to_none then None else slot) :: tl', st2)
  end.

(** [loss.backward()]: every parameter's new gradient is stored in its slot
    when that is empty and added in place to the tensor there otherwise. *)
Fixpoint accumulate_grad (slots : list (option nat)) (grads : list Tensor)
    (st : Store) : list (option nat) * Store :=
  match slots, grads with
  | slot :: tl, g :: gs =>
      let '(slot', st1) :=
        match slot with
        | Some i =>
            match nth_error st i with
            | Some x => (Some i, store_set st i (tensor_add x g))
            | None => (Some (length st), st ++ [g])
            end
        | None => (Some (length st), st ++ [g])
        end in
      let '(tl', st2) := accumulate_grad tl gs st1 in
      (slot' :: tl', st2)
  | _, _ => (slots, st)
  end.

(** [for local_param, global_param in zip(...): global_param._grad =
    local_param.grad]. *)
Fixpoint push_grad (local_slots global_slots : list (option nat))
  : list (option nat) :=
  match local_slots, global_slots with
  | l :: ls, _ :: gs => l :: push_grad ls gs
  | _, _ => global_slots
  end.

(** What the worker takes from torch: automatic differentiation of the loss
    of [calc_loss(done)] in the local parameters, the update rule of the
    shared Adam optimizer over its state, and the mode of [zero_grad]. *)
Record Framework := mkFramework {
  opt_state : Type;
  autograd : ActorCritic -> bool -> Layers;
  adam_step : opt_state -> Layers -> list (option Tensor) -> opt_state * Layers;
  set_to_none : bool
}.

(** What the worker takes from outside: the gym environment, the random
    draw of [dist.sample()], and the episodes the other workers have added
    to the shared counter since this worker last touched it. *)
Record Environment := mkEnvironment {
  env_state : Type;
  env_reset : env_state -> env_state * State;
  env_step : env_state -> Action -> env_state * (State * R * bool);
  sample : env_state -> list R -> env_state * Action;
  others : env_state -> env_state * nat
}.

(** ** The shared counter: [mp.Value('i', 0)], a C int *)

Definition T_MAX : nat := 5.
Definition N_GAMES : Z := 4000.
Definition INT_MIN : Z := - 2 ^ 31.
Definition INT_MAX : Z := 2 ^ 31 - 1.

Definition wrap_int (z : Z) : Z := ((z + 2 ^ 31) mod 2 ^ 32 - 2 ^ 31)%Z.

(** ** Agent.run *)

(** What the worker loop lets an observer see, in program order. *)
Inductive Event :=
| EvEpisodeStart (buffered : nat)
    (* line 155 was executed; the buffer then holds [buffered] steps *)
| EvSync (buffered : nat) (done : bool) (after : nat)
    (* lines 166-182: [calc_loss(done)] over [buffered] steps; the buffer
       holds [after] steps when the block ends *)
| EvIncrement (before after : Z)
    (* line 188, under the counter's lock *)
| EvLog (score : R)
    (* line 191 *)
| EvExit
    (* the test of line 151 failed *).

Inductive Outcome (A : Type) :=
| Finished (a : A)
| Crashed
| OutOfFuel.

Arguments Finished {A} a.
Arguments Crashed {A}.
Arguments OutOfFuel {A}.

Section Worker.

Variable F : Framework.
Variable E : Environment.

(** [choose_action]: [dist.sample()] draws from the policy's distribution
    at [state]; the draw is the environment's. *)
Definition choose_action (m : ActorCritic) (e : env_state E) (state : State)
  : option (env_state E * Action) :=
  probs <- action_dist m state ;;
  Some (sample E e probs).

(** The objects one worker process holds or shares. *)
Record Agent := mkAgent {
  local_actor_critic : ActorCritic;
  global_actor_critic : ActorCritic;
  optimizer : opt_state F;
  grad_store : Store;
  episode_idx : Z;
  global_rewards : list R;
  env : env_state E
}.

Definition set_local (a : Agent) (m : ActorCritic) : Agent :=
  mkAgent m (global_actor_critic a) (optimizer a) (grad_store a)
    (episode_idx a) (global_rewards a) (env a).

Definition set_env (a : Agent) (e : env_state E) : Agent :=
  mkAgent (local_actor_critic a) (global_actor_critic a) (optimizer a)
    (grad_store a) (episode_idx a) (global_rewards a) e.

Definition set_episode_idx (a : Agent) (z : Z) : Agent :=
  mkAgent (local_actor_critic a) (global_actor_critic a) (optimizer a)
    (grad_store a) z (global_rewards a) (env a).

(** Line 167: [self.optimizer.zero_grad()]. *)
Definition do_zero_grad (a : Agent) : Agent :=
  let '(slots, st) :=
    zero_grad (set_to_none F) (param_grad (global_actor_critic a)) (grad_store a) in
  mkAgent (local_actor_critic a) (set_param_grad (global_actor_critic a) slots)
    (optimizer a) st (episode_idx a) (global_rewards a) (env a).

(** Line 168: [loss.backward()]. *)
Definition do_backward (a : Agent) (done : bool) : Agent :=
  let grads := parameters (autograd F (local_actor_critic a) done) in
  let '(slots, st) :=
    accumulate_grad (param_grad (local_actor_critic a)) grads (grad_store a) in
  mkAgent (set_param_grad (local_actor_critic a) slots) (global_actor_critic a)
    (optimizer a) st (episode_idx a) (global_rewards a) (env a).

(** Lines 171-173. *)
Definition do_push_grad (a : Agent) : Agent :=
  mkAgent (local_actor_critic a)
    (set_param_grad (global_actor_critic a)
       (push_grad (param_grad (local_actor_critic a))
          (param_grad (global_actor_critic a))))
    (optimizer a) (grad_store a) (episode_idx a) (global_rewards a) (env a).

(** Line 176: [self.optimizer.step()]. *)
Definition do_step (a : Agent) : Agent :=
  let grads := map (grad_value (grad_store a)) (param_grad (global_actor_critic a)) in
  let '(o, sd) := adam_step F (optimizer a) (state_dict (global_actor_critic a)) grads in
  mkAgent (local_actor_critic a) (load_state_dict (global_actor_critic a) sd)
    o (grad_store a) (episode_idx a) (global_rewards a) (env a).

(** Line 179. *)
Definition do_pull (a : Agent) : Agent :=
  set_local a
    (load_state_dict (local_actor_critic a) (state_dict (global_actor_critic a))).

(** Lines 166-182, the synchronization point. *)
Definition synchronize (a : Agent) (done : bool) : option Agent :=
  _ <- calc_loss (local_actor_critic a) done ;;
  let a1 := do_zero_grad a in
  let a2 := do_backward a1 done in
  let a3 := do_push_grad a2 in
  let a4 := do_step a3 in
  let a5 := do_pull a4 in
  Some (set_local a5 (clear_memory (local_actor_critic a5))).

(** Lines 158-185: one turn of the inner loop.  The result carries the worker,
    [t_step], [state], [score] and [done] as the turn leaves them. *)
Definition step_body (a : Agent) (t_step : nat) (state : State) (score : R)
  : Outcome (Agent * nat * State * R * bool) * list Event :=
  match choose_action (local_actor_critic a) (env a) state with
  | None => (Crashed, [])
  | Some (e1, action) =>
      let '(e2, (next_state, reward, done)) := env_step E e1 action in
      let score := score + reward in
      let a1 :=
        set_local (set_env a e2)
          (remember (local_actor_critic a) state action reward next_state) in
      if (Nat.eqb (t_step mod T_MAX) 0) || done
      then
        match synchronize a1 done with
        | None => (Crashed, [])
        | Some a2 =>
            (Finished (a2, S t_step, next_state, score, done),
             [EvSync (length (states (local_actor_critic a1))) done
                (length (states (local_actor_critic a2)))])
        end
      else (Finished (a1, S t_step, next_state, score, done), [])
  end.

(** Lines 157-185: [while not done]. *)
Fixpoint episode_loop (fuel : nat) (a : Agent) (t_step : nat) (state : State)
    (score : R) : Outcome (Agent * nat * R) * list Event :=
  match fuel with
  | O => (OutOfFuel, [])
  | S fuel' =>
      match step_body a t_step state score with
      | (Finished (a', t', state', score', done), ev) =>
          if done then (Finished (a', t', score'), ev)
          else
            let '(r, ev') := episode_loop fuel' a' t' state' score' in
            (r, ev ++ ev')
      | (Crashed, ev) => (Crashed, ev)
      | (OutOfFuel, ev) => (OutOfFuel, ev)
      end
  end.

(** The worker's view of the shared counter after the other workers'
    increments have landed. *)
Definition observe (a : Agent) : Agent :=
  let '(e, k) := others E (env a) in
  set_episode_idx (set_env a e) (wrap_int (episode_idx a + Z.of_nat k)).

(** Lines 152-185: one episode, from [env.reset()] to [done]. *)
Definition episode (fuel : nat) (a : Agent) (t_step : nat)
  : Outcome (Agent * nat * R) * list Event :=
  let '(e, state) := env_reset E (env a) in
  let a1 := set_local (set_env a e) (clear_memory (local_actor_critic a)) in
  let '(r, ev) := episode_loop fuel a1 t_step state 0 in
  (r, EvEpisodeStart (length (states (local_actor_critic a1))) :: ev).

(** Lines 187-191: the locked increment and the reward log. *)
Definition end_episode (a : Agent) (score : R) : Agent :=
  let a1 := observe a in
  mkAgent (local_actor_critic a1) (global_actor_critic a1) (optimizer a1)
    (grad_store a1) (wrap_int (episode_idx a1 + 1))
    (global_rewards a1 ++ [score]) (env a1).

(** Lines 151-191: [while self.episode_idx.value < N_GAMES]. *)
Fixpoint run_loop (n_games : Z) (fuel : nat) (a : Agent) (t_step : nat)
  : Outcome Agent * list Event :=
  match fuel with
  | O => (OutOfFuel, [])
  | S fuel' =>
      let a0 := observe a in
      if (episode_idx a0 <? n_games)%Z
      then
        match episode fuel' a0 t_step with
        | (Finished (a1, t', score), ev) =>
            let a2 := end_episode a1 score in
            let '(r, ev') := run_loop n_games fuel' a2 t' in
            (r, ev ++ [EvIncrement (episode_idx (observe a1)) (episode_idx a2);
                       EvLog score] ++ ev')
        | (Crashed, ev) => (Crashed, ev)
        | (OutOfFuel, ev) => (OutOfFuel, ev)
        end
      else (Finished a0, [EvExit])
  end.

(** [run] with the limit as an argument; the source fixes it to [N_GAMES]. *)
Definition run_with (n_games : Z) (fuel : nat) (a : Agent)
  : Outcome Agent * list Event :=
  run_loop n_games fuel a 1.

Definition run (fuel : nat) (a : Agent) : Outcome Agent * list Event :=
  run_with N_GAMES fuel a.

End Worker.

Arguments local_actor_critic {F E} a.
Arguments global_actor_critic {F E} a.
Arguments optimizer {F E} a.
Arguments grad_store {F E} a.
Arguments episode_idx {F E} a.
Arguments global_rewards {F E} a.
Arguments env {F E} a.
Arguments set_local {F E} a m.
Arguments set_env {F E} a e.
Arguments set_episode_idx {F E} a z.
Arguments do_zero_grad {F E} a.
Arguments do_backward {F E} a done.
Arguments do_push_grad {F E} a.
Arguments do_step {F E} a.
Arguments do_pull {F E} a.
Arguments synchronize {F E} a done.
Arguments choose_action {E} m e state.
Arguments step_body {F E} a t_step state score.
Arguments episode_loop {F E} fuel a t_step state score.
Arguments observe {F E} a.
Arguments episode {F E} fuel a t_step.
Arguments end_episode {F E} a score.
Arguments run_loop {F E} n_games fuel a t_step.
Arguments run_with {F E} n_games fuel a.
Arguments run {F E} fuel a.

(** ** Trace properties of the worker loop *)

(** The buffer is empty after line 155 and after a synchronization point,
    a synchronization point sees between one and [T_MAX] buffered steps,
    and it sees fewer than [T_MAX] only when the episode is done or when it
    is the first synchronization point of its episode ([first]: the event
    just before is the episode's start). *)
Fixpoint segments_ok (first : bool) (tr : list Event) : Prop :=
  match tr with
  | [] => True
  | EvEpisodeStart k :: tl => k = 0%nat /\ segments_ok true tl
  | EvSync n d k :: tl =>
      (1 <= n <= T_MAX)%nat
      /\ k = 0%nat
      /\ ((n < T_MAX)%nat -> d = true \/ first = true)
      /\ segments_ok false tl
  | _ :: tl => segments_ok false tl
  end.

(** The specification's sentence on segments, read on a trace: at most
    [T_MAX] buffered steps at a synchronization point, fewer only if the
    episode is done, and an empty buffer after line 155 and after every
    synchronization point. *)
Definition segment_claim (tr : list Event) : Prop :=
  (forall n d k, In (EvSync n d k) tr ->
     (n <= T_MAX)%nat /\ ((n < T_MAX)%nat -> d = true) /\ k = 0%nat)
  /\ (forall k, In (EvEpisodeStart k) tr -> k = 0%nat).

Definition is_sync (e : Event) : Prop :=
  match e with
  | EvSync _ _ _ => True
  | _ => False
  end.

(** The result of an episode with the counter field of its worker set. *)
Definition with_counter {F : Framework} {E : Environment} (z : Z)
    (r : Outcome (Agent F E * nat * R) * list Event)
  : Outcome (Agent F E * nat * R) * list Event :=
  match r with
  | (Finished (a, t, score), ev) => (Finished (set_episode_idx a z, t, score), ev)
  | other => other
  end.

(** ** The locked increment of lines 187-188 under interleaving

    [with self.episode_idx.get_lock(): self.episode_idx.value += 1] is four
    steps of a worker: take the lock, read the value, write the value plus
    one, release the lock.  A scheduler picks which worker moves next; a
    worker that waits for the lock, or has nothing left to do, stays put. *)

Module Counter.

Inductive Thread :=
| Idle (todo : nat)
    (* outside the block, [todo] increments still to perform *)
| Holding (todo : nat)
    (* lock taken *)
| Loaded (todo : nat) (tmp : Z)
    (* value read into [tmp] *)
| Stored (todo : nat)
    (* [tmp + 1] written, lock not yet released *).

Record Shared := mkShared {
  value : Z;
  lock : option nat;
  threads : list Thread
}.

Definition step (tid : nat) (s : Shared) : Shared :=
  match nth_error (threads s) tid with
  | Some (Idle (S k)) =>
      match lock s with
      | None => mkShared (value s) (Some tid) (list_set (threads s) tid (Holding (S k)))
      | Some _ => s
      end
  | Some (Holding k) =>
      mkShared (value s) (lock s) (list_set (threads s) tid (Loaded k (value s)))
  | Some (Loaded k tmp) =>
      mkShared (wrap_int (tmp + 1)) (lock s) (list_set (threads s) tid (Stored k))
  | Some (Stored k) =>
      mkShared (value s) None (list_set (threads s) tid (Idle (pred k)))
  | _ => s
  end.

Definition exec (sched : list nat) (s : Shared) : Shared :=
  fold_left (fun s tid => step tid s) sched s.

(** [ks] gives each worker's number of increments. *)
Definition initial (init : Z) (ks : list nat) : Shared :=
  mkShared init None (map Idle ks).

Definition finished (th : Thread) : bool :=
  match th with
  | Idle O => true
  | _ => false
  end.

Definition all_done (s : Shared) : bool := forallb finished (threads s).

Definition total (ks : list nat) : Z := Z.of_nat (fold_right Nat.add O ks).

(** Increments a worker has not yet written. *)
Definition pending (th : Thread) : Z :=
  match th with
  | Idle k | Holding k | Loaded k _ => Z.of_nat k
  | Stored k => Z.of_nat (pred k)
  end.

Definition pending_all (l : list Thread) : Z :=
  fold_right (fun th acc => (pending th + acc)%Z) 0%Z l.

(** The schedule that lets worker [tid] perform [k] increments alone. *)
Fixpoint solo (tid k : nat) : list nat :=
  match k with
  | O => []
  | S k' => tid :: tid :: tid :: tid :: solo tid k'
  end.

(** One worker after the other. *)
Fixpoint sequential (tid : nat) (ks : list nat) : list nat :=
  match ks with
  | [] => []
  | k :: tl => solo tid k ++ sequential (S tid) tl
  end.

(** The lock discipline: a worker inside the block is the lock's owner, and
    what it has read is still the counter's value. *)
Definition lock_ok (s : Shared) : Prop :=
  forall i th, nth_error (threads s) i = Some th ->
    match th with
    | Idle _ => lock s <> Some i
    | Holding k => lock s = Some i /\ (1 <= k)%nat
    | Loaded k tmp => lock s = Some i /\ tmp = value s /\ (1 <= k)%nat
    | Stored k => lock s = Some i /\ (1 <= k)%nat
    end.

End Counter.

(** ** The counter under the workers' loops

    The workers of the program around the shared counter: the test of line
    151 (the read of [value] takes the counter's lock), the episode, which
    touches nothing shared, and the locked increment of lines 187-188.  The
    orchestrator creates the counter at 0 and starts [W] workers. *)

Module Pool.

Inductive Worker :=
| AtTest
| InEpisode
| Waiting
| Holding
| Loaded (tmp : Z)
| Stored
| Exited.

Record Shared := mkShared {
  value : Z;
  lock : option nat;
  workers : list Worker
}.

Definition step (n_games : Z) (tid : nat) (s : Shared) : Shared :=
  match nth_error (workers s) tid with
  | Some AtTest =>
      match lock s with
      | None =>
          mkShared (value s) None
            (list_set (workers s) tid
               (if (value s <? n_games)%Z then InEpisode else Exited))
      | Some _ => s
      end
  | Some InEpisode =>
      mkShared (value s) (lock s) (list_set (workers s) tid Waiting)
  | Some Waiting =>
      match lock s with
      | None => mkShared (value s) (Some tid) (list_set (workers s) tid Holding)
      | Some _ => s
      end
  | Some Holding =>
      mkShared (value s) (lock s) (list_set (workers s) tid (Loaded (value s)))
  | Some (Loaded tmp) =>
      mkShared (wrap_int (tmp + 1)) (lock s) (list_set (workers s) tid Stored)
  | Some Stored =>
      mkShared (value s) None (list_set (workers s) tid AtTest)
  | _ => s
  end.

Definition exec (n_games : Z) (sched : list nat) (s : Shared) : Shared :=
  fold_left (fun s tid => step n_games tid s) sched s.

(** Lines 214-228. *)
Definition start (W : nat) : Shared := mkShared 0 None (repeat AtTest W).

(** A worker past the test that has not yet written its increment. *)
Definition owes (w : Worker) : Z :=
  match w with
  | InEpisode | Waiting | Holding | Loaded _ => 1
  | _ => 0
  end.

Definition owed (l : list Worker) : Z :=
  fold_right (fun w acc => (owes w + acc)%Z) 0%Z l.

Definition lock_ok (s : Shared) : Prop :=
  forall i w, nth_error (workers s) i = Some w ->
    match w with
    | Holding | Stored => lock s = Some i
    | Loaded tmp => lock s = Some i /\ tmp = value s
    | _ => lock s <> Some i
    end.

End Pool.

(** ** A small instance

    One input, one hidden unit per head, two actions, discount 0.99, and a
    buffer of two steps with reward 1 each. *)

Definition demo_policy_l1 : Linear := mkLinear [[1]] [0].
Definition demo_policy_l2 : Linear := mkLinear [[1]; [-1]] [0; 0].
Definition demo_value_l1 : Linear := mkLinear [[1]] [0].
Definition demo_value_l2 : Linear := mkLinear [[1]] [0].

Definition demo_model : ActorCritic :=
  ActorCritic_init (99 / 100) demo_policy_l1 demo_policy_l2 demo_value_l1
    demo_value_l2.

Definition demo_buffer : ActorCritic :=
  fold_left apply_op [OpRemember [1] 0%nat 1 [2]; OpRemember [2] 1%nat 1 [3]]
    demo_model.

(** Five buffered steps with reward 1 each. *)
Definition demo_five : ActorCritic :=
  fold_left apply_op
    [OpRemember [1] 0%nat 1 [2]; OpRemember [2] 1%nat 1 [3];
     OpRemember [3] 0%nat 1 [4]; OpRemember [4] 1%nat 1 [5];
     OpRemember [5] 0%nat 1 [6]]
    demo_model.

Definition demo_pis : list (list R) :=
  match forward_batch demo_buffer (states demo_buffer) with
  | Some (pi, _) => pi
  | None => []
  end.

Definition demo_vs : list R :=
  match forward_batch demo_buffer (states demo_buffer) with
  | Some (_, v) => v
  | None => []
  end.

(** A framework whose optimizer leaves the parameters as they are, and an
    environment that counts its steps: every observation is [[0]], every
    reward 1, the action drawn is always 0, no other worker runs, and an
    episode ends at the twelfth and at the sixteenth step. *)
Definition demo_framework : Framework :=
  mkFramework unit (fun m _ => state_dict m) (fun o sd _ => (o, sd)) false.

Definition demo_environment : Environment :=
  mkEnvironment nat
    (fun n => (n, [0]))
    (fun n _ => (S n, ([0], 1, Nat.eqb (S n) 12 || Nat.eqb (S n) 16)))
    (fun n _ => (n, 0%nat))
    (fun n => (n, 0%nat)).

Definition demo_agent : Agent demo_framework demo_environment :=
  mkAgent demo_framework demo_environment demo_model demo_model tt [] 0%Z [] 0%nat.

Definition demo_agent_at_sync : Agent demo_framework demo_environment :=
  set_local demo_agent demo_buffer.

(** ** Lines 176 and 179 among several workers

    The shared parameters lie in shared memory (line 210) and no lock guards
    them: the [optimizer.step()] of one worker writes them in place, tensor
    by tensor, while the [load_state_dict] of another copies them, tensor by
    tensor.  A scheduler picks who moves next. *)

Module Hogwild.

Inductive Op :=
| Copy (k : nat)
    (* this worker's [load_state_dict]: local tensor [k] := shared tensor [k] *)
| Write (k : nat) (x : Tensor)
    (* another worker's [optimizer.step()]: shared tensor [k] := [x] *).

Record Mem := mkMem {
  shared : list Tensor;
  local : list Tensor
}.

Definition step (op : Op) (s : Mem) : Mem :=
  match op with
  | Copy k =>
      match nth_error (shared s) k with
      | Some x => mkMem (shared s) (list_set (local s) k x)
      | None => s
      end
  | Write k x => mkMem (list_set (shared s) k x) (local s)
  end.

Definition exec (ops : list Op) (s : Mem) : Mem :=
  fold_left (fun s op => step op s) ops s.





End Hogwild.






(** A module that all but rules out its second action: logits 0 and -32
    at every state, value estimate 0; and one buffered step that took it. *)
Definition sharp_model : ActorCritic :=
  ActorCritic_init (99 / 100)
    (mkLinear [[0]] [0]) (mkLinear [[0]; [0]] [0; -32])
    (mkLinear [[0]] [0]) (mkLinear [[0]] [0]).

Definition sharp_buffer : ActorCritic :=
  remember sharp_model [0] 1%nat 1 [0].

(** ** Lines 94-100 on the values a float32 can take

    The numbers above are exact reals.  A float32 tensor can also hold an
    infinity or NaN (a value head overflows on large weights), and line 94
    multiplies the estimate by [1 - int(done)] whatever it holds.  [Num] adds
    these values to the reals: a result beyond the largest float32 overflows
    to an infinity; rounding within the range stays outside the model. *)

Module Float32.

Inductive Num :=
| Fin (x : R)
| PInf
| NInf
| NaN.

(** The least magnitude that rounds to an infinity, [(2 - 2^-24) * 2^127]. *)
Definition OVERFLOW : R := (2 - / 2 ^ 24) * 2 ^ 127.


Definition round (x : R) : Num :=
  if Rle_dec OVERFLOW x then PInf
  else if Rle_dec x (- OVERFLOW) then NInf
  else Fin x.

(** An infinity times a finite number: by the sign, NaN at zero. *)
Definition scale_inf (positive : bool) (x : R) : Num :=
  if Rlt_dec 0 x then (if positive then PInf else NInf)
  else if Rlt_dec x 0 then (if positive then NInf else PInf)
  else NaN.

Definition mul (a b : Num) : Num :=
  match a, b with
  | NaN, _ | _, NaN => NaN
  | Fin x, Fin y => round (x * y)
  | PInf, Fin x | Fin x, PInf => scale_inf true x
  | NInf, Fin x | Fin x, NInf => scale_inf false x
  | PInf, PInf | NInf, NInf => PInf
  | PInf, NInf | NInf, PInf => NInf
  end.

Definition add (a b : Num) : Num :=
  match a, b with
  | NaN, _ | _, NaN => NaN
  | Fin x, Fin y => round (x + y)
  | PInf, NInf | NInf, PInf => NaN
  | PInf, _ | _, PInf => PInf
  | NInf, _ | _, NInf => NInf
  end.


(** Lines 98-100: [R = reward + self.gamma * R; batch_return.append(R)]. *)
Definition calc_R_step (g : R) (acc : Num * list Num) (reward : R)
  : Num * list Num :=
  let R' := add (Fin reward) (mul (Fin g) (fst acc)) in (R', snd acc ++ [R']).


End Float32.

(** ** Further notions for the properties below *)

(** The discounted sum of a reward sequence continued by [R0]:
    [r_0 + g r_1 + ... + g^(n-1) r_(n-1) + g^n R0]. *)
Definition discounted (g : R) (rs : list R) (R0 : R) : R :=
  Rsum (map (fun k => g ^ k * nth k rs 0) (seq 0 (length rs)))
  + g ^ length rs * R0.

(** The shapes [__init__] gives the layers: [nn.Linear(n_in, n_out)] has
    [n_out] rows of [n_in] weights and [n_out] biases; the hidden width is
    128 and the value head has one output. *)
Definition Linear_shape (l : Linear) (n_in n_out : nat) : Prop :=
  length (weight l) = n_out
  /\ length (bias l) = n_out
  /\ Forall (fun row => length row = n_in) (weight l).

Definition built_by_init (input_dim n_actions : nat) (m : ActorCritic) : Prop :=
  Linear_shape (policy_l1 m) input_dim 128
  /\ Linear_shape (policy_l2 m) 128 n_actions
  /\ Linear_shape (value_l1 m) input_dim 128
  /\ Linear_shape (value_l2 m) 128 1.

(** A transition as [remember] takes it, and a run of [remember] calls. *)
Definition Transition : Type := State * Action * R * State.

Definition remember_all (m : ActorCritic) (trs : list Transition) : ActorCritic :=
  fold_left (fun m tr =>
               match tr with
               | (s, a, r, s') => remember m s a r s'
               end) trs m.

(** Counting in a trace. *)
Definition is_start (e : Event) : bool :=
  match e with EvEpisodeStart _ => true | _ => false end.

Definition is_increment (e : Event) : bool :=
  match e with EvIncrement _ _ => true | _ => false end.

Definition is_log (e : Event) : bool :=
  match e with EvLog _ => true | _ => false end.

Definition count (p : Event -> bool) (tr : list Event) : nat :=
  length (filter p tr).

(** The buffered steps handed to [calc_loss] over a trace. *)
Fixpoint sync_total (tr : list Event) : nat :=
  match tr with
  | [] => O
  | EvSync n _ _ :: tl => (n + sync_total tl)%nat
  | _ :: tl => sync_total tl
  end.

(** A model with the layer shapes of [ActorCritic([1], 2)]. *)
Definition wide_model : ActorCritic :=
  ActorCritic_init (99 / 100)
    (mkLinear (repeat [1] 128) (repeat 0 128))
    (mkLinear (repeat (repeat 0 128) 2) (repeat 0 2))
    (mkLinear (repeat [1] 128) (repeat 0 128))
    (mkLinear (repeat (repeat 0 128) 1) (repeat 0 1)).

(** The scores written to the reward log over a trace, in order. *)
Fixpoint logged (tr : list Event) : list R :=
  match tr with
  | [] => []
  | EvLog score :: tl => score :: logged tl
  | _ :: tl => logged tl
  end.

(** A synchronization point that is not the end of an episode. *)
Definition is_running_sync (e : Event) : Prop :=
  match e with
  | EvSync _ false _ => True
  | _ => False
  end.

(** The gradient slots of a worker refer to distinct tensors of its store,
    one per parameter, and the shared module's slots are the local module's:
    the state lines 171-173 leave behind. *)
Definition grads_linked {F : Framework} {E : Environment} (a : Agent F E)
    (idxs : list nat) : Prop :=
  param_grad (local_actor_critic a) = map Some idxs
  /\ param_grad (global_actor_critic a) = map Some idxs
  /\ NoDup idxs
  /\ Forall (fun i => (i < length (grad_store a))%nat) idxs.

(** No gradient has been computed yet, as [__init__] leaves the modules. *)
Definition grads_unset {F : Framework} {E : Environment} (a : Agent F E)
  : Prop :=
  param_grad (local_actor_critic a) = repeat None 8
  /\ param_grad (global_actor_critic a) = repeat None 8.

Definition same_shape (x y : Tensor) : bool :=
  match x, y with
  | Vec u, Vec v => Nat.eqb (length u) (length v)
  | Mat a, Mat b =>
      Nat.eqb (length a) (length b)
      && forallb (fun p => Nat.eqb (length (fst p)) (length (snd p)))
           (combine a b)
  | _, _ => false
  end.

(** The gradients [optimizer.step()] reads at the synchronization point
    entered from [a]. *)
Definition stepped_on {F : Framework} {E : Environment} (a : Agent F E)
    (done : bool) : list (option Tensor) :=
  let pushed := do_push_grad (do_backward (do_zero_grad a) done) in
  map (grad_value (grad_store pushed)) (param_grad (global_actor_critic pushed)).

(** The shapes of [__init__] on a [state_dict]. *)
Definition layers_built (input_dim n_actions : nat) (sd : Layers) : Prop :=
  Linear_shape (l_policy_l1 sd) input_dim 128
  /\ Linear_shape (l_policy_l2 sd) 128 n_actions
  /\ Linear_shape (l_value_l1 sd) input_dim 128
  /\ Linear_shape (l_value_l2 sd) 128 1.

(** What the worker loop takes for granted from outside: observations of
    [input_dim] numbers, a draw that is an index of the distribution drawn
    from, and an optimizer that keeps the shapes of the parameters. *)
Definition world_ok (F : Framework) (E : Environment)
    (input_dim n_actions : nat) : Prop :=
  (forall e, length (snd (env_reset E e)) = input_dim)
  /\ (forall e a, length (fst (fst (snd (env_step E e a)))) = input_dim)
  /\ (forall e probs, probs <> [] ->
        (snd (sample E e probs) < length probs)%nat)
  /\ (forall o sd g, layers_built input_dim n_actions sd ->
        layers_built input_dim n_actions (snd (adam_step F o sd g))).

(** A buffer the module can be run on. *)
Definition buffer_fits (input_dim n_actions : nat) (m : ActorCritic) : Prop :=
  balanced m
  /\ Forall (fun s => length s = input_dim) (states m)
  /\ Forall (fun s => length s = input_dim) (next_states m)
  /\ Forall (fun a => (a < n_actions)%nat) (actions m).

Definition agent_fits {F : Framework} {E : Environment}
    (input_dim n_actions : nat) (a : Agent F E) : Prop :=
  built_by_init input_dim n_actions (local_actor_critic a)
  /\ built_by_init input_dim n_actions (global_actor_critic a)
  /\ buffer_fits input_dim n_actions (local_actor_critic a).

(** The small environment around a module with the layer shapes of
    [__init__]. *)
Definition wide_agent : Agent demo_framework demo_environment :=
  mkAgent demo_framework demo_environment wide_model wide_model tt [] 0%Z []
    0%nat.

(** The small instance under a torch whose [zero_grad] drops the gradients,
    at its second synchronization point. *)
Definition recent_framework : Framework :=
  mkFramework unit (fun m _ => state_dict m) (fun o sd _ => (o, sd)) true.

Definition recent_agent : Agent recent_framework demo_environment :=
  mkAgent recent_framework demo_environment demo_buffer demo_model tt [] 0%Z []
    0%nat.

Definition recent_agent_again : Agent recent_framework demo_environment :=
  let pushed := do_push_grad (do_backward (do_zero_grad recent_agent) true) in
  set_local pushed
    (remember (clear_memory (local_actor_critic pushed)) [0] 0%nat 1 [0]).

Module PoolState.

Import Pool.

(** Inside [with self.episode_idx.get_lock():]. *)
Definition in_block (w : Worker) : bool :=
  match w with
  | Holding | Loaded _ | Stored => true
  | _ => false
  end.

Definition exited (w : Worker) : bool :=
  match w with
  | Exited => true
  | _ => false
  end.

(** The lock is held by a worker that is inside the block. *)
Definition lock_owned (s : Shared) : Prop :=
  forall i, lock s = Some i ->
    exists w, nth_error (workers s) i = Some w /\ in_block w = true.

(** Episodes begun so far: one per passed test of line 151. *)
Fixpoint episodes_begun (n_games : Z) (sched : list nat) (s : Shared) : nat :=
  match sched with
  | [] => O
  | tid :: tl =>
      ((match nth_error (workers s) tid, nth_error (workers (step n_games tid s)) tid with
        | Some AtTest, Some InEpisode => 1
        | _, _ => 0
        end) + episodes_begun n_games tl (step n_games tid s))%nat
  end.

End PoolState.

(** * Properties *)

(** ** Lists and the option plumbing *)

Lemma mapM_length {A B : Type} (f : A -> option B) (l : list A) (r : list B) :
  mapM f l = Some r -> length r = length l.
Proof.
  revert r; induction l as [|x xs IH]; simpl; intros r H.
  - now inversion H.
  - destruct (f x) as [y|]; [|discriminate].
    destruct (mapM f xs) as [ys|]; [|discriminate].
    inversion H; subst; simpl; f_equal; now apply IH.
Qed.

Lemma mapM_defined {A B : Type} (f : A -> option B) (l : list A) :
  (forall x, In x l -> f x <> None) -> exists r, mapM f l = Some r.
Proof.
  induction l as [|x xs IH]; simpl; intros H.
  - now exists [].
  - destruct (f x) as [y|] eqn:Hx.
    + destruct IH as [ys Hys]; [intros z Hz; apply H; now right|].
      rewrite Hys; now exists (y :: ys).
    + exfalso; apply (H x); [now left | exact Hx].
Qed.


Lemma last_item_app {A : Type} (l : list A) (x : A) :
  last_item (l ++ [x]) = Some x.
Proof.
  unfold last_item.
  destruct (l ++ [x]) eqn:E; [now destruct l|].
  rewrite <- E, length_app; simpl.
  replace (length l + 1 - 1)%nat with (length l) by lia.
  rewrite nth_error_app2 by lia.
  now rewrite Nat.sub_diag.
Qed.

Lemma last_item_nonempty {A : Type} (l : list A) :
  l <> [] -> exists x, last_item l = Some x.
Proof.
  intros H; destruct (exists_last H) as [l' [x ->]].
  exists x; apply last_item_app.
Qed.

Lemma forward_batch_nonempty (m : ActorCritic) (batch : list State) :
  batch <> [] ->
  forward_batch m batch
  = match mapM (forward m) batch with
    | Some rows => Some (map fst rows, map snd rows)
    | None => None
    end.
Proof. destruct batch; [congruence | reflexivity]. Qed.

Lemma forward_batch_rows (m : ActorCritic) (batch : list State)
    (pi : list (list R)) (v : list R) :
  forward_batch m batch = Some (pi, v) ->
  batch <> []
  /\ exists rows,
       mapM (forward m) batch = Some rows
       /\ pi = map fst rows /\ v = map snd rows.
Proof.
  destruct batch as [|s tl]; [discriminate|].
  rewrite forward_batch_nonempty by discriminate.
  destruct (mapM (forward m) (s :: tl)) as [rows|]; [|discriminate].
  intros H; inversion H; subst.
  split; [discriminate | exists rows; auto].
Qed.

Lemma forward_batch_length (m : ActorCritic) (batch : list State)
    (pi : list (list R)) (v : list R) :
  forward_batch m batch = Some (pi, v) ->
  length pi = length batch /\ length v = length batch.
Proof.
  intros H; destruct (forward_batch_rows _ _ _ _ H) as [_ [rows [E [-> ->]]]].
  rewrite !length_map.
  split; now apply mapM_length with (f := forward m).
Qed.

Lemma forward_batch_defined (m : ActorCritic) (batch : list State) :
  batch <> [] ->
  (forall s, In s batch -> forward m s <> None) ->
  exists pi v, forward_batch m batch = Some (pi, v).
Proof.
  intros Hne H; destruct (mapM_defined _ _ H) as [rows Hr].
  rewrite forward_batch_nonempty, Hr by exact Hne; eauto.
Qed.

Lemma nth_error_list_set_eq {A : Type} (l : list A) (i : nat) (x : A) :
  (i < length l)%nat -> nth_error (list_set l i x) i = Some x.
Proof.
  revert i; induction l as [|h tl IH]; intros i H; simpl in *; [lia|].
  destruct i; simpl; [reflexivity | apply IH; lia].
Qed.

Lemma nth_error_list_set_neq {A : Type} (l : list A) (i j : nat) (x : A) :
  i <> j -> nth_error (list_set l i x) j = nth_error l j.
Proof.
  revert i j; induction l as [|h tl IH]; intros i j H; simpl.
  - now destruct i.
  - destruct i, j; simpl; try reflexivity; [congruence | apply IH; congruence].
Qed.

Lemma list_set_same {A : Type} (l : list A) (i : nat) (x : A) :
  nth_error l i = Some x -> list_set l i x = l.
Proof.
  revert i; induction l as [|h tl IH]; intros i H; [reflexivity|].
  destruct i; simpl in *; [now inversion H | now rewrite IH].
Qed.

Lemma list_set_twice {A : Type} (l : list A) (i : nat) (x y : A) :
  list_set (list_set l i x) i y = list_set l i y.
Proof.
  revert i; induction l as [|h tl IH]; intros i; [reflexivity|].
  destruct i; simpl; [reflexivity | now rewrite IH].
Qed.

Lemma list_set_middle {A : Type} (pre post : list A) (x y : A) :
  list_set (pre ++ x :: post) (length pre) y = pre ++ y :: post.
Proof.
  induction pre as [|h tl IH]; simpl; [reflexivity | now rewrite IH].
Qed.

Lemma list_set_length {A : Type} (l : list A) (i : nat) (x : A) :
  length (list_set l i x) = length l.
Proof.
  revert i; induction l as [|h tl IH]; intros i; [reflexivity|].
  destruct i; simpl; [reflexivity | now rewrite IH].
Qed.

(** ** C int arithmetic *)

Lemma wrap_int_small (z : Z) :
  (INT_MIN <= z <= INT_MAX)%Z -> wrap_int z = z.
Proof.
  unfold wrap_int, INT_MIN, INT_MAX; intros H.
  rewrite Z.mod_small; lia.
Qed.

Lemma wrap_int_range (z : Z) : (INT_MIN <= wrap_int z <= INT_MAX)%Z.
Proof.
  unfold wrap_int, INT_MIN, INT_MAX.
  pose proof (Z.mod_pos_bound (z + 2 ^ 31) (2 ^ 32)); lia.
Qed.

Lemma wrap_int_add (a b : Z) : wrap_int (wrap_int a + b) = wrap_int (a + b).
Proof.
  unfold wrap_int.
  replace ((a + 2 ^ 31) mod 2 ^ 32 - 2 ^ 31 + b + 2 ^ 31)%Z
    with ((a + 2 ^ 31) mod 2 ^ 32 + b)%Z by lia.
  rewrite Z.add_mod_idemp_l by lia.
  do 2 f_equal; lia.
Qed.

(** ** The trajectory buffer *)

(** C8: whatever the buffer holds, [clear_memory()] leaves the four
    sequences empty (so of equal length, zero) and touches nothing else. *)
Theorem clear_memory_empties (m : ActorCritic) :
  states (clear_memory m) = []
  /\ actions (clear_memory m) = []
  /\ rewards (clear_memory m) = []
  /\ next_states (clear_memory m) = []
  /\ balanced (clear_memory m)
  /\ length (states (clear_memory m)) = 0%nat
  /\ gamma (clear_memory m) = gamma m
  /\ state_dict (clear_memory m) = state_dict m
  /\ param_grad (clear_memory m) = param_grad m.
Proof.
  unfold balanced; simpl; repeat split; reflexivity.
Qed.

Lemma remember_balanced (m : ActorCritic) s a r s' :
  balanced m -> balanced (remember m s a r s').
Proof.
  unfold balanced; simpl; rewrite !length_app; simpl; lia.
Qed.

Lemma apply_ops_balanced (ops : list MemoryOp) (m : ActorCritic) :
  balanced m -> balanced (fold_left apply_op ops m).
Proof.
  revert m; induction ops as [|op ops IH]; simpl; intros m H; [exact H|].
  apply IH; destruct op; simpl.
  - now apply remember_balanced.
  - unfold balanced; simpl; auto.
Qed.

(** C10: [remember] appends one element to each of the four sequences and
    changes nothing else, [clear_memory] empties the four, and so after any
    sequence of the two on a freshly constructed module the four lengths
    agree. *)
Theorem buffers_stay_balanced :
  (forall m s a r s',
      states (remember m s a r s') = states m ++ [s]
      /\ actions (remember m s a r s') = actions m ++ [a]
      /\ rewards (remember m s a r s') = rewards m ++ [r]
      /\ next_states (remember m s a r s') = next_states m ++ [s']
      /\ gamma (remember m s a r s') = gamma m
      /\ state_dict (remember m s a r s') = state_dict m
      /\ param_grad (remember m s a r s') = param_grad m)
  /\ (forall m, length (states (clear_memory m)) = 0%nat
                /\ length (actions (clear_memory m)) = 0%nat
                /\ length (rewards (clear_memory m)) = 0%nat
                /\ length (next_states (clear_memory m)) = 0%nat)
  /\ (forall g p1 p2 v1 v2 ops,
         balanced (fold_left apply_op ops (ActorCritic_init g p1 p2 v1 v2))).
Proof.
  split; [|split].
  - intros; simpl; repeat split; reflexivity.
  - intros; simpl; repeat split; reflexivity.
  - intros; apply apply_ops_balanced; unfold balanced; simpl; auto.
Qed.

(** ** The backward scan of [calc_R] *)

Lemma scan_state (g R0 : R) (rs : list R) :
  fold_left (calc_R_step g) (rev rs) (R0, [])
  = (hd R0 (returns_from g rs R0), rev (returns_from g rs R0)).
Proof.
  induction rs as [|r tl IH]; simpl; [reflexivity|].
  rewrite fold_left_app, IH; reflexivity.
Qed.

Lemma scan_returns (g R0 : R) (rs : list R) :
  rev (snd (fold_left (calc_R_step g) (rev rs) (R0, []))) = returns_from g rs R0.
Proof.
  rewrite scan_state; simpl; apply rev_involutive.
Qed.

Lemma returns_from_length (g R0 : R) (rs : list R) :
  length (returns_from g rs R0) = length rs.
Proof.
  induction rs as [|r tl IH]; simpl; congruence.
Qed.

Lemma returns_from_hd (g R0 : R) (rs : list R) :
  rs <> [] -> hd R0 (returns_from g rs R0) = nth 0 (returns_from g rs R0) 0.
Proof.
  destruct rs; [congruence | reflexivity].
Qed.

Lemma returns_from_inner (g R0 : R) (rs : list R) (t : nat) :
  (t + 1 < length rs)%nat ->
  nth t (returns_from g rs R0) 0
  = nth t rs 0 + g * nth (t + 1) (returns_from g rs R0) 0.
Proof.
  revert t; induction rs as [|r tl IH]; simpl; intros t Ht; [lia|].
  destruct t as [|t]; simpl.
  - rewrite returns_from_hd; [reflexivity|].
    destruct tl; simpl in *; [lia | discriminate].
  - apply IH; lia.
Qed.

Lemma returns_from_last (g R0 : R) (rs : list R) :
  rs <> [] ->
  nth (length rs - 1) (returns_from g rs R0) 0
  = nth (length rs - 1) rs 0 + g * R0.
Proof.
  induction rs as [|r tl IH]; intros H; [congruence|].
  destruct tl as [|r' tl'].
  - reflexivity.
  - replace (length (r :: r' :: tl') - 1)%nat with (S (length (r' :: tl') - 1))
      by (simpl; lia).
    cbn [returns_from nth]; apply IH; discriminate.
Qed.

Lemma bootstrap_defined (m : ActorCritic) (done : bool) :
  next_states m <> [] ->
  (forall s, In s (next_states m) -> forward m s <> None) ->
  exists pi v_next vlast,
    forward_batch m (next_states m) = Some (pi, v_next)
    /\ last_item v_next = Some vlast
    /\ bootstrap m done = Some (vlast * IZR (1 - Z.b2z done)).
Proof.
  intros Hne Hf.
  destruct (forward_batch_defined _ _ Hne Hf) as [pi [v Hv]].
  destruct (forward_batch_length _ _ _ _ Hv) as [_ Hl].
  destruct (last_item_nonempty v) as [x Hx].
  { intros ->; destruct (next_states m); [congruence | discriminate]. }
  exists pi, v, x; unfold bootstrap; rewrite Hv, Hx; auto.
Qed.

Lemma balanced_nonempty (m : ActorCritic) :
  balanced m -> (1 <= length (rewards m))%nat ->
  states m <> [] /\ next_states m <> [].
Proof.
  intros [Hsa [Har Hrn]] Hpos; split; intros E; rewrite E in *;
    simpl in *; lia.
Qed.

(** [calc_R] is the recurrence started from [bootstrap], whenever the two
    forward passes go through. *)
Lemma calc_R_returns_from (m : ActorCritic) (done : bool) (b : R) :
  states m <> [] ->
  (forall s, In s (states m) -> forward m s <> None) ->
  bootstrap m done = Some b ->
  calc_R m done = Some (returns_from (gamma m) (rewards m) b).
Proof.
  intros Hne Hs Hb; unfold calc_R, bootstrap in *.
  destruct (forward_batch_defined _ _ Hne Hs) as [pi [v ->]].
  destruct (forward_batch m (next_states m)) as [[pi' v_next]|]; [|discriminate].
  destruct (last_item v_next) as [x|]; [|discriminate].
  inversion Hb; subst; now rewrite scan_returns.
Qed.

(** C1: for a buffer of [L >= 1] steps (four sequences of equal length,
    shapes the layers accept) and any discount factor, in particular any in
    [0, 1), [calc_R(done)] returns [L] returns in the order of the steps, with
    [R_t = reward_t + gamma * R_{t+1}] below the last step and
    [R_{L-1} = reward_{L-1} + gamma * bootstrap]. *)
Theorem calc_R_recurrence (m : ActorCritic) (done : bool) (L : nat) :
  length (rewards m) = L -> (1 <= L)%nat -> balanced m -> shapes_ok m ->
  exists Rs b,
    calc_R m done = Some Rs
    /\ bootstrap m done = Some b
    /\ length Rs = L
    /\ (forall t, (t + 1 < L)%nat ->
          nth t Rs 0 = nth t (rewards m) 0 + gamma m * nth (t + 1) Rs 0)
    /\ nth (L - 1) Rs 0 = nth (L - 1) (rewards m) 0 + gamma m * b.
Proof.
  intros HL Hpos Hbal [Hs Hns].
  destruct (balanced_nonempty m Hbal) as [Hne0 Hne]; [lia|].
  destruct (bootstrap_defined m done Hne Hns) as [pi [v [x [_ [_ Hb]]]]].
  exists (returns_from (gamma m) (rewards m) (x * IZR (1 - Z.b2z done))),
         (x * IZR (1 - Z.b2z done)).
  split; [now apply calc_R_returns_from|].
  split; [exact Hb|].
  split; [now rewrite returns_from_length|].
  split.
  - intros t Ht; apply returns_from_inner; lia.
  - rewrite <- HL; apply returns_from_last.
    intros E; rewrite E in HL; simpl in HL; lia.
Qed.

Lemma demo_buffer_shapes_ok : shapes_ok demo_buffer.
Proof.
  split; intros s Hs; simpl in Hs;
    repeat (destruct Hs as [<- | Hs]; [cbv; discriminate|]); contradiction.
Qed.

Lemma demo_buffer_balanced : balanced demo_buffer.
Proof. unfold balanced; simpl; auto. Qed.

Lemma calc_R_recurrence_witness :
  exists Rs b,
    calc_R demo_buffer true = Some Rs
    /\ bootstrap demo_buffer true = Some b
    /\ length Rs = 2%nat
    /\ (forall t, (t + 1 < 2)%nat ->
          nth t Rs 0 = nth t (rewards demo_buffer) 0
                       + gamma demo_buffer * nth (t + 1) Rs 0)
    /\ nth (2 - 1) Rs 0 = nth (2 - 1) (rewards demo_buffer) 0
                          + gamma demo_buffer * b.
Proof.
  apply (calc_R_recurrence demo_buffer true 2).
  - reflexivity.
  - lia.
  - exact demo_buffer_balanced.
  - exact demo_buffer_shapes_ok.
Defined.

(** With discount 0.99, five rewards of 1 and the episode done, the returns
    are 4.90099501, 3.940399, 2.9701, 1.99 and 1. *)
Example calc_R_five_done :
  exists R0 R1 R2 R3 R4,
    calc_R demo_five true = Some [R0; R1; R2; R3; R4]
    /\ R0 = 490099501 / 100000000
    /\ R1 = 3940399 / 1000000
    /\ R2 = 29701 / 10000
    /\ R3 = 199 / 100
    /\ R4 = 1.
Proof.
  do 5 eexists; split; [cbv; reflexivity|].
  repeat split; lra.
Qed.

(** ** The bootstrap value *)









(** ** The empty buffer *)

Lemma calc_R_empty (m : ActorCritic) (done : bool) :
  next_states m = [] -> calc_R m done = None.
Proof.
  intros E; unfold calc_R; rewrite E.
  destruct (forward_batch m (states m)) as [[pi v]|]; reflexivity.
Qed.

Lemma calc_loss_needs_calc_R (m : ActorCritic) (done : bool) :
  calc_R m done = None -> calc_loss m done = None.
Proof.
  intros E; unfold calc_loss; now rewrite E.
Qed.

(** C9: [calc_R], and with it [calc_loss] and the synchronization point,
    fails on a buffer without steps, where [v_next[-1]] has nothing to
    index; a buffer on which any of them succeeds is not empty. *)
Theorem calc_R_needs_steps (m : ActorCritic) (done : bool) :
  (next_states m = [] ->
   bootstrap m done = None /\ calc_R m done = None /\ calc_loss m done = None)
  /\ (forall Rs, calc_R m done = Some Rs -> next_states m <> [])
  /\ (forall loss, calc_loss m done = Some loss -> next_states m <> [])
  /\ (forall F E (a a' : Agent F E),
         local_actor_critic a = m -> synchronize a done = Some a' ->
         next_states m <> []).
Proof.
  split; [|split; [|split]].
  - intros E; split; [|split].
    + unfold bootstrap; now rewrite E.
    + now apply calc_R_empty.
    + now apply calc_loss_needs_calc_R, calc_R_empty.
  - intros Rs H E; rewrite (calc_R_empty m done E) in H; discriminate.
  - intros loss H E.
    rewrite (calc_loss_needs_calc_R m done (calc_R_empty m done E)) in H.
    discriminate.
  - intros F E a a' <- H E'.
    unfold synchronize in H.
    rewrite (calc_loss_needs_calc_R _ done (calc_R_empty _ done E')) in H.
    discriminate.
Qed.

Lemma calc_R_needs_steps_witness :
  bootstrap demo_model true = None
  /\ calc_R demo_model true = None
  /\ calc_loss demo_model true = None.
Proof.
  apply (proj1 (calc_R_needs_steps demo_model true)); reflexivity.
Defined.

(** ** The loss *)

Lemma combine_as_seq {A B C : Type} (f : A -> B -> C) (dx : A) (dy : B)
    (xs : list A) (ys : list B) :
  length xs = length ys ->
  map (fun p => f (fst p) (snd p)) (combine xs ys)
  = map (fun t => f (nth t xs dx) (nth t ys dy)) (seq 0 (length xs)).
Proof.
  revert ys; induction xs as [|x xs IH]; intros [|y ys] H; simpl in *;
    try discriminate; [reflexivity|].
  f_equal. rewrite <- seq_shift, map_map. apply IH; lia.
Qed.

Lemma bcast2_aligned {A B C : Type} (f : A -> B -> C) (dx : A) (dy : B)
    (xs : list A) (ys : list B) :
  length xs = length ys ->
  bcast2 f xs ys
  = Some (map (fun t => f (nth t xs dx) (nth t ys dy)) (seq 0 (length xs))).
Proof.
  intros H; unfold bcast2; rewrite H, Nat.eqb_refl, <- H.
  now rewrite (combine_as_seq f dx dy).
Qed.

Lemma mapM_id_seq {A : Type} (f : nat -> option A) (g : nat -> A) (n : nat) :
  (forall t, (t < n)%nat -> f t = Some (g t)) ->
  mapM (fun lp => lp) (map f (seq 0 n)) = Some (map g (seq 0 n)).
Proof.
  intros H.
  assert (G : forall k s, (forall t, In t (seq s k) -> f t = Some (g t)) ->
              mapM (fun lp => lp) (map f (seq s k)) = Some (map g (seq s k))).
  { induction k as [|k IH]; intros s Hk; simpl; [reflexivity|].
    rewrite (Hk s) by now left.
    rewrite IH; [reflexivity|].
    intros t Ht; apply Hk; now right. }
  apply G; intros t Ht; apply H; apply in_seq in Ht; lia.
Qed.

Lemma bcast2_map {T A B C : Type} (f : A -> B -> C) (a : T -> A) (b : T -> B)
    (l : list T) :
  bcast2 f (map a l) (map b l) = Some (map (fun t => f (a t) (b t)) l).
Proof.
  unfold bcast2; rewrite !length_map, Nat.eqb_refl; f_equal.
  induction l as [|t l IH]; simpl; [reflexivity | now rewrite IH].
Qed.

Lemma Categorical_length (p : list R) : length (Categorical p) = length p.
Proof. unfold Categorical; now rewrite length_map. Qed.

Lemma softmax_length (p : list R) : length (softmax p) = length p.
Proof. unfold softmax; now rewrite !length_map. Qed.

Lemma log_prob_in_range (logits : list R) (a : Action) :
  (a < length logits)%nat ->
  log_prob (Categorical (softmax logits)) a
  = Some (ln (clamp_probs (nth a (Categorical (softmax logits)) 0))).
Proof.
  intros H; unfold log_prob.
  rewrite (nth_error_nth' _ 0); [reflexivity|].
  now rewrite Categorical_length, softmax_length.
Qed.

Lemma Rsum_cons (x : R) (l : list R) : Rsum (x :: l) = x + Rsum l.
Proof. reflexivity. Qed.

Lemma Rsum_div (S : R) (l : list R) :
  Rsum (map (fun x => x / S) l) = Rsum l / S.
Proof.
  induction l as [|x l IH]; [unfold Rsum; simpl; unfold Rdiv; lra|].
  cbn [map]; rewrite !Rsum_cons, IH; unfold Rdiv; lra.
Qed.

Lemma Rsum_exp_pos (x : list R) : x <> [] -> 0 < Rsum (map exp x).
Proof.
  intros H; destruct x as [|a x]; [congruence|]; clear H.
  revert a; induction x as [|b x IH]; intros a; cbn [map]; rewrite Rsum_cons.
  - unfold Rsum; simpl; pose proof (exp_pos a); lra.
  - specialize (IH b); cbn [map] in IH; pose proof (exp_pos a); lra.
Qed.

Lemma softmax_sum (x : list R) : x <> [] -> Rsum (softmax x) = 1.
Proof.
  intros H; unfold softmax; cbv zeta; rewrite Rsum_div.
  pose proof (Rsum_exp_pos x H); field; lra.
Qed.

Lemma Categorical_normalised (p : list R) : Rsum p = 1 -> Categorical p = p.
Proof.
  intros H; unfold Categorical; rewrite H.
  rewrite <- (map_id p) at 2; apply map_ext; intros a; field.
Qed.

Lemma EPS_range : 0 < EPS /\ EPS < 1 - EPS.
Proof.
  unfold EPS.
  assert (H : 0 < / 2 ^ 23 < / 2).
  { split; [apply Rinv_0_lt_compat, pow_lt; lra|].
    apply Rinv_lt_contravar; [|simpl]; lra. }
  lra.
Qed.


Lemma clamp_probs_inside (p : R) : EPS <= p <= 1 - EPS -> clamp_probs p = p.
Proof.
  intros [H0 H1]; unfold clamp_probs.
  rewrite (Rmax_left p EPS) by exact H0.
  now apply Rmin_left.
Qed.

Lemma clamp_probs_below (p : R) : p <= EPS -> clamp_probs p = EPS.
Proof.
  intros H; pose proof EPS_range as [H0 H1]; unfold clamp_probs.
  rewrite (Rmax_right p EPS) by exact H.
  apply Rmin_left; lra.
Qed.

(** [calc_loss] step by step: the mean of the squared error plus the
    negative [log_prob], on the clamped probability, times the advantage. *)
Lemma calc_loss_steps (m : ActorCritic) (done : bool) (L : nat)
    (pis : list (list R)) (vs : list R) :
  length (rewards m) = L -> (1 <= L)%nat -> balanced m ->
  forward_batch m (states m) = Some (pis, vs) ->
  (forall s, In s (next_states m) -> forward m s <> None) ->
  (forall t, (t < L)%nat -> (nth t (actions m) 0 < length (nth t pis []))%nat) ->
  exists Rs,
    calc_R m done = Some Rs
    /\ length Rs = L
    /\ calc_loss m done
       = Some (Rsum (map (fun t =>
                            critic_loss_at (nth t Rs 0) (nth t vs 0)
                            + clamped_actor_loss_at (nth t pis [])
                                (nth t (actions m) 0%nat)
                                (nth t Rs 0) (nth t vs 0))
                       (seq 0 L))
               / INR L).
Proof.
  intros HL Hpos [Hsa [Har Hrn]] Hfw Hns Hact.
  assert (Hne : next_states m <> []).
  { intros E; rewrite E in Hrn; simpl in Hrn; lia. }
  destruct (bootstrap_defined m done Hne Hns) as [pi' [vn [x [Hvn [Hx _]]]]].
  set (Rs := returns_from (gamma m) (rewards m) (x * IZR (1 - Z.b2z done))).
  assert (HR : calc_R m done = Some Rs).
  { unfold calc_R; rewrite Hfw, Hvn, Hx; now rewrite scan_returns. }
  assert (HRl : length Rs = L) by (unfold Rs; now rewrite returns_from_length).
  destruct (forward_batch_length _ _ _ _ Hfw) as [Hpl Hvl].
  assert (Hvs : length vs = L) by lia.
  assert (Hps : length pis = L) by lia.
  assert (Has : length (actions m) = L) by lia.
  exists Rs; split; [exact HR|]; split; [exact HRl|].
  unfold calc_loss; rewrite HR, Hfw.
  rewrite (bcast2_aligned Rminus 0 0 Rs vs) by lia.
  rewrite (bcast2_aligned log_prob [] 0%nat) by (rewrite !length_map; lia).
  rewrite !length_map, HRl, Hps.
  rewrite (mapM_id_seq _
             (fun t => ln (clamp_probs
                             (nth (nth t (actions m) 0%nat)
                                (Categorical (softmax (nth t pis []))) 0)))).
  2:{ intros t Ht.
      change (@nil R) with (Categorical (softmax [])) at 1.
      rewrite (map_nth Categorical), (map_nth softmax).
      apply log_prob_in_range; now apply Hact. }
  rewrite !map_map, !bcast2_map.
  unfold mean.
  destruct L as [|L']; [lia|].
  cbn [seq map length]; rewrite length_map, length_seq.
  reflexivity.
Qed.

(** C6: on a buffer of [L >= 1] steps, [calc_loss(done)] is the mean over
    the steps of critic loss plus actor loss, where the actor loss takes the
    logarithm of the action's probability clamped to [[2^-23, 1 - 2^-23]]
    ([clamped_actor_loss_at]); where every taken action's probability lies
    in that interval this is the loss as the specification words it
    ([critic_loss_at], [actor_loss_at]). *)
Theorem calc_loss_is_mean (m : ActorCritic) (done : bool) (L : nat)
    (pis : list (list R)) (vs : list R) :
  length (rewards m) = L -> (1 <= L)%nat -> balanced m ->
  forward_batch m (states m) = Some (pis, vs) ->
  (forall s, In s (next_states m) -> forward m s <> None) ->
  (forall t, (t < L)%nat -> (nth t (actions m) 0 < length (nth t pis []))%nat) ->
  exists Rs,
    calc_R m done = Some Rs
    /\ length Rs = L
    /\ calc_loss m done
       = Some (Rsum (map (fun t =>
                            critic_loss_at (nth t Rs 0) (nth t vs 0)
                            + clamped_actor_loss_at (nth t pis [])
                                (nth t (actions m) 0%nat)
                                (nth t Rs 0) (nth t vs 0))
                       (seq 0 L))
               / INR L)
    /\ ((forall t, (t < L)%nat ->
           EPS <= nth (nth t (actions m) 0%nat)
                    (Categorical (softmax (nth t pis []))) 0
               <= 1 - EPS) ->
        calc_loss m done
        = Some (Rsum (map (fun t =>
                             critic_loss_at (nth t Rs 0) (nth t vs 0)
                             + actor_loss_at (nth t pis [])
                                 (nth t (actions m) 0%nat)
                                 (nth t Rs 0) (nth t vs 0))
                        (seq 0 L))
                / INR L)).
Proof.
  intros HL Hpos Hbal Hfw Hns Hact.
  destruct (calc_loss_steps m done L pis vs HL Hpos Hbal Hfw Hns Hact)
    as [Rs [HR [HRl Hloss]]].
  exists Rs; split; [exact HR|]; split; [exact HRl|]; split; [exact Hloss|].
  intros Hin; rewrite Hloss; do 3 f_equal.
  apply map_ext_in; intros t Ht; apply in_seq in Ht.
  unfold clamped_actor_loss_at, actor_loss_at.
  rewrite clamp_probs_inside by (apply Hin; lia).
  reflexivity.
Qed.

Lemma calc_loss_is_mean_witness :
  exists Rs,
    calc_R demo_buffer true = Some Rs
    /\ length Rs = 2%nat
    /\ calc_loss demo_buffer true
       = Some (Rsum (map (fun t =>
                            critic_loss_at (nth t Rs 0) (nth t demo_vs 0)
                            + clamped_actor_loss_at (nth t demo_pis [])
                                (nth t (actions demo_buffer) 0%nat)
                                (nth t Rs 0) (nth t demo_vs 0))
                       (seq 0 2))
               / INR 2).
Proof.
  destruct (calc_loss_is_mean demo_buffer true 2 demo_pis demo_vs)
    as [Rs [H1 [H2 [H3 _]]]].
  - reflexivity.
  - lia.
  - exact demo_buffer_balanced.
  - reflexivity.
  - exact (proj2 demo_buffer_shapes_ok).
  - intros t Ht; destruct t as [|[|t]]; simpl; lia.
  - exists Rs; repeat split; assumption.
Defined.

(** *** A probability below the clamp *)

Lemma exp_double (x p : R) : 0 < p -> p < exp x -> p * p < exp (x + x).
Proof. intros Hp H; rewrite exp_plus; nra. Qed.

Lemma exp_32 : 2 ^ 32 < exp 32.
Proof.
  assert (H1 : 2 < exp 1) by (pose proof (exp_ineq1 1 ltac:(lra)); lra).
  pose proof (exp_double 1 2 ltac:(lra) H1) as H2.
  replace (1 + 1) with 2 in H2 by lra.
  pose proof (exp_double 2 4 ltac:(lra) ltac:(lra)) as H4.
  replace (2 + 2) with 4 in H4 by lra.
  pose proof (exp_double 4 16 ltac:(lra) ltac:(lra)) as H8.
  replace (4 + 4) with 8 in H8 by lra.
  pose proof (exp_double 8 256 ltac:(lra) ltac:(lra)) as H16.
  replace (8 + 8) with 16 in H16 by lra.
  pose proof (exp_double 16 65536 ltac:(lra) ltac:(lra)) as H32.
  replace (16 + 16) with 32 in H32 by lra.
  lra.
Qed.

Lemma sharp_forward : forward sharp_buffer [0] = Some ([0; -32], 0).
Proof.
  unfold forward, Linear_forward, sharp_buffer, sharp_model, relu, dot, Rsum.
  cbn [remember ActorCritic_init policy_l1 policy_l2 value_l1 value_l2
         weight bias forallb length Nat.eqb andb combine map fst snd
         fold_right item].
  repeat f_equal; lra.
Qed.

Lemma sharp_probability :
  0 < nth 1 (Categorical (softmax [0; -32])) 0 < EPS.
Proof.
  rewrite Categorical_normalised by (apply softmax_sum; discriminate).
  unfold softmax, Rsum; cbn [map fold_right nth].
  rewrite exp_0.
  replace (exp (-32)) with (/ exp 32)
    by (rewrite <- exp_Ropp; f_equal; lra).
  pose proof exp_32 as H32.
  assert (Hp : 0 < 2 ^ 32) by (apply pow_lt; lra).
  assert (He : 0 < / exp 32 < / 2 ^ 32).
  { split; [apply Rinv_0_lt_compat; lra|].
    apply Rinv_lt_contravar; [apply Rmult_lt_0_compat|]; lra. }
  assert (Hs : / 2 ^ 32 < EPS).
  { unfold EPS; apply Rinv_lt_contravar; [|simpl; lra].
    apply Rmult_lt_0_compat; [apply pow_lt; lra | exact Hp]. }
  set (e := / exp 32) in *.
  assert (Hd : 0 < 1 + (e + 0)) by lra.
  split.
  - apply Rdiv_lt_0_compat; lra.
  - apply Rlt_trans with e; [|lra].
    apply (Rmult_lt_reg_r (1 + (e + 0))); [exact Hd|].
    unfold Rdiv; rewrite Rmult_assoc, Rinv_l by lra; nra.
Qed.

(** The loss as the specification words it is not what [calc_loss] returns
    where the taken action's probability is below [2^-23]: with logits
    [[0, -32]], the second action taken, reward 1 and [done], the code's
    actor loss is [-ln(2^-23)] and the specification's is above it. *)
Lemma clamped_log_prob_differs : ~ loss_claim sharp_buffer true.
Proof.
  intros Hclaim.
  assert (Hone : forward_batch sharp_buffer [[0]] = Some ([[0; -32]], [0])).
  { unfold forward_batch; cbn [mapM]; rewrite sharp_forward; reflexivity. }
  assert (Hfw : forward_batch sharp_buffer (states sharp_buffer)
                = Some ([[0; -32]], [0])) by exact Hone.
  assert (Hns : forall s, In s (next_states sharp_buffer) ->
                  forward sharp_buffer s <> None).
  { intros s [<-|[]]; rewrite sharp_forward; discriminate. }
  assert (Hbal : balanced sharp_buffer) by (repeat split).
  destruct (calc_loss_steps sharp_buffer true 1 [[0; -32]] [0] eq_refl
              (le_n 1) Hbal Hfw Hns) as [Rs [HR [HRl Hloss]]].
  { intros t Ht; replace t with 0%nat by lia; simpl; lia. }
  specialize (Hclaim _ _ _ Hfw HR).
  assert (Hb : bootstrap sharp_buffer true = Some 0).
  { unfold bootstrap; change (next_states sharp_buffer) with [[0]].
    rewrite Hone; simpl; now rewrite Rmult_0_r. }
  assert (HR' : calc_R sharp_buffer true
                = Some (returns_from (gamma sharp_buffer)
                          (rewards sharp_buffer) 0)).
  { apply calc_R_returns_from; [discriminate| |exact Hb].
    intros s [<-|[]]; rewrite sharp_forward; discriminate. }
  rewrite HR in HR'; inversion HR'; subst Rs; clear HR'.
  rewrite Hloss in Hclaim; inversion Hclaim as [Heq]; clear Hclaim.
  change (length (rewards sharp_buffer)) with 1%nat in Heq.
  unfold critic_loss_at, clamped_actor_loss_at, actor_loss_at, Rsum in Heq.
  cbn [seq map fold_right nth returns_from rewards actions sharp_buffer
         remember sharp_model ActorCritic_init app hd gamma INR] in Heq.
  destruct sharp_probability as [Hp0 Hp1].
  rewrite (clamp_probs_below _ (Rlt_le _ _ Hp1)) in Heq.
  pose proof (ln_increasing _ _ Hp0 Hp1) as Hln.
  lra.
Qed.

(** ** The synchronization point *)

Lemma zero_grad_length (mode : bool) (slots : list (option nat)) (st : Store) :
  length (fst (zero_grad mode slots st)) = length slots.
Proof.
  revert st; induction slots as [|slot tl IH]; intros st; simpl; [reflexivity|].
  match goal with |- context [zero_grad mode tl ?s] =>
    specialize (IH s); destruct (zero_grad mode tl s) as [tl' st2] end.
  simpl in *; now rewrite IH.
Qed.

Lemma accumulate_grad_length (slots : list (option nat)) (grads : list Tensor)
    (st : Store) :
  length (fst (accumulate_grad slots grads st)) = length slots.
Proof.
  revert grads st; induction slots as [|slot tl IH]; intros grads st; simpl;
    [reflexivity|].
  destruct grads as [|g gs]; [reflexivity|].
  destruct slot as [i|]; [destruct (nth_error st i)|];
    match goal with |- context [accumulate_grad tl gs ?s] =>
      specialize (IH gs s); destruct (accumulate_grad tl gs s) as [tl' st2] end;
    simpl in *; now rewrite IH.
Qed.

(** The loop of lines 171-173 overwrites: whatever the shared slots held,
    they end as the local slots. *)
Lemma push_grad_overwrites (l g : list (option nat)) :
  length l = length g -> push_grad l g = l.
Proof.
  revert g; induction l as [|x l IH]; intros [|y g] H; simpl in *;
    try discriminate; [reflexivity|].
  f_equal; apply IH; lia.
Qed.

Section WorkerFacts.

Variable F : Framework.
Variable E : Environment.

Lemma do_zero_grad_frame (a : Agent F E) :
  local_actor_critic (do_zero_grad a) = local_actor_critic a
  /\ optimizer (do_zero_grad a) = optimizer a
  /\ state_dict (global_actor_critic (do_zero_grad a))
     = state_dict (global_actor_critic a)
  /\ length (param_grad (global_actor_critic (do_zero_grad a)))
     = length (param_grad (global_actor_critic a)).
Proof.
  unfold do_zero_grad.
  pose proof (zero_grad_length (set_to_none F)
                (param_grad (global_actor_critic a)) (grad_store a)) as H.
  destruct (zero_grad (set_to_none F) (param_grad (global_actor_critic a))
              (grad_store a)) as [slots st]; simpl in *; auto.
Qed.

Lemma do_backward_frame (a : Agent F E) (done : bool) :
  global_actor_critic (do_backward a done) = global_actor_critic a
  /\ optimizer (do_backward a done) = optimizer a
  /\ state_dict (local_actor_critic (do_backward a done))
     = state_dict (local_actor_critic a)
  /\ length (param_grad (local_actor_critic (do_backward a done)))
     = length (param_grad (local_actor_critic a)).
Proof.
  unfold do_backward.
  pose proof (accumulate_grad_length (param_grad (local_actor_critic a))
                (parameters (autograd F (local_actor_critic a) done))
                (grad_store a)) as H.
  destruct (accumulate_grad (param_grad (local_actor_critic a))
              (parameters (autograd F (local_actor_critic a) done))
              (grad_store a)) as [slots st]; simpl in *; auto.
Qed.


(** ** Segments between synchronization points *)

Lemma synchronize_empties (a a' : Agent F E) (done : bool) :
  synchronize a done = Some a' -> length (states (local_actor_critic a')) = 0%nat.
Proof.
  unfold synchronize.
  destruct (calc_loss (local_actor_critic a) done); [|discriminate].
  intros H; inversion H; reflexivity.
Qed.

Lemma step_body_cases (a : Agent F E) (t : nat) (state : State) (score : R) :
  match step_body a t state score with
  | (Finished (a', t', _, _, done), ev) =>
      t' = S t
      /\ (((t mod T_MAX = 0)%nat \/ done = true)
          /\ ev = [EvSync (S (length (states (local_actor_critic a)))) done 0]
          /\ length (states (local_actor_critic a')) = 0%nat
          \/ (t mod T_MAX <> 0)%nat
             /\ done = false
             /\ ev = []
             /\ length (states (local_actor_critic a'))
                = S (length (states (local_actor_critic a))))
  | (Crashed, ev) => ev = []
  | (OutOfFuel, _) => False
  end.
Proof.
  unfold step_body.
  destruct (choose_action (local_actor_critic a) (env a) state)
    as [[e1 action]|]; [|reflexivity].
  destruct (env_step E e1 action) as [e2 [[next_state reward] done]].
  destruct (Nat.eqb (t mod T_MAX) 0) eqn:Ht; simpl.
  - apply Nat.eqb_eq in Ht.
    destruct (synchronize _ done) as [a2|] eqn:Hs; [|reflexivity].
    split; [reflexivity|]. left.
    rewrite (synchronize_empties _ _ _ Hs), length_app, Nat.add_1_r; auto.
  - apply Nat.eqb_neq in Ht. destruct done; simpl.
    + destruct (synchronize _ true) as [a2|] eqn:Hs; [|reflexivity].
      split; [reflexivity|]. left.
      rewrite (synchronize_empties _ _ _ Hs), length_app, Nat.add_1_r; auto.
    + split; [reflexivity|]. right.
      rewrite length_app, Nat.add_1_r; auto.
Qed.

Lemma horizon_after_sync (t : nat) :
  (t mod T_MAX = 0 -> (t + 4) mod T_MAX = 4 /\ (S t + 4) mod T_MAX = 0)%nat.
Proof.
  unfold T_MAX; intros H.
  zify; Z.to_euclidean_division_equations; lia.
Qed.

Lemma horizon_between_syncs (t : nat) :
  (t mod T_MAX <> 0 -> (S t + 4) mod T_MAX = S ((t + 4) mod T_MAX))%nat.
Proof.
  unfold T_MAX; intros H.
  zify; Z.to_euclidean_division_equations; lia.
Qed.

Lemma horizon_bound (t : nat) : ((t + 4) mod T_MAX <= 4)%nat.
Proof.
  unfold T_MAX. zify; Z.to_euclidean_division_equations; lia.
Qed.

(** Inside an episode the buffer holds at most the steps taken since the
    last multiple of [T_MAX], and exactly those once the episode has seen a
    synchronization point. *)
Lemma episode_loop_segments (fuel : nat) :
  forall (a : Agent F E) (t : nat) (state : State) (score : R) (first : bool),
    (length (states (local_actor_critic a)) <= (t + 4) mod T_MAX)%nat ->
    (first = false ->
     length (states (local_actor_critic a)) = ((t + 4) mod T_MAX)%nat) ->
    segments_ok first (snd (episode_loop fuel a t state score)).
Proof.
  induction fuel as [|fuel IH]; intros a t state score first Hle Hex;
    [exact I|].
  cbn [episode_loop].
  pose proof (step_body_cases a t state score) as Hc.
  pose proof (horizon_bound t) as Hb.
  destruct (step_body a t state score)
    as [[[[[[a' t'] state'] score'] done]| |] ev]; [| subst ev; exact I | tauto].
  destruct Hc as [-> [[Hsync [-> Hlen]] | [Hns [-> [-> Hlen]]]]].
  - destruct done.
    + cbn [snd segments_ok]; unfold T_MAX in *; repeat split; auto; lia.
    + destruct Hsync as [Hsync | Hsync]; [|discriminate].
      destruct (horizon_after_sync t Hsync) as [H4 H0].
      specialize (IH a' (S t) state' score' false).
      destruct (episode_loop fuel a' (S t) state' score') as [r ev'].
      cbn [snd segments_ok app] in *; unfold T_MAX in *.
      repeat split; try lia.
      * intros Hlt; right; destruct first; [reflexivity|].
        specialize (Hex eq_refl); lia.
      * apply IH; [lia | intros _; lia].
  - pose proof (horizon_between_syncs t Hns) as Hn.
    specialize (IH a' (S t) state' score' first).
    destruct (episode_loop fuel a' (S t) state' score') as [r ev'].
    cbn [snd app] in *; apply IH; [lia | intros Hf; specialize (Hex Hf); lia].
Qed.

Lemma episode_segments (fuel : nat) (a : Agent F E) (t : nat) (b : bool) :
  segments_ok b (snd (episode fuel a t)).
Proof.
  unfold episode.
  destruct (env_reset E (env a)) as [e state].
  match goal with |- context [episode_loop fuel ?x t state 0] =>
    pose proof (episode_loop_segments fuel x t state 0 true) as H;
    destruct (episode_loop fuel x t state 0) as [r ev] end.
  cbn [snd segments_ok] in *; split; [reflexivity|].
  apply H; [simpl; lia | discriminate].
Qed.

Lemma segments_ok_app (b : bool) (ev1 ev2 : list Event) :
  segments_ok b ev1 -> (forall b', segments_ok b' ev2) ->
  segments_ok b (ev1 ++ ev2).
Proof.
  revert b; induction ev1 as [|e ev1 IH]; intros b H1 H2; [apply H2|].
  destruct e; cbn [app segments_ok] in *; intuition.
Qed.

Lemma run_loop_segments (n_games : Z) (fuel : nat) :
  forall (a : Agent F E) (t : nat) (b : bool),
    segments_ok b (snd (run_loop n_games fuel a t)).
Proof.
  induction fuel as [|fuel IH]; intros a t b; [exact I|].
  cbn [run_loop].
  destruct (episode_idx (observe a) <? n_games)%Z; [|exact I].
  pose proof (episode_segments fuel (observe a) t b) as He.
  destruct (episode fuel (observe a) t) as [[[[a1 t'] score]| |] ev];
    cbn [snd] in *; try exact He.
  specialize (IH (end_episode a1 score) t').
  destruct (run_loop n_games fuel (end_episode a1 score) t') as [r ev'].
  cbn [snd] in *.
  apply segments_ok_app; [exact He|].
  intros b'; cbn [app segments_ok]; apply IH.
Qed.

Lemma segments_ok_sync (pre : list Event) :
  forall (b : bool) (n : nat) (d : bool) (k : nat) (post : list Event),
    segments_ok b (pre ++ EvSync n d k :: post) ->
    (1 <= n <= T_MAX)%nat
    /\ k = 0%nat
    /\ ((n < T_MAX)%nat ->
        d = true \/ (pre = [] /\ b = true)
        \/ exists pre', pre = pre' ++ [EvEpisodeStart 0]).
Proof.
  induction pre as [|e pre IH]; intros b n d k post H.
  - cbn [app segments_ok] in H. intuition.
  - assert (G : exists b', segments_ok b' (pre ++ EvSync n d k :: post)
                 /\ (b' = true -> e = EvEpisodeStart 0)).
    { destruct e; cbn [app segments_ok] in H.
      - destruct H as [-> H]; exists true; auto.
      - exists false; split; [tauto | discriminate].
      - exists false; split; [tauto | discriminate].
      - exists false; split; [tauto | discriminate].
      - exists false; split; [tauto | discriminate]. }
    destruct G as [b' [G1 G2]].
    destruct (IH b' n d k post G1) as [Hn [Hk Hf]].
    split; [exact Hn|]; split; [exact Hk|].
    intros Hlt; destruct (Hf Hlt) as [Hd | [[-> Hb] | [pre' ->]]].
    + now left.
    + right; right; exists []; now rewrite (G2 Hb).
    + right; right; exists (e :: pre'); reflexivity.
Qed.

Lemma segments_ok_start (tr : list Event) :
  forall (b : bool) (k : nat),
    segments_ok b tr -> In (EvEpisodeStart k) tr -> k = 0%nat.
Proof.
  induction tr as [|e tr IH]; intros b k H Hin; [contradiction|].
  destruct Hin as [-> | Hin].
  - cbn [segments_ok] in H; tauto.
  - destruct e; cbn [segments_ok] in H.
    + destruct H as [_ H]; exact (IH _ _ H Hin).
    + destruct H as [_ [_ [_ H]]]; exact (IH _ _ H Hin).
    + exact (IH _ _ H Hin).
    + exact (IH _ _ H Hin).
    + exact (IH _ _ H Hin).
Qed.

(** C4, as the code has it: a synchronization point sees between one and
    [T_MAX] buffered steps and leaves the buffer empty, as does line 155 at
    the start of an episode; it sees fewer than [T_MAX] steps only when the
    episode is done or when it is the first of its episode, the event just
    before it being the episode's start ([t_step] runs on across episodes). *)
Theorem segment_lengths (n_games : Z) (fuel : nat) (a : Agent F E)
    (pre : list Event) (n : nat) (d : bool) (k : nat) (post : list Event) :
  snd (run_with n_games fuel a) = pre ++ EvSync n d k :: post ->
  (1 <= n <= T_MAX)%nat
  /\ k = 0%nat
  /\ ((n < T_MAX)%nat ->
      d = true \/ exists pre', pre = pre' ++ [EvEpisodeStart 0])
  /\ (forall k', In (EvEpisodeStart k') (snd (run_with n_games fuel a)) ->
        k' = 0%nat).
Proof.
  intros H.
  pose proof (run_loop_segments n_games fuel a 1 false) as Hs.
  fold (run_with n_games fuel a) in Hs.
  split; [|split; [|split]].
  - rewrite H in Hs; now apply segments_ok_sync in Hs.
  - rewrite H in Hs; now apply segments_ok_sync in Hs.
  - intros Hlt; rewrite H in Hs.
    apply segments_ok_sync in Hs; destruct Hs as [_ [_ Hs]].
    destruct (Hs Hlt) as [Hd | [[_ Hb] | Hp]]; [now left | discriminate | now right].
  - intros k' Hin; exact (segments_ok_start _ _ _ Hs Hin).
Qed.

(** ** The counter is read between episodes only *)

Lemma synchronize_frame (a a' : Agent F E) (done : bool) :
  synchronize a done = Some a' ->
  episode_idx a' = episode_idx a /\ global_rewards a' = global_rewards a.
Proof.
  unfold synchronize.
  destruct (calc_loss (local_actor_critic a) done); [|discriminate].
  intros H; inversion H; subst; clear H.
  unfold do_pull, do_step, do_push_grad, do_backward, do_zero_grad.
  destruct (zero_grad _ _ _) as [s1 st1]; cbn.
  destruct (accumulate_grad _ _ _) as [s2 st2]; cbn.
  destruct (adam_step _ _ _ _) as [o sd]; cbn. auto.
Qed.

Lemma synchronize_counter_blind (a : Agent F E) (z : Z) (done : bool) :
  synchronize (set_episode_idx a z) done
  = match synchronize a done with
    | Some a' => Some (set_episode_idx a' z)
    | None => None
    end.
Proof.
  unfold synchronize; cbn.
  destruct (calc_loss (local_actor_critic a) done); [|reflexivity].
  unfold do_pull, do_step, do_push_grad, do_backward, do_zero_grad; cbn.
  destruct (zero_grad _ _ _) as [s1 st1]; cbn.
  destruct (accumulate_grad _ _ _) as [s2 st2]; cbn.
  destruct (adam_step _ _ _ _) as [o sd]; cbn. reflexivity.
Qed.

Lemma step_body_frame (a : Agent F E) (t : nat) (state : State) (score : R) :
  forall a' t' state' score' done ev,
    step_body a t state score = (Finished (a', t', state', score', done), ev) ->
    episode_idx a' = episode_idx a
    /\ global_rewards a' = global_rewards a
    /\ Forall is_sync ev.
Proof.
  intros a' t' state' score' done ev; unfold step_body.
  destruct (choose_action (local_actor_critic a) (env a) state)
    as [[e1 action]|]; [|discriminate].
  destruct (env_step E e1 action) as [e2 [[next_state reward] d]].
  destruct (Nat.eqb (t mod T_MAX) 0 || d).
  - destruct (synchronize _ d) as [a2|] eqn:Hs; [|discriminate].
    intros H; inversion H; subst; clear H.
    destruct (synchronize_frame _ _ _ Hs) as [H1 H2].
    rewrite H1, H2; repeat split; repeat constructor.
  - intros H; inversion H; subst; clear H; repeat split; constructor.
Qed.

Lemma step_body_counter_blind (a : Agent F E) (z : Z) (t : nat) (state : State)
    (score : R) :
  step_body (set_episode_idx a z) t state score
  = match step_body a t state score with
    | (Finished (a', t', state', score', done), ev) =>
        (Finished (set_episode_idx a' z, t', state', score', done), ev)
    | other => other
    end.
Proof.
  unfold step_body.
  change (local_actor_critic (set_episode_idx a z)) with (local_actor_critic a).
  change (env (set_episode_idx a z)) with (env a).
  destruct (choose_action (local_actor_critic a) (env a) state)
    as [[e1 action]|]; [|reflexivity].
  destruct (env_step E e1 action) as [e2 [[next_state reward] d]].
  destruct (Nat.eqb (t mod T_MAX) 0 || d); [|reflexivity].
  match goal with |- context [set_local (set_env (set_episode_idx a z) e2) ?m] =>
    change (set_local (set_env (set_episode_idx a z) e2) m)
      with (set_episode_idx (set_local (set_env a e2) m) z) end.
  rewrite synchronize_counter_blind.
  destruct (synchronize _ d); reflexivity.
Qed.

Lemma episode_loop_frame (fuel : nat) :
  forall (a : Agent F E) t state score a' t' score' ev,
    episode_loop fuel a t state score = (Finished (a', t', score'), ev) ->
    episode_idx a' = episode_idx a
    /\ global_rewards a' = global_rewards a
    /\ Forall is_sync ev.
Proof.
  induction fuel as [|fuel IH]; intros a t state score a' t' score' ev;
    [discriminate|].
  cbn [episode_loop].
  pose proof (step_body_frame a t state score) as Hf.
  destruct (step_body a t state score)
    as [[[[[[a1 t1] state1] score1] done]| |] ev1]; try discriminate.
  destruct (Hf _ _ _ _ _ _ eq_refl) as [H1 [H2 H3]].
  destruct done.
  - intros H; inversion H; subst; auto.
  - specialize (IH a1 t1 state1 score1).
    destruct (episode_loop fuel a1 t1 state1 score1) as [r ev2].
    intros H; inversion H; subst; clear H.
    destruct (IH _ _ _ _ eq_refl) as [G1 [G2 G3]].
    rewrite G1, G2; repeat split; auto.
    apply Forall_app; auto.
Qed.

Lemma episode_loop_counter_blind (fuel : nat) :
  forall (a : Agent F E) (z : Z) t state score,
    episode_loop fuel (set_episode_idx a z) t state score
    = with_counter z (episode_loop fuel a t state score).
Proof.
  induction fuel as [|fuel IH]; intros a z t state score; [reflexivity|].
  cbn [episode_loop]; rewrite step_body_counter_blind.
  destruct (step_body a t state score)
    as [[[[[[a1 t1] state1] score1] done]| |] ev1]; try reflexivity.
  destruct done; [reflexivity|].
  rewrite IH.
  destruct (episode_loop fuel a1 t1 state1 score1)
    as [[[[a2 t2] score2]| |] ev2]; reflexivity.
Qed.

Lemma episode_loop_mono (fuel : nat) :
  forall (a : Agent F E) t state score x ev (more : nat),
    episode_loop fuel a t state score = (Finished x, ev) ->
    episode_loop (fuel + more) a t state score = (Finished x, ev).
Proof.
  induction fuel as [|fuel IH]; intros a t state score x ev more;
    [discriminate|].
  cbn [episode_loop Nat.add].
  destruct (step_body a t state score)
    as [[[[[[a1 t1] state1] score1] done]| |] ev1]; try discriminate.
  destruct done; [auto|].
  specialize (IH a1 t1 state1 score1).
  destruct (episode_loop fuel a1 t1 state1 score1) as [[y| |] ev2];
    try discriminate.
  intros H; inversion H; subst; clear H.
  now rewrite (IH _ _ more eq_refl).
Qed.

Lemma observe_frame (a : Agent F E) :
  global_rewards (observe a) = global_rewards a
  /\ local_actor_critic (observe a) = local_actor_critic a.
Proof.
  unfold observe; destruct (others E (env a)) as [e k]; auto.
Qed.

Lemma observe_alone (a : Agent F E) :
  (forall e, snd (others E e) = 0%nat) ->
  episode_idx (observe a) = wrap_int (episode_idx a).
Proof.
  intros H; unfold observe; specialize (H (env a)).
  destruct (others E (env a)) as [e k]; simpl in *; subst k.
  now rewrite Z.add_0_r.
Qed.

Lemma episode_frame (fuel : nat) (a : Agent F E) (t : nat) :
  forall a' t' score ev,
    episode fuel a t = (Finished (a', t', score), ev) ->
    episode_idx a' = episode_idx a
    /\ global_rewards a' = global_rewards a
    /\ exists syncs, ev = EvEpisodeStart 0 :: syncs /\ Forall is_sync syncs.
Proof.
  intros a' t' score ev; unfold episode.
  destruct (env_reset E (env a)) as [e state].
  match goal with |- context [episode_loop fuel ?x t state 0] =>
    pose proof (episode_loop_frame fuel x t state 0) as Hf;
    destruct (episode_loop fuel x t state 0) as [r ev0] end.
  intros H; inversion H; subst; clear H.
  destruct (Hf _ _ _ _ eq_refl) as [H1 [H2 H3]].
  rewrite H1, H2; repeat split; eauto.
Qed.

Lemma episode_counter_blind (fuel : nat) (a : Agent F E) (z : Z) (t : nat) :
  episode fuel (set_episode_idx a z) t = with_counter z (episode fuel a t).
Proof.
  unfold episode.
  change (env (set_episode_idx a z)) with (env a).
  destruct (env_reset E (env a)) as [e state].
  change (set_local (set_env (set_episode_idx a z) e)
            (clear_memory (local_actor_critic (set_episode_idx a z))))
    with (set_episode_idx
            (set_local (set_env a e) (clear_memory (local_actor_critic a))) z).
  rewrite episode_loop_counter_blind.
  destruct (episode_loop fuel _ t state 0) as [[[[a2 t2] score2]| |] ev2];
    reflexivity.
Qed.

Lemma episode_mono (fuel : nat) (a : Agent F E) (t : nat) x ev (more : nat) :
  episode fuel a t = (Finished x, ev) ->
  episode (fuel + more) a t = (Finished x, ev).
Proof.
  unfold episode.
  destruct (env_reset E (env a)) as [e state].
  match goal with |- context [episode_loop fuel ?y t state 0] =>
    pose proof (episode_loop_mono fuel y t state 0) as Hm;
    destruct (episode_loop fuel y t state 0) as [[z| |] ev0] end;
    try discriminate.
  intros H; inversion H; subst; clear H.
  now rewrite (Hm _ _ more eq_refl).
Qed.

Lemma episode_needs_fuel (a : Agent F E) (t : nat) x ev :
  episode 0 a t <> (Finished x, ev).
Proof.
  unfold episode; destruct (env_reset E (env a)) as [e state]; discriminate.
Qed.

Lemma run_loop_last_episode (n_games : Z) (fuel : nat) (a : Agent F E)
    (t : nat) a1 t' score ev (more : nat) :
  (episode_idx (observe a) < n_games)%Z ->
  episode fuel (observe a) t = (Finished (a1, t', score), ev) ->
  (n_games <= episode_idx (observe (end_episode a1 score)))%Z ->
  run_loop n_games (S (fuel + more)) a t
  = (Finished (observe (end_episode a1 score)),
     ev ++ [EvIncrement (episode_idx (observe a1))
              (episode_idx (end_episode a1 score));
            EvLog score; EvExit]).
Proof.
  intros Hlt He Hge.
  cbn [run_loop].
  destruct (Z.ltb_spec (episode_idx (observe a)) n_games) as [_|]; [|lia].
  rewrite (episode_mono _ _ _ _ _ more He).
  destruct fuel as [|fuel]; [exfalso; exact (episode_needs_fuel _ _ _ _ He)|].
  cbn [Nat.add run_loop].
  destruct (Z.ltb_spec (episode_idx (observe (end_episode a1 score))) n_games)
    as [|_]; [lia|].
  reflexivity.
Qed.

Lemma single_worker_limit_one (fuel : nat) (a : Agent F E) a1 t' score ev
    (more : nat) :
  (forall e, snd (others E e) = 0%nat) ->
  episode_idx a = 0%Z ->
  episode fuel (observe a) 1 = (Finished (a1, t', score), ev) ->
  exists af syncs,
    run_with 1 (S (fuel + more)) a
    = (Finished af,
       EvEpisodeStart 0 :: syncs ++ [EvIncrement 0 1; EvLog score; EvExit])
    /\ Forall is_sync syncs
    /\ episode_idx af = 1%Z
    /\ global_rewards af = global_rewards a ++ [score].
Proof.
  intros Hal H0 He.
  destruct (episode_frame _ _ _ _ _ _ _ He) as [Hi [Hr [syncs [-> Hs]]]].
  assert (Ha : episode_idx (observe a) = 0%Z)
    by (rewrite (observe_alone a Hal), H0; reflexivity).
  assert (Hb : episode_idx (observe a1) = 0%Z)
    by (rewrite (observe_alone a1 Hal), Hi, Ha; reflexivity).
  assert (Hc : episode_idx (end_episode a1 score) = 1%Z)
    by (unfold end_episode; cbn [episode_idx]; rewrite Hb; reflexivity).
  assert (Hd : episode_idx (observe (end_episode a1 score)) = 1%Z)
    by (rewrite (observe_alone _ Hal), Hc; reflexivity).
  exists (observe (end_episode a1 score)), syncs.
  unfold run_with.
  rewrite (run_loop_last_episode 1 fuel a 1 a1 t' score
             (EvEpisodeStart 0 :: syncs) more); try lia; [|exact He].
  rewrite Hb, Hc; split; [reflexivity|].
  split; [exact Hs|]; split; [exact Hd|].
  destruct (observe_frame (end_episode a1 score)) as [-> _].
  unfold end_episode; cbn [global_rewards].
  destruct (observe_frame a1) as [-> _].
  destruct (observe_frame a) as [G _].
  now rewrite Hr, G.
Qed.

(** C7: the counter is read at the loop test only.  An episode runs the
    same whatever the counter holds and leaves it alone; a worker whose
    episode is under way completes it, adds one to the counter, appends one
    score to its log and stops at the next test if the counter has reached
    the limit by then, the trace ending in exactly that increment, that log
    entry and the exit.  With limit 1, counter 0 and no other worker, the
    run is one episode, the increment from 0 to 1 and the exit. *)
Theorem counter_read_between_episodes :
  (forall n_games fuel (a : Agent F E) t a1 t' score ev more,
      (episode_idx (observe a) < n_games)%Z ->
      episode fuel (observe a) t = (Finished (a1, t', score), ev) ->
      (n_games <= episode_idx (observe (end_episode a1 score)))%Z ->
      run_loop n_games (S (fuel + more)) a t
      = (Finished (observe (end_episode a1 score)),
         ev ++ [EvIncrement (episode_idx (observe a1))
                  (episode_idx (end_episode a1 score));
                EvLog score; EvExit])
      /\ episode_idx (end_episode a1 score)
         = wrap_int (episode_idx (observe a1) + 1)
      /\ global_rewards (observe (end_episode a1 score))
         = global_rewards a ++ [score]
      /\ episode_idx a1 = episode_idx (observe a)
      /\ (forall z, episode fuel (set_episode_idx (observe a) z) t
                    = with_counter z (episode fuel (observe a) t)))
  /\ (forall fuel (a : Agent F E) a1 t' score ev more,
         (forall e, snd (others E e) = 0%nat) ->
         episode_idx a = 0%Z ->
         episode fuel (observe a) 1 = (Finished (a1, t', score), ev) ->
         exists af syncs,
           run_with 1 (S (fuel + more)) a
           = (Finished af,
              EvEpisodeStart 0 :: syncs
              ++ [EvIncrement 0 1; EvLog score; EvExit])
           /\ Forall is_sync syncs
           /\ episode_idx af = 1%Z
           /\ global_rewards af = global_rewards a ++ [score]).
Proof.
  split.
  - intros n_games fuel a t a1 t' score ev more Hlt He Hge.
    destruct (episode_frame _ _ _ _ _ _ _ He) as [Hi [Hr _]].
    split; [exact (run_loop_last_episode n_games fuel a t a1 t' score ev more
                     Hlt He Hge)|].
    split; [reflexivity|].
    split; [|split; [exact Hi | intros z; apply episode_counter_blind]].
    destruct (observe_frame (end_episode a1 score)) as [-> _].
    unfold end_episode; cbn [global_rewards].
    destruct (observe_frame a1) as [-> _].
    destruct (observe_frame a) as [G _].
    now rewrite Hr, G.
  - intros fuel a a1 t' score ev more Hal H0 He.
    exact (single_worker_limit_one fuel a a1 t' score ev more Hal H0 He).
Qed.

End WorkerFacts.

(** ** The small instance at work *)

Example demo_run_trace :
  snd (run_with 2 20 demo_agent)
  = [EvEpisodeStart 0; EvSync 5 false 0; EvSync 5 false 0; EvSync 2 true 0;
     EvIncrement 0 1;
     EvLog (0 + 1 + 1 + 1 + 1 + 1 + 1 + 1 + 1 + 1 + 1 + 1 + 1);
     EvEpisodeStart 0; EvSync 3 false 0; EvSync 1 true 0; EvIncrement 1 2;
     EvLog (0 + 1 + 1 + 1 + 1); EvExit].
Proof. vm_compute; reflexivity. Qed.

Lemma segment_lengths_witness :
  (1 <= 3 <= T_MAX)%nat
  /\ 0%nat = 0%nat
  /\ ((3 < T_MAX)%nat ->
      false = true
      \/ exists pre',
          [EvEpisodeStart 0; EvSync 5 false 0; EvSync 5 false 0;
           EvSync 2 true 0; EvIncrement 0 1;
           EvLog (0 + 1 + 1 + 1 + 1 + 1 + 1 + 1 + 1 + 1 + 1 + 1 + 1);
           EvEpisodeStart 0]
          = pre' ++ [EvEpisodeStart 0])
  /\ (forall k', In (EvEpisodeStart k') (snd (run_with 2 20 demo_agent)) ->
        k' = 0%nat).
Proof.
  apply (segment_lengths demo_framework demo_environment 2 20 demo_agent
           [EvEpisodeStart 0; EvSync 5 false 0; EvSync 5 false 0;
            EvSync 2 true 0; EvIncrement 0 1;
            EvLog (0 + 1 + 1 + 1 + 1 + 1 + 1 + 1 + 1 + 1 + 1 + 1 + 1);
            EvEpisodeStart 0]
           3 false 0
           [EvSync 1 true 0; EvIncrement 1 2; EvLog (0 + 1 + 1 + 1 + 1);
            EvExit]).
  vm_compute; reflexivity.
Defined.

(** The first episode of the run above takes twelve steps, so the second
    starts at [t_step = 13]; its first synchronization point comes at
    [t_step = 15] with three buffered steps and the episode not done. *)
Lemma short_segment_in_running_episode :
  ~ segment_claim (snd (run_with 2 20 demo_agent)).
Proof.
  intros [H _].
  destruct (H 3%nat false 0%nat) as [_ [Hd _]].
  - rewrite demo_run_trace; simpl; auto 10.
  - assert (Hlt : (3 < T_MAX)%nat) by (unfold T_MAX; lia).
    specialize (Hd Hlt); discriminate.
Qed.

(** ** The pull among the writes of other workers *)











Lemma counter_read_between_episodes_witness :
  exists a1 t' score ev af syncs,
    episode 12 (observe demo_agent) 1 = (Finished (a1, t', score), ev)
    /\ run_with 1 (S (12 + 0)) demo_agent
       = (Finished af,
          EvEpisodeStart 0 :: syncs ++ [EvIncrement 0 1; EvLog score; EvExit])
    /\ Forall is_sync syncs
    /\ episode_idx af = 1%Z
    /\ global_rewards af = global_rewards demo_agent ++ [score].
Proof.
  destruct (episode 12 (observe demo_agent) 1) as [[[[a1 t'] score]| |] ev] eqn:He.
  - destruct (proj2 (counter_read_between_episodes demo_framework
                       demo_environment)
                12%nat demo_agent a1 t' score ev 0%nat
                (fun _ => eq_refl) eq_refl He) as [af [syncs H]].
    exists a1, t', score, ev, af, syncs; split; [reflexivity | exact H].
  - vm_compute in He; discriminate.
  - vm_compute in He; discriminate.
Defined.

(** ** The counter under the workers' loops *)

Module PoolFacts.

Import Pool.

Lemma owes_range (w : Worker) : (0 <= owes w <= 1)%Z.
Proof. destruct w; simpl; lia. Qed.

Lemma owed_bounds (l : list Worker) : (0 <= owed l <= Z.of_nat (length l))%Z.
Proof.
  induction l as [|w tl IH]; simpl length; simpl owed; [lia|].
  pose proof (owes_range w); lia.
Qed.

Lemma owed_set (l : list Worker) (i : nat) (old x : Worker) :
  nth_error l i = Some old ->
  (owed (list_set l i x) = owed l - owes old + owes x)%Z.
Proof.
  revert i; induction l as [|h tl IH]; intros i H.
  - destruct i; discriminate.
  - destruct i; simpl in *.
    + inversion H; subst; lia.
    + rewrite (IH _ H); lia.
Qed.

Lemma owed_member (l : list Worker) (i : nat) (w : Worker) :
  nth_error l i = Some w -> (owes w <= owed l)%Z.
Proof.
  revert i; induction l as [|h tl IH]; intros i H.
  - destruct i; discriminate.
  - destruct i; simpl in *.
    + inversion H; subst; pose proof (owed_bounds tl); lia.
    + specialize (IH _ H); pose proof (owes_range h); lia.
Qed.

Lemma start_lock_ok (W : nat) : lock_ok (start W).
Proof.
  intros i w Hi; simpl in *.
  apply nth_error_In, repeat_spec in Hi; subst; discriminate.
Qed.

(** A worker other than the one that moved: its condition follows from
    the one it had, given what the lock was ([Hlk]). *)
Ltac other_worker Hl Hi Hne Hlk :=
  rewrite nth_error_list_set_neq in Hi by exact Hne;
  match type of Hi with nth_error _ ?i = Some ?w =>
    specialize (Hl i w Hi); destruct w end;
  rewrite ?Hlk in *; intuition congruence.

(** One move of any worker keeps the lock discipline. *)
Lemma pool_step_lock_ok (n_games : Z) (tid : nat) (s : Shared) :
  lock_ok s -> lock_ok (step n_games tid s).
Proof.
  intros Hl; unfold step.
  destruct (nth_error (workers s) tid) as [w|] eqn:Ht; [|exact Hl].
  assert (Hlt : (tid < length (workers s))%nat)
    by (apply nth_error_Some; congruence).
  pose proof (Hl tid w Ht) as Hown.
  destruct w as [| | | |tmp| |]; cbn [lock value workers] in Hown; try exact Hl.
  - destruct (lock s) as [owner|] eqn:Hlock; [exact Hl|].
    intros i w Hi; cbn [workers lock value] in Hi |- *.
    destruct (Nat.eq_dec tid i) as [<-|Hne].
    + rewrite nth_error_list_set_eq in Hi by exact Hlt.
      inversion Hi; subst; destruct (value s <? n_games)%Z; discriminate.
    + other_worker Hl Hi Hne Hlock.
  - intros i w Hi; cbn [workers lock value] in Hi |- *.
    destruct (Nat.eq_dec tid i) as [<-|Hne].
    + rewrite nth_error_list_set_eq in Hi by exact Hlt.
      inversion Hi; subst; exact Hown.
    + rewrite nth_error_list_set_neq in Hi by exact Hne.
      exact (Hl i w Hi).
  - destruct (lock s) as [owner|] eqn:Hlock; [exact Hl|].
    intros i w Hi; cbn [workers lock value] in Hi |- *.
    destruct (Nat.eq_dec tid i) as [<-|Hne].
    + rewrite nth_error_list_set_eq in Hi by exact Hlt.
      inversion Hi; subst; reflexivity.
    + other_worker Hl Hi Hne Hlock.
  - intros i w Hi; cbn [workers lock value] in Hi |- *.
    destruct (Nat.eq_dec tid i) as [<-|Hne].
    + rewrite nth_error_list_set_eq in Hi by exact Hlt.
      inversion Hi; subst; auto.
    + rewrite nth_error_list_set_neq in Hi by exact Hne.
      exact (Hl i w Hi).
  - destruct Hown as [Hown ->].
    intros i w Hi; cbn [workers lock value] in Hi |- *.
    destruct (Nat.eq_dec tid i) as [<-|Hne].
    + rewrite nth_error_list_set_eq in Hi by exact Hlt.
      inversion Hi; subst; exact Hown.
    + other_worker Hl Hi Hne Hown.
  - intros i w Hi; cbn [workers lock value] in Hi |- *.
    destruct (Nat.eq_dec tid i) as [<-|Hne].
    + rewrite nth_error_list_set_eq in Hi by exact Hlt.
      inversion Hi; subst; discriminate.
    + other_worker Hl Hi Hne Hown.
Qed.

(** A move leaves value and owed increments alone, or passes the test with
    the value below the limit and owes one more, or writes the value plus
    one and owes one less. *)
Lemma pool_step_effect (n_games : Z) (tid : nat) (s : Shared) :
  lock_ok s ->
  (value (step n_games tid s) = value s
   /\ owed (workers (step n_games tid s)) = owed (workers s))
  \/ (value (step n_games tid s) = value s
      /\ (value s < n_games)%Z
      /\ owed (workers (step n_games tid s)) = (owed (workers s) + 1)%Z)
  \/ (value (step n_games tid s) = wrap_int (value s + 1)
      /\ owed (workers (step n_games tid s)) = (owed (workers s) - 1)%Z
      /\ (1 <= owed (workers s))%Z).
Proof.
  intros Hl; unfold step.
  destruct (nth_error (workers s) tid) as [w|] eqn:Ht; [|now left].
  pose proof (Hl tid w Ht) as Hown.
  pose proof (owed_member _ _ _ Ht) as Hmem.
  destruct w as [| | | |tmp| |]; cbn [workers lock value].
  - destruct (lock s); [now left|]; cbn [workers lock value].
    destruct (Z.ltb_spec (value s) n_games).
    + right; left; repeat split; auto.
      rewrite (owed_set _ _ _ _ Ht); simpl; lia.
    + left; split; auto.
      rewrite (owed_set _ _ _ _ Ht); simpl; lia.
  - left; split; auto. rewrite (owed_set _ _ _ _ Ht); simpl; lia.
  - destruct (lock s); cbn [workers lock value]; left; split; auto.
    rewrite (owed_set _ _ _ _ Ht); simpl; lia.
  - left; split; auto. rewrite (owed_set _ _ _ _ Ht); simpl; lia.
  - destruct Hown as [_ ->]; right; right.
    rewrite (owed_set _ _ _ _ Ht); simpl in *; repeat split; lia.
  - left; split; auto. rewrite (owed_set _ _ _ _ Ht); simpl; lia.
  - now left.
Qed.

Lemma step_length (n_games : Z) (tid : nat) (s : Shared) :
  length (workers (step n_games tid s)) = length (workers s).
Proof.
  unfold step.
  destruct (nth_error (workers s) tid) as [[| | | |tmp| |]|]; try reflexivity;
    try (destruct (lock s)); cbn [workers]; try reflexivity;
    apply list_set_length.
Qed.

(** With [bound] at least the limit minus one plus the number of workers,
    and no more than the largest C int, the value plus the owed increments
    stays within [bound], so nothing wraps and the value never goes down. *)
Lemma exec_bounded (n_games bound : Z) (sched : list nat) :
  forall s,
    lock_ok s -> (INT_MIN <= value s)%Z ->
    (value s + owed (workers s) <= bound)%Z ->
    (n_games - 1 + Z.of_nat (length (workers s)) <= bound)%Z ->
    (bound <= INT_MAX)%Z ->
    lock_ok (exec n_games sched s)
    /\ (value s <= value (exec n_games sched s))%Z
    /\ (value (exec n_games sched s) + owed (workers (exec n_games sched s))
        <= bound)%Z
    /\ length (workers (exec n_games sched s)) = length (workers s).
Proof.
  induction sched as [|tid sched IH]; intros s Hl Hmin Hsum Hn Hmax;
    [repeat split; [exact Hl | simpl; lia | exact Hsum]|].
  pose proof (pool_step_lock_ok n_games tid s Hl) as Hl'.
  pose proof (step_length n_games tid s) as Hlen.
  pose proof (owed_bounds (workers s)) as Hb.
  pose proof (owed_bounds (workers (step n_games tid s))) as Hb'.
  assert (Hs : (value s <= value (step n_games tid s))%Z
               /\ (value (step n_games tid s)
                   + owed (workers (step n_games tid s)) <= bound)%Z).
  { destruct (pool_step_effect n_games tid s Hl)
      as [[Hv Ho] | [[Hv [Hlt Ho]] | [Hv [Ho H1]]]].
    - rewrite Hv, Ho; lia.
    - rewrite Hv; split; [lia|]. rewrite Hlen in Hb'; lia.
    - rewrite Hv, Ho.
      rewrite wrap_int_small by (unfold INT_MIN, INT_MAX in *; lia); lia. }
  destruct Hs as [Hle Hsum'].
  destruct (IH (step n_games tid s) Hl') as [H1 [H2 [H3 H4]]]; try lia.
  cbn [exec fold_left] in *; unfold exec in *.
  split; [exact H1|]; split; [lia|]; split; [exact H3 | lia].
Qed.

Lemma pool_exec_app (n_games : Z) (sched more : list nat) (s : Shared) :
  exec n_games (sched ++ more) s = exec n_games more (exec n_games sched s).
Proof. unfold exec; apply fold_left_app. Qed.

(** The program's counter: from 0, under [W] workers and any schedule, it
    never goes down and stays within the limit minus one plus [W]. *)
Lemma pool_counter (n_games : Z) (W : nat) (sched more : list nat) :
  (n_games - 1 + Z.of_nat W <= INT_MAX)%Z ->
  (0 <= value (exec n_games sched (start W))
   <= Z.max 0 (n_games - 1 + Z.of_nat W))%Z
  /\ (value (exec n_games sched (start W))
      <= value (exec n_games (sched ++ more) (start W)))%Z.
Proof.
  intros Hmax.
  assert (Hlen : length (workers (start W)) = W) by apply repeat_length.
  assert (Ho : owed (workers (start W)) = 0%Z).
  { simpl; induction W as [|W IH]; simpl; [reflexivity|].
    rewrite IH; [reflexivity | lia | apply repeat_length]. }
  assert (HM : (Z.max 0 (n_games - 1 + Z.of_nat W) <= INT_MAX)%Z)
    by (unfold INT_MAX in *; lia).
  assert (H0 : (INT_MIN <= value (start W))%Z) by (unfold INT_MIN; simpl; lia).
  assert (H1 : (value (start W) + owed (workers (start W))
                <= Z.max 0 (n_games - 1 + Z.of_nat W))%Z)
    by (rewrite Ho; simpl; lia).
  assert (H2 : (n_games - 1 + Z.of_nat (length (workers (start W)))
                <= Z.max 0 (n_games - 1 + Z.of_nat W))%Z)
    by (rewrite Hlen; lia).
  destruct (exec_bounded n_games (Z.max 0 (n_games - 1 + Z.of_nat W)) sched
              (start W) (start_lock_ok W) H0 H1 H2 HM)
    as [Hl [Hle [Hsum Hl2]]].
  pose proof (owed_bounds (workers (exec n_games sched (start W)))) as Hb.
  split; [simpl in Hle; lia|].
  rewrite pool_exec_app.
  apply (exec_bounded n_games (Z.max 0 (n_games - 1 + Z.of_nat W)) more
           (exec n_games sched (start W)) Hl).
  - unfold INT_MIN; simpl in Hle; lia.
  - exact Hsum.
  - rewrite Hl2, Hlen; lia.
  - exact HM.
Qed.

End PoolFacts.

(** ** The shared episode counter *)

Module CounterFacts.

Import Counter.

Lemma pending_nonneg (th : Thread) : (0 <= pending th)%Z.
Proof. destruct th; simpl; lia. Qed.

Lemma pending_all_nonneg (l : list Thread) : (0 <= pending_all l)%Z.
Proof.
  induction l as [|th tl IH]; simpl; [lia|].
  pose proof (pending_nonneg th); lia.
Qed.

Lemma pending_all_set (l : list Thread) (i : nat) (old x : Thread) :
  nth_error l i = Some old ->
  (pending_all (list_set l i x) = pending_all l - pending old + pending x)%Z.
Proof.
  revert i; induction l as [|h tl IH]; intros i H.
  - destruct i; discriminate.
  - destruct i; simpl in *.
    + inversion H; subst; lia.
    + rewrite (IH _ H); lia.
Qed.

Lemma pending_all_member (l : list Thread) (i : nat) (th : Thread) :
  nth_error l i = Some th -> (pending th <= pending_all l)%Z.
Proof.
  revert i; induction l as [|h tl IH]; intros i H.
  - destruct i; discriminate.
  - destruct i; simpl in *.
    + inversion H; subst; pose proof (pending_all_nonneg tl); lia.
    + specialize (IH _ H); pose proof (pending_nonneg h); lia.
Qed.

Lemma pending_all_initial (ks : list nat) : pending_all (map Idle ks) = total ks.
Proof.
  unfold total; induction ks as [|k tl IH]; simpl; [reflexivity|].
  rewrite IH; lia.
Qed.

Lemma pending_all_done (l : list Thread) :
  forallb finished l = true -> pending_all l = 0%Z.
Proof.
  induction l as [|th tl IH]; simpl; intros H; [reflexivity|].
  apply andb_true_iff in H; destruct H as [H1 H2].
  rewrite (IH H2); destruct th as [[|k]| | |]; simpl in *; try discriminate; lia.
Qed.

Lemma total_repeat (N : nat) : total (repeat 1%nat N) = Z.of_nat N.
Proof.
  unfold total; f_equal; induction N as [|N IH]; simpl; [reflexivity | now rewrite IH].
Qed.

Lemma initial_lock_ok (init : Z) (ks : list nat) : lock_ok (initial init ks).
Proof.
  intros i th Hi; simpl in *.
  apply nth_error_In, in_map_iff in Hi; destruct Hi as [k [<- _]].
  discriminate.
Qed.

(** One move of any worker keeps the lock discipline. *)
Lemma step_lock_ok (tid : nat) (s : Shared) : lock_ok s -> lock_ok (step tid s).
Proof.
  intros Hl; unfold step.
  destruct (nth_error (threads s) tid) as [th|] eqn:Ht; [|exact Hl].
  assert (Hlt : (tid < length (threads s))%nat)
    by (apply nth_error_Some; congruence).
  pose proof (Hl tid th Ht) as Hown.
  destruct th as [[|k]|k|k tmp|k].
  - exact Hl.
  - destruct (lock s) as [owner|] eqn:Hlock; [exact Hl|].
    intros i th Hi; cbn [threads lock value] in Hi |- *.
    destruct (Nat.eq_dec tid i) as [<-|Hne].
    + rewrite nth_error_list_set_eq in Hi by exact Hlt.
      inversion Hi; subst; split; [reflexivity | lia].
    + rewrite nth_error_list_set_neq in Hi by exact Hne.
      specialize (Hl i th Hi); rewrite Hlock in Hl.
      destruct th; [congruence | ..]; destruct Hl; discriminate.
  - destruct Hown as [Hown Hk].
    intros i th Hi; cbn [threads lock value] in Hi |- *.
    destruct (Nat.eq_dec tid i) as [<-|Hne].
    + rewrite nth_error_list_set_eq in Hi by exact Hlt.
      inversion Hi; subst; auto.
    + rewrite nth_error_list_set_neq in Hi by exact Hne.
      exact (Hl i th Hi).
  - destruct Hown as [Hown [-> Hk]].
    intros i th Hi; cbn [threads lock value] in Hi |- *.
    destruct (Nat.eq_dec tid i) as [<-|Hne].
    + rewrite nth_error_list_set_eq in Hi by exact Hlt.
      inversion Hi; subst; auto.
    + rewrite nth_error_list_set_neq in Hi by exact Hne.
      specialize (Hl i th Hi); rewrite Hown in Hl |- *.
      destruct th; [exact Hl | ..];
        exfalso; apply Hne; destruct Hl as [Hl _]; congruence.
  - destruct Hown as [Hown Hk].
    intros i th Hi; cbn [threads lock value] in Hi |- *.
    destruct (Nat.eq_dec tid i) as [<-|Hne].
    + rewrite nth_error_list_set_eq in Hi by exact Hlt.
      inversion Hi; subst; discriminate.
    + rewrite nth_error_list_set_neq in Hi by exact Hne.
      specialize (Hl i th Hi); rewrite Hown in Hl.
      destruct th; [discriminate | ..];
        exfalso; apply Hne; destruct Hl as [Hl _]; congruence.
Qed.

(** A move either leaves the value and the pending increments as they are,
    or writes the value plus one (in C int arithmetic) and takes one
    increment off the pending ones: the worker that writes holds the lock,
    so what it read is still the value. *)
Lemma step_effect (tid : nat) (s : Shared) :
  lock_ok s ->
  (value (step tid s) = value s
   /\ pending_all (threads (step tid s)) = pending_all (threads s))
  \/ (value (step tid s) = wrap_int (value s + 1)
      /\ pending_all (threads (step tid s)) = (pending_all (threads s) - 1)%Z
      /\ (1 <= pending_all (threads s))%Z).
Proof.
  intros Hl; unfold step.
  destruct (nth_error (threads s) tid) as [th|] eqn:Ht; [|now left].
  pose proof (Hl tid th Ht) as Hown.
  pose proof (pending_all_member _ _ _ Ht) as Hmem.
  destruct th as [[|k]|k|k tmp|k]; cbn [threads lock value].
  - now left.
  - destruct (lock s); cbn [threads lock value]; left; split; auto.
    rewrite (pending_all_set _ _ _ _ Ht); simpl; lia.
  - left; split; auto.
    rewrite (pending_all_set _ _ _ _ Ht); simpl; lia.
  - destruct Hown as [_ [-> Hk]]; right.
    rewrite (pending_all_set _ _ _ _ Ht); simpl in *; repeat split; lia.
  - destruct Hown as [_ Hk]; left; split; auto.
    rewrite (pending_all_set _ _ _ _ Ht); simpl; lia.
Qed.

(** Along any schedule the lock discipline holds, the value stays a C int,
    and value plus pending increments is constant modulo the int's range. *)
Lemma exec_wrapped (sched : list nat) :
  forall s, lock_ok s -> (INT_MIN <= value s <= INT_MAX)%Z ->
    lock_ok (exec sched s)
    /\ (INT_MIN <= value (exec sched s) <= INT_MAX)%Z
    /\ wrap_int (value (exec sched s) + pending_all (threads (exec sched s)))
       = wrap_int (value s + pending_all (threads s)).
Proof.
  induction sched as [|tid sched IH]; intros s Hl Hr; [auto|].
  pose proof (step_lock_ok tid s Hl) as Hl'.
  assert (Hr' : (INT_MIN <= value (step tid s) <= INT_MAX)%Z).
  { destruct (step_effect tid s Hl) as [[-> _] | [-> _]];
      [exact Hr | apply wrap_int_range]. }
  destruct (IH (step tid s) Hl' Hr') as [H1 [H2 H3]].
  split; [exact H1|]; split; [exact H2|].
  cbn [exec fold_left] in *; unfold exec in *; rewrite H3.
  destruct (step_effect tid s Hl) as [[-> ->] | [-> [-> _]]]; [reflexivity|].
  rewrite wrap_int_add; f_equal; lia.
Qed.

(** When the goal fits a C int, nothing wraps: the sum is constant and the
    value does not go down. *)
Lemma exec_exact (sched : list nat) :
  forall s, lock_ok s -> (INT_MIN <= value s)%Z ->
    (value s + pending_all (threads s) <= INT_MAX)%Z ->
    lock_ok (exec sched s)
    /\ (value s <= value (exec sched s))%Z
    /\ (value (exec sched s) + pending_all (threads (exec sched s))
        = value s + pending_all (threads s))%Z.
Proof.
  induction sched as [|tid sched IH]; intros s Hl Hmin Hmax;
    [repeat split; [exact Hl | simpl; lia]|].
  pose proof (step_lock_ok tid s Hl) as Hl'.
  pose proof (pending_all_nonneg (threads s)) as Hp.
  assert (Hs : (value s <= value (step tid s))%Z
               /\ (value (step tid s) + pending_all (threads (step tid s))
                   = value s + pending_all (threads s))%Z).
  { destruct (step_effect tid s Hl) as [[-> ->] | [-> [-> H1]]]; [lia|].
    rewrite wrap_int_small by (unfold INT_MIN, INT_MAX in *; lia); lia. }
  destruct Hs as [Hle Hsum].
  destruct (IH (step tid s) Hl') as [H1 [H2 H3]]; try lia.
  cbn [exec fold_left] in *; unfold exec in *.
  split; [exact H1|]; split; lia.
Qed.

Lemma exec_app (sched more : list nat) (s : Shared) :
  exec (sched ++ more) s = exec more (exec sched s).
Proof. unfold exec; apply fold_left_app. Qed.

Lemma exec_value (init : Z) (ks sched : list nat) :
  (INT_MIN <= init)%Z -> (init + total ks <= INT_MAX)%Z ->
  (forall more,
      (value (exec sched (initial init ks))
       <= value (exec (sched ++ more) (initial init ks)))%Z)
  /\ (all_done (exec sched (initial init ks)) = true ->
      value (exec sched (initial init ks)) = (init + total ks)%Z).
Proof.
  intros Hmin Hmax.
  pose proof (initial_lock_ok init ks) as Hl0.
  assert (Hs0 : (value (initial init ks) + pending_all (threads (initial init ks))
                 = init + total ks)%Z)
    by (simpl; now rewrite pending_all_initial).
  destruct (exec_exact sched (initial init ks) Hl0) as [Hl [Hle Hsum]];
    [exact Hmin | lia |].
  split.
  - intros more; rewrite exec_app.
    pose proof (pending_all_nonneg (threads (exec sched (initial init ks)))).
    apply (exec_exact more (exec sched (initial init ks)) Hl); simpl in *; lia.
  - intros Hd; unfold all_done in Hd.
    rewrite (pending_all_done _ Hd) in Hsum; lia.
Qed.

Lemma exec_value_wrapped (init : Z) (ks sched : list nat) :
  (INT_MIN <= init <= INT_MAX)%Z ->
  all_done (exec sched (initial init ks)) = true ->
  value (exec sched (initial init ks)) = wrap_int (init + total ks).
Proof.
  intros Hr Hd.
  destruct (exec_wrapped sched (initial init ks) (initial_lock_ok init ks) Hr)
    as [_ [Hv Hsum]].
  unfold all_done in Hd; rewrite (pending_all_done _ Hd), Z.add_0_r in Hsum.
  rewrite wrap_int_small in Hsum by exact Hv.
  rewrite Hsum; simpl; now rewrite pending_all_initial.
Qed.

(** The four moves of one increment, undisturbed. *)
Lemma solo_round (s : Shared) (tid k : nat) :
  nth_error (threads s) tid = Some (Idle (S k)) -> lock s = None ->
  step tid (step tid (step tid (step tid s)))
  = mkShared (wrap_int (value s + 1)) None (list_set (threads s) tid (Idle k)).
Proof.
  intros Ht Hl.
  assert (Hlt : (tid < length (threads s))%nat)
    by (apply nth_error_Some; congruence).
  assert (E1 : step tid s
               = mkShared (value s) (Some tid)
                   (list_set (threads s) tid (Holding (S k))))
    by (unfold step; now rewrite Ht, Hl).
  rewrite E1; clear E1.
  assert (E2 : step tid (mkShared (value s) (Some tid)
                           (list_set (threads s) tid (Holding (S k))))
               = mkShared (value s) (Some tid)
                   (list_set (threads s) tid (Loaded (S k) (value s)))).
  { unfold step; cbn [threads lock value].
    rewrite nth_error_list_set_eq by exact Hlt.
    now rewrite list_set_twice. }
  rewrite E2; clear E2.
  assert (E3 : step tid (mkShared (value s) (Some tid)
                           (list_set (threads s) tid (Loaded (S k) (value s))))
               = mkShared (wrap_int (value s + 1)) (Some tid)
                   (list_set (threads s) tid (Stored (S k)))).
  { unfold step; cbn [threads lock value].
    rewrite nth_error_list_set_eq by exact Hlt.
    now rewrite list_set_twice. }
  rewrite E3; clear E3.
  unfold step; cbn [threads lock value].
  rewrite nth_error_list_set_eq by exact Hlt.
  now rewrite list_set_twice.
Qed.

(** A worker that runs alone through its increments ends with nothing left
    to do and the lock free. *)
Lemma solo_finishes (k : nat) :
  forall (s : Shared) (tid : nat),
    nth_error (threads s) tid = Some (Idle k) -> lock s = None ->
    threads (exec (solo tid k) s) = list_set (threads s) tid (Idle 0)
    /\ lock (exec (solo tid k) s) = None.
Proof.
  induction k as [|k IH]; intros s tid Ht Hl.
  - simpl; split; [symmetry; now apply list_set_same | exact Hl].
  - assert (Hlt : (tid < length (threads s))%nat)
      by (apply nth_error_Some; congruence).
    unfold exec; cbn [solo fold_left].
    rewrite (solo_round s tid k Ht Hl).
    fold (exec (solo tid k)
            (mkShared (wrap_int (value s + 1)) None
               (list_set (threads s) tid (Idle k)))).
    destruct (IH (mkShared (wrap_int (value s + 1)) None
                    (list_set (threads s) tid (Idle k))) tid) as [H1 H2].
    + cbn [threads]; now apply nth_error_list_set_eq.
    + reflexivity.
    + rewrite H1, H2; cbn [threads]; now rewrite list_set_twice.
Qed.

Lemma sequential_finishes (ks : list nat) :
  forall (s : Shared) (pre : list Thread),
    threads s = pre ++ map Idle ks -> forallb finished pre = true ->
    lock s = None ->
    all_done (exec (sequential (length pre) ks) s) = true.
Proof.
  induction ks as [|k tl IH]; intros s pre Ht Hp Hl.
  - unfold all_done; simpl in *; now rewrite Ht, app_nil_r.
  - cbn [sequential]; rewrite exec_app.
    destruct (solo_finishes k s (length pre)) as [H1 H2]; [|exact Hl|].
    { rewrite Ht; cbn [map].
      rewrite nth_error_app2, Nat.sub_diag by lia; reflexivity. }
    replace (S (length pre)) with (length (pre ++ [Idle 0]))
      by (rewrite length_app; simpl; lia).
    apply IH; [|rewrite forallb_app, Hp; reflexivity | exact H2].
    rewrite H1, Ht; cbn [map].
    now rewrite list_set_middle, <- app_assoc.
Qed.

(** C3: the shared counter never goes down and no update is lost.
    In the program (counter created at 0, [W] workers looping on the test
    against [N_GAMES], any schedule) the counter is non-decreasing and stays
    within [N_GAMES - 1 + W], which fits its C int for any real number of
    workers.  For workers that each perform a number of locked increments,
    under any interleaving: the counter is non-decreasing and, once all have
    finished, holds the initial value plus the number of increments (for [N]
    workers with one increment each, plus [N]) when that sum fits the C int,
    and the sum wrapped to the int in any case; some interleaving does let
    all workers finish.  Two workers with 1000 increments each leave a
    counter started at 0 at 2000. *)
Theorem no_lost_updates :
  (forall W sched more,
      (N_GAMES - 1 + Z.of_nat W <= INT_MAX)%Z ->
      (0 <= Pool.value (Pool.exec N_GAMES sched (Pool.start W))
       <= N_GAMES - 1 + Z.of_nat W)%Z
      /\ (Pool.value (Pool.exec N_GAMES sched (Pool.start W))
          <= Pool.value (Pool.exec N_GAMES (sched ++ more) (Pool.start W)))%Z)
  /\ (forall init ks sched,
         (INT_MIN <= init)%Z -> (init + total ks <= INT_MAX)%Z ->
         (forall more,
             (value (exec sched (initial init ks))
              <= value (exec (sched ++ more) (initial init ks)))%Z)
         /\ (all_done (exec sched (initial init ks)) = true ->
             value (exec sched (initial init ks)) = (init + total ks)%Z))
  /\ (forall init N sched,
         (INT_MIN <= init)%Z -> (init + Z.of_nat N <= INT_MAX)%Z ->
         all_done (exec sched (initial init (repeat 1%nat N))) = true ->
         value (exec sched (initial init (repeat 1%nat N)))
         = (init + Z.of_nat N)%Z)
  /\ (forall init ks sched,
         (INT_MIN <= init <= INT_MAX)%Z ->
         all_done (exec sched (initial init ks)) = true ->
         value (exec sched (initial init ks)) = wrap_int (init + total ks))
  /\ (forall init ks,
         all_done (exec (sequential 0 ks) (initial init ks)) = true)
  /\ (forall sched,
         all_done (exec sched (initial 0 [1000; 1000]%nat)) = true ->
         value (exec sched (initial 0 [1000; 1000]%nat)) = 2000%Z).
Proof.
  split; [|split; [|split; [|split; [|split]]]].
  - intros W sched more Hmax.
    destruct (PoolFacts.pool_counter N_GAMES W sched more Hmax) as [H1 H2].
    split; [|exact H2].
    unfold N_GAMES in *; lia.
  - intros init ks sched Hmin Hmax.
    exact (exec_value init ks sched Hmin Hmax).
  - intros init N sched Hmin Hmax Hd.
    rewrite <- total_repeat in *.
    now apply (exec_value init (repeat 1%nat N) sched Hmin Hmax).
  - intros init ks sched Hr Hd; now apply exec_value_wrapped.
  - intros init ks.
    apply (sequential_finishes ks (initial init ks) []); reflexivity.
  - intros sched Hd.
    assert (Hmin : (INT_MIN <= 0)%Z) by (unfold INT_MIN; lia).
    assert (Hmax : (0 + total [1000; 1000]%nat <= INT_MAX)%Z)
      by (unfold INT_MAX; vm_compute; discriminate).
    destruct (exec_value 0 [1000; 1000]%nat sched Hmin Hmax) as [_ H].
    rewrite (H Hd); reflexivity.
Qed.

Lemma no_lost_updates_witness :
  value (exec (sequential 0 [1000; 1000]%nat) (initial 0 [1000; 1000]%nat))
  = 2000%Z.
Proof.
  apply (proj2 (proj2 (proj2 (proj2 (proj2 no_lost_updates))))).
  vm_compute; reflexivity.
Defined.

End CounterFacts.

(** * Further properties of the code *)

(** ** Returns as discounted sums *)

Lemma Rsum_scale (g : R) (l : list R) :
  Rsum (map (fun x => g * x) l) = g * Rsum l.
Proof.
  induction l as [|x l IH]; [unfold Rsum; simpl; lra|].
  change (g * x + Rsum (map (fun x => g * x) l) = g * (x + Rsum l)).
  rewrite IH; lra.
Qed.

Lemma discounted_cons (g r R0 : R) (rs : list R) :
  discounted g (r :: rs) R0 = r + g * discounted g rs R0.
Proof.
  unfold discounted; cbn [length seq map nth].
  rewrite <- seq_shift, map_map; cbn [nth].
  replace (map (fun k => g ^ S k * nth k rs 0) (seq 0 (length rs)))
    with (map (fun x => g * x)
            (map (fun k => g ^ k * nth k rs 0) (seq 0 (length rs)))).
  - rewrite Rsum_cons, Rsum_scale; cbn [pow]; lra.
  - rewrite map_map; apply map_ext; intros k; simpl; lra.
Qed.

Lemma returns_from_head (g R0 : R) (rs : list R) :
  hd R0 (returns_from g rs R0) = discounted g rs R0.
Proof.
  induction rs as [|r tl IH].
  - unfold discounted; simpl; lra.
  - cbn [returns_from hd]; rewrite IH, discounted_cons; reflexivity.
Qed.

Lemma returns_from_nth (g R0 : R) (rs : list R) (t : nat) :
  (t < length rs)%nat ->
  nth t (returns_from g rs R0) 0 = discounted g (skipn t rs) R0.
Proof.
  revert t; induction rs as [|r tl IH]; intros t Ht; simpl in Ht; [lia|].
  destruct t as [|t].
  - cbn [skipn returns_from nth].
    rewrite returns_from_head, discounted_cons; reflexivity.
  - cbn [skipn returns_from nth]; apply IH; lia.
Qed.

(** X1: The return of step [t] is the discounted sum of the rewards from [t]
    on, continued by the bootstrap value:
    [R_t = r_t + gamma r_(t+1) + ... + gamma^(L-1-t) r_(L-1)
           + gamma^(L-t) bootstrap]. *)
Theorem calc_R_discounted_sum (m : ActorCritic) (done : bool) (L : nat) :
  length (rewards m) = L -> (1 <= L)%nat -> balanced m -> shapes_ok m ->
  exists Rs b,
    calc_R m done = Some Rs
    /\ bootstrap m done = Some b
    /\ forall t, (t < L)%nat ->
         nth t Rs 0 = discounted (gamma m) (skipn t (rewards m)) b.
Proof.
  intros HL Hpos Hbal [Hs Hns].
  destruct (balanced_nonempty m Hbal) as [Hne0 Hne]; [lia|].
  destruct (bootstrap_defined m done Hne Hns) as [pi [v [x [_ [_ Hb]]]]].
  exists (returns_from (gamma m) (rewards m) (x * IZR (1 - Z.b2z done))),
         (x * IZR (1 - Z.b2z done)).
  split; [now apply calc_R_returns_from|].
  split; [exact Hb|].
  intros t Ht; apply returns_from_nth; lia.
Qed.

Lemma calc_R_discounted_sum_witness :
  exists Rs b,
    calc_R demo_five false = Some Rs
    /\ bootstrap demo_five false = Some b
    /\ forall t, (t < 5)%nat ->
         nth t Rs 0 = discounted (gamma demo_five) (skipn t (rewards demo_five)) b.
Proof.
  apply (calc_R_discounted_sum demo_five false 5).
  - reflexivity.
  - lia.
  - unfold balanced; simpl; auto.
  - split; intros s Hs; simpl in Hs;
      repeat (destruct Hs as [<- | Hs]; [cbv; discriminate|]); contradiction.
Defined.

(** ** Bounded returns *)




(** ** The log-probabilities [calc_loss] takes *)


(** ** The shapes [forward] accepts *)

Lemma Linear_forward_accepts (l : Linear) (n_in n_out : nat) (x : list R) :
  Linear_shape l n_in n_out -> length x = n_in ->
  exists y, Linear_forward l x = Some y /\ length y = n_out.
Proof.
  intros [Hw [Hb Hrows]] Hx; unfold Linear_forward.
  assert (H1 : forallb (fun row => Nat.eqb (length row) (length x)) (weight l)
               = true).
  { apply forallb_forall; intros row Hr; apply Nat.eqb_eq.
    rewrite Hx; exact (proj1 (Forall_forall _ _) Hrows row Hr). }
  rewrite H1, Hw, Hb, Nat.eqb_refl; cbn [andb].
  eexists; split; [reflexivity|].
  rewrite length_map, length_combine, Hw, Hb; lia.
Qed.

Lemma Linear_forward_rejects (l : Linear) (n_in n_out : nat) (x : list R) :
  Linear_shape l n_in n_out -> (1 <= n_out)%nat -> length x <> n_in ->
  Linear_forward l x = None.
Proof.
  intros [Hw [Hb Hrows]] Hpos Hx; unfold Linear_forward.
  destruct (weight l) as [|row rows] eqn:E; [simpl in Hw; lia|].
  inversion Hrows; subst.
  cbn [forallb].
  destruct (Nat.eqb_spec (length row) (length x)) as [Heq|_]; [|reflexivity].
  exfalso; apply Hx; congruence.
Qed.

Lemma relu_length (x : list R) : length (relu x) = length x.
Proof. unfold relu; apply length_map. Qed.

Lemma forward_built (input_dim n_actions : nat) (m : ActorCritic)
    (state : State) :
  built_by_init input_dim n_actions m -> length state = input_dim ->
  exists logits v,
    forward m state = Some (logits, v) /\ length logits = n_actions.
Proof.
  intros [Hp1 [Hp2 [Hv1 Hv2]]] Hs; unfold forward.
  destruct (Linear_forward_accepts _ _ _ state Hp1 Hs) as [h [-> Hh]].
  destruct (Linear_forward_accepts _ _ _ (relu h) Hp2) as [p [-> Hpl]];
    [now rewrite relu_length|].
  destruct (Linear_forward_accepts _ _ _ state Hv1 Hs) as [h' [-> Hh']].
  destruct (Linear_forward_accepts _ _ _ (relu h') Hv2) as [v [-> Hvl]];
    [now rewrite relu_length|].
  destruct v as [|v0 [|v1 v]]; simpl in Hvl; try lia.
  cbn [item]; eauto.
Qed.

(** X4: A module with the layer shapes of [__init__] accepts exactly the states
    of [input_dim] numbers, and answers them with one logit per action and
    one value. *)
Theorem forward_accepts_input_dim (input_dim n_actions : nat)
    (m : ActorCritic) (state : State) :
  built_by_init input_dim n_actions m ->
  (length state = input_dim ->
   exists logits v,
     forward m state = Some (logits, v) /\ length logits = n_actions)
  /\ (length state <> input_dim -> forward m state = None).
Proof.
  intros Hb; split; intros Hs.
  - exact (forward_built _ _ _ _ Hb Hs).
  - destruct Hb as [Hp1 _]; unfold forward.
    rewrite (Linear_forward_rejects _ _ _ state Hp1);
      [reflexivity | lia | exact Hs].
Qed.

Lemma wide_model_built : built_by_init 1 2 wide_model.
Proof.
  unfold built_by_init, Linear_shape, wide_model, ActorCritic_init;
    cbn [policy_l1 policy_l2 value_l1 value_l2 weight bias].
  rewrite !repeat_length.
  repeat split; apply Forall_forall; intros row Hr;
    apply repeat_spec in Hr; subst row; try apply repeat_length; reflexivity.
Qed.

Lemma forward_accepts_input_dim_witness :
  (exists logits v,
      forward wide_model [3] = Some (logits, v) /\ length logits = 2%nat)
  /\ forward wide_model [3; 4] = None.
Proof.
  split.
  - apply (proj1 (forward_accepts_input_dim 1 2 wide_model [3] wide_model_built)).
    reflexivity.
  - apply (proj2 (forward_accepts_input_dim 1 2 wide_model [3; 4]
                    wide_model_built)).
    simpl; lia.
Defined.

(** ** What the buffers hold *)

(** X5: After any run of [remember] calls the four buffers hold, in order, the
    four components of the transitions remembered, after what they held
    before: position [t] of each buffer belongs to one and the same
    transition. *)
Theorem remember_all_aligned (m : ActorCritic) (trs : list Transition) :
  states (remember_all m trs)
  = states m ++ map (fun tr => fst (fst (fst tr))) trs
  /\ actions (remember_all m trs)
     = actions m ++ map (fun tr => snd (fst (fst tr))) trs
  /\ rewards (remember_all m trs)
     = rewards m ++ map (fun tr => snd (fst tr)) trs
  /\ next_states (remember_all m trs)
     = next_states m ++ map (fun tr => snd tr) trs
  /\ (forall t s a r s',
        nth_error trs t = Some (s, a, r, s') ->
        nth_error (states (remember_all (clear_memory m) trs)) t = Some s
        /\ nth_error (actions (remember_all (clear_memory m) trs)) t = Some a
        /\ nth_error (rewards (remember_all (clear_memory m) trs)) t = Some r
        /\ nth_error (next_states (remember_all (clear_memory m) trs)) t
           = Some s').
Proof.
  assert (G : forall trs m,
             states (remember_all m trs)
             = states m ++ map (fun tr => fst (fst (fst tr))) trs
             /\ actions (remember_all m trs)
                = actions m ++ map (fun tr => snd (fst (fst tr))) trs
             /\ rewards (remember_all m trs)
                = rewards m ++ map (fun tr => snd (fst tr)) trs
             /\ next_states (remember_all m trs)
                = next_states m ++ map (fun tr => snd tr) trs).
  { clear; induction trs as [|[[[s a] r] s'] trs IH]; intros m.
    - simpl; now rewrite !app_nil_r.
    - unfold remember_all in *; cbn [fold_left].
      destruct (IH (remember m s a r s')) as [H1 [H2 [H3 H4]]].
      rewrite H1, H2, H3, H4; cbn [remember states actions rewards next_states
                                     map fst snd].
      now rewrite <- !app_assoc. }
  destruct (G trs m) as [H1 [H2 [H3 H4]]].
  split; [exact H1|]; split; [exact H2|]; split; [exact H3|];
    split; [exact H4|].
  intros t s a r s' Ht.
  destruct (G trs (clear_memory m)) as [K1 [K2 [K3 K4]]].
  rewrite K1, K2, K3, K4; cbn [clear_memory states actions rewards next_states app].
  repeat split.
  - now rewrite (map_nth_error _ _ _ Ht).
  - now rewrite (map_nth_error _ _ _ Ht).
  - now rewrite (map_nth_error _ _ _ Ht).
  - now rewrite (map_nth_error _ _ _ Ht).
Qed.

(** ** A finished episode *)

Lemma sync_total_app (ev1 ev2 : list Event) :
  sync_total (ev1 ++ ev2) = (sync_total ev1 + sync_total ev2)%nat.
Proof.
  induction ev1 as [|e tl IH]; [reflexivity|].
  destruct e; cbn [app sync_total]; rewrite IH; lia.
Qed.

Lemma count_app (p : Event -> bool) (ev1 ev2 : list Event) :
  count p (ev1 ++ ev2) = (count p ev1 + count p ev2)%nat.
Proof. unfold count; now rewrite filter_app, length_app. Qed.

Lemma logged_app (ev1 ev2 : list Event) :
  logged (ev1 ++ ev2) = logged ev1 ++ logged ev2.
Proof.
  induction ev1 as [|e tl IH]; [reflexivity|].
  destruct e; cbn [app logged]; rewrite IH; reflexivity.
Qed.

Lemma syncs_count (ev : list Event) :
  Forall is_sync ev ->
  count is_start ev = 0%nat /\ count is_increment ev = 0%nat
  /\ count is_log ev = 0%nat /\ logged ev = []
  /\ (forall b c, ~ In (EvIncrement b c) ev).
Proof.
  induction 1 as [|e tl He Htl IH]; [unfold count; simpl; tauto|].
  destruct e; try contradiction.
  destruct IH as [H1 [H2 [H3 [H4 H5]]]].
  unfold count in *; cbn [filter is_start is_increment is_log logged].
  repeat split; try assumption.
  intros b c [Hin|Hin]; [discriminate | exact (H5 b c Hin)].
Qed.

Section EpisodeFacts.

Variable F : Framework.
Variable E : Environment.

Lemma synchronize_pulls (a a' : Agent F E) (done : bool) :
  synchronize a done = Some a' ->
  state_dict (local_actor_critic a') = state_dict (global_actor_critic a')
  /\ clear_memory (local_actor_critic a') = local_actor_critic a'
  /\ states (local_actor_critic a') = []
  /\ actions (local_actor_critic a') = []
  /\ rewards (local_actor_critic a') = []
  /\ next_states (local_actor_critic a') = [].
Proof.
  unfold synchronize.
  destruct (calc_loss (local_actor_critic a) done); [|discriminate].
  intros H; inversion H; subst a'; clear H.
  unfold do_pull, do_step.
  match goal with
  | |- context [adam_step F ?o ?s ?g] => destruct (adam_step F o s g) as [o' sd]
  end.
  destruct sd; simpl; repeat split; reflexivity.
Qed.

Lemma step_body_last (a : Agent F E) (t : nat) (state : State) (score : R)
    a' t' state' score' ev :
  step_body a t state score = (Finished (a', t', state', score', true), ev) ->
  state_dict (local_actor_critic a') = state_dict (global_actor_critic a')
  /\ clear_memory (local_actor_critic a') = local_actor_critic a'
  /\ states (local_actor_critic a') = []
  /\ actions (local_actor_critic a') = []
  /\ rewards (local_actor_critic a') = []
  /\ next_states (local_actor_critic a') = [].
Proof.
  unfold step_body.
  destruct (choose_action (local_actor_critic a) (env a) state)
    as [[e1 action]|]; [|discriminate].
  destruct (env_step E e1 action) as [e2 [[next_state reward] done]].
  destruct (Nat.eqb (t mod T_MAX) 0 || done) eqn:Hc.
  - destruct (synchronize _ done) as [a2|] eqn:Hs; [|discriminate].
    intros H; inversion H; subst.
    exact (synchronize_pulls _ _ _ Hs).
  - intros H; inversion H; subst.
    rewrite Bool.orb_true_r in Hc; discriminate.
Qed.

(** What a finished run of the inner loop has done: it took at least one
    step, handed every buffered step to [calc_loss] exactly once, the last
    synchronization point is the only one with [done], and it leaves the
    buffers empty and the local parameters equal to the shared ones. *)
Lemma episode_loop_flush (fuel : nat) :
  forall (a : Agent F E) t state score a' t' score' ev,
    episode_loop fuel a t state score = (Finished (a', t', score'), ev) ->
    (t < t')%nat
    /\ sync_total ev
       = (length (states (local_actor_critic a)) + (t' - t))%nat
    /\ (exists pre n,
           ev = pre ++ [EvSync n true 0] /\ Forall is_running_sync pre)
    /\ state_dict (local_actor_critic a') = state_dict (global_actor_critic a')
    /\ clear_memory (local_actor_critic a') = local_actor_critic a'
    /\ states (local_actor_critic a') = []
    /\ actions (local_actor_critic a') = []
    /\ rewards (local_actor_critic a') = []
    /\ next_states (local_actor_critic a') = [].
Proof.
  induction fuel as [|fuel IH]; intros a t state score a' t' score' ev H;
    [discriminate|].
  cbn [episode_loop] in H.
  pose proof (step_body_cases F E a t state score) as Hc.
  destruct (step_body a t state score)
    as [[[[[[a1 t1] s1] sc1] d]| |] ev1] eqn:Hb; try discriminate.
  destruct Hc as [Ht1 Hc]; subst t1.
  destruct d.
  - inversion H; subst; clear H.
    destruct Hc as [[_ [Hev Hlen]] | [_ [Hd _]]]; [|discriminate].
    split; [lia|]; split.
    { rewrite Hev; cbn [sync_total]; lia. }
    split.
    { exists [], (S (length (states (local_actor_critic a)))); split;
        [exact Hev | constructor]. }
    exact (step_body_last _ _ _ _ _ _ _ _ _ Hb).
  - destruct (episode_loop fuel a1 (S t) s1 sc1) as [r ev'] eqn:Hl.
    inversion H; subst; clear H.
    destruct (IH _ _ _ _ _ _ _ _ Hl)
      as [Hlt [Hsum [[pre [n [Hev' Hpre]]] Hrest]]].
    split; [lia|]; split.
    { rewrite sync_total_app, Hsum.
      destruct Hc as [[_ [Hev Hlen]] | [_ [_ [Hev Hlen]]]]; rewrite Hev, Hlen;
        cbn [sync_total]; lia. }
    split; [|exact Hrest].
    destruct Hc as [[_ [Hev Hlen]] | [_ [_ [Hev Hlen]]]]; rewrite Hev, Hev'.
    + exists (EvSync (S (length (states (local_actor_critic a)))) false 0 :: pre), n.
      split; [reflexivity | constructor; [exact I | exact Hpre]].
    + exists pre, n; split; [reflexivity | exact Hpre].
Qed.

(** X6: An episode that ends has trained on every one of its steps exactly once:
    the sizes of the batches handed to [calc_loss] add up to the number of
    steps taken, the last batch is the only one computed with [done], and
    the episode has at least one step. *)
Theorem episode_trains_every_step (fuel : nat) (a : Agent F E) (t : nat)
    a' t' score ev :
  episode fuel a t = (Finished (a', t', score), ev) ->
  (t < t')%nat
  /\ sync_total ev = (t' - t)%nat
  /\ exists pre n,
       ev = EvEpisodeStart 0 :: pre ++ [EvSync n true 0]
       /\ Forall is_running_sync pre.
Proof.
  unfold episode.
  destruct (env_reset E (env a)) as [e state].
  destruct (episode_loop _ _ t state 0) as [r ev'] eqn:Hl.
  intros H; inversion H; subst; clear H.
  destruct (episode_loop_flush _ _ _ _ _ _ _ _ _ Hl)
    as [Hlt [Hsum [[pre [n [Hev Hpre]]] _]]].
  split; [exact Hlt|]; split.
  - cbn [sync_total]; rewrite Hsum; reflexivity.
  - exists pre, n; rewrite Hev; split; [reflexivity | exact Hpre].
Qed.

(** X7: When an episode ends the local module carries the shared parameters and
    empty buffers, and the increment and the log that follow leave it
    alone: from the second episode on the [clear_memory] of line 155 finds
    nothing to clear. *)
Theorem episode_ends_synchronized (fuel : nat) (a : Agent F E) (t : nat)
    a' t' score ev :
  episode fuel a t = (Finished (a', t', score), ev) ->
  state_dict (local_actor_critic a') = state_dict (global_actor_critic a')
  /\ states (local_actor_critic a') = []
  /\ actions (local_actor_critic a') = []
  /\ rewards (local_actor_critic a') = []
  /\ next_states (local_actor_critic a') = []
  /\ local_actor_critic (observe (end_episode a' score)) = local_actor_critic a'
  /\ clear_memory (local_actor_critic (observe (end_episode a' score)))
     = local_actor_critic (observe (end_episode a' score)).
Proof.
  unfold episode.
  destruct (env_reset E (env a)) as [e state].
  destruct (episode_loop _ _ t state 0) as [r ev'] eqn:Hl.
  intros H; inversion H; subst; clear H.
  destruct (episode_loop_flush _ _ _ _ _ _ _ _ _ Hl)
    as [_ [_ [_ [Hsd [Hclr [H1 [H2 [H3 H4]]]]]]]].
  assert (Hloc : local_actor_critic (observe (end_episode a' score))
                 = local_actor_critic a').
  { rewrite (proj2 (observe_frame F E _)).
    unfold end_episode; cbn [local_actor_critic].
    exact (proj2 (observe_frame F E _)). }
  rewrite Hloc; tauto.
Qed.

(** ** The outer loop *)

(** X8: A run that returns has started, counted and logged the same number of
    episodes; the log has grown by their scores, in order; every increment
    adds one to the value it read under the lock; and the counter the worker
    read last is at least the limit. *)
Theorem run_accounts (n_games : Z) (fuel : nat) :
  forall (a : Agent F E) (t : nat) af ev,
    run_loop n_games fuel a t = (Finished af, ev) ->
    count is_increment ev = count is_start ev
    /\ count is_log ev = count is_start ev
    /\ length (logged ev) = count is_start ev
    /\ global_rewards af = global_rewards a ++ logged ev
    /\ (n_games <= episode_idx af)%Z
    /\ (exists pre, ev = pre ++ [EvExit])
    /\ (forall b c, In (EvIncrement b c) ev -> c = wrap_int (b + 1)).
Proof.
  induction fuel as [|fuel IH]; intros a t af ev H; [discriminate|].
  cbn [run_loop] in H.
  destruct (Z.ltb_spec (episode_idx (observe a)) n_games) as [Hlt|Hge].
  - destruct (episode fuel (observe a) t) as [[[[a1 t'] score]| |] ev1] eqn:He;
      try discriminate.
    destruct (run_loop n_games fuel (end_episode a1 score) t') as [r ev'] eqn:Hr.
    inversion H; subst; clear H.
    destruct (IH _ _ _ _ Hr) as [I1 [I2 [I3 [I4 [I5 [[pre Hpre] I7]]]]]].
    destruct (episode_frame F E _ _ _ _ _ _ _ He)
      as [_ [Hrew [syncs [Hev1 Hsyncs]]]].
    destruct (syncs_count syncs Hsyncs) as [S1 [S2 [S3 [S4 S5]]]].
    subst ev1.
    change (EvEpisodeStart 0 :: syncs) with ([EvEpisodeStart 0] ++ syncs).
    rewrite !count_app, !logged_app, !length_app, S1, S2, S3, S4.
    unfold count in *; cbn [filter is_start is_increment is_log logged length app].
    split; [lia|]; split; [lia|]; split; [lia|]; split; [|split; [exact I5|split]].
    + rewrite I4; unfold end_episode; cbn [global_rewards].
      rewrite (proj1 (observe_frame F E _)), Hrew,
        (proj1 (observe_frame F E _)), <- app_assoc; reflexivity.
    + exists (([EvEpisodeStart 0] ++ syncs)
              ++ [EvIncrement (episode_idx (observe a1))
                    (episode_idx (end_episode a1 score)); EvLog score] ++ pre).
      rewrite Hpre, <- !app_assoc; reflexivity.
    + intros b c Hin.
      destruct Hin as [Hin|Hin]; [discriminate|].
      apply in_app_or in Hin; destruct Hin as [Hin|Hin];
        [exfalso; exact (S5 b c Hin)|].
      destruct Hin as [Hin|[Hin|Hin]]; [|discriminate|exact (I7 b c Hin)].
      inversion Hin; subst; reflexivity.
  - inversion H; subst; clear H.
    unfold count; cbn [filter is_start is_increment is_log logged length].
    repeat split; try reflexivity.
    + rewrite (proj1 (observe_frame F E _)), app_nil_r; reflexivity.
    + lia.
    + exists []; reflexivity.
    + intros b c [Hin|[]]; discriminate.
Qed.

(** X9: A worker that runs alone, from a counter [c] within the C int range and
    with a limit a C int can hold, plays [n_games - c] episodes when it
    returns (none if the counter is already at the limit) and leaves the
    counter at the limit. *)
Theorem lone_worker_episodes (n_games : Z) (fuel : nat) :
  forall (a : Agent F E) (t : nat) af ev,
    (forall e, snd (others E e) = 0%nat) ->
    (INT_MIN <= episode_idx a <= INT_MAX)%Z ->
    (n_games <= INT_MAX)%Z ->
    run_loop n_games fuel a t = (Finished af, ev) ->
    count is_start ev = Z.to_nat (n_games - episode_idx a)
    /\ episode_idx af = Z.max (episode_idx a) n_games.
Proof.
  induction fuel as [|fuel IH]; intros a t af ev Halone Hc Hn H; [discriminate|].
  cbn [run_loop] in H.
  pose proof (observe_alone F E a Halone) as Hobs.
  rewrite (wrap_int_small _ Hc) in Hobs.
  destruct (Z.ltb_spec (episode_idx (observe a)) n_games) as [Hlt|Hge].
  - destruct (episode fuel (observe a) t) as [[[[a1 t'] score]| |] ev1] eqn:He;
      try discriminate.
    destruct (run_loop n_games fuel (end_episode a1 score) t') as [r ev'] eqn:Hr.
    inversion H; subst; clear H.
    destruct (episode_frame F E _ _ _ _ _ _ _ He)
      as [Hidx [_ [syncs [Hev1 Hsyncs]]]].
    destruct (syncs_count syncs Hsyncs) as [S1 _].
    assert (Hnext : episode_idx (end_episode a1 score) = (episode_idx a + 1)%Z).
    { unfold end_episode; cbn [episode_idx].
      rewrite (observe_alone F E a1 Halone), Hidx, Hobs.
      rewrite (wrap_int_small _ Hc); apply wrap_int_small.
      unfold INT_MIN, INT_MAX in *; lia. }
    destruct (IH _ _ _ _ Halone
                ltac:(rewrite Hnext; unfold INT_MIN, INT_MAX in *; lia) Hn Hr)
      as [I1 I2].
    subst ev1; unfold count in *.
    cbn [app filter is_start]; rewrite filter_app.
    cbn [app filter is_start length]; rewrite ?length_app.
    rewrite S1, I1, I2, Hnext.
    split; lia.
  - inversion H; subst; clear H.
    unfold count; cbn [filter is_start length].
    rewrite Hobs; split; lia.
Qed.

End EpisodeFacts.

Lemma episode_trains_every_step_witness :
  exists a' t' score ev,
    episode 12 demo_agent 1 = (Finished (a', t', score), ev)
    /\ (1 < t')%nat
    /\ sync_total ev = (t' - 1)%nat.
Proof.
  destruct (episode 12 demo_agent 1) as [[[[a' t'] score]| |] ev] eqn:He.
  - destruct (episode_trains_every_step demo_framework demo_environment
                12 demo_agent 1 a' t' score ev He) as [H1 [H2 _]].
    exists a', t', score, ev; repeat split; assumption.
  - vm_compute in He; discriminate.
  - vm_compute in He; discriminate.
Defined.

Lemma episode_ends_synchronized_witness :
  exists a' t' score ev,
    episode 12 demo_agent 1 = (Finished (a', t', score), ev)
    /\ state_dict (local_actor_critic a') = state_dict (global_actor_critic a')
    /\ states (local_actor_critic a') = [].
Proof.
  destruct (episode 12 demo_agent 1) as [[[[a' t'] score]| |] ev] eqn:He.
  - destruct (episode_ends_synchronized demo_framework demo_environment
                12 demo_agent 1 a' t' score ev He) as [H1 [H2 _]].
    exists a', t', score, ev; repeat split; assumption.
  - vm_compute in He; discriminate.
  - vm_compute in He; discriminate.
Defined.

Lemma run_accounts_witness :
  exists af ev,
    run_with 2 20 demo_agent = (Finished af, ev)
    /\ count is_increment ev = count is_start ev
    /\ global_rewards af = global_rewards demo_agent ++ logged ev
    /\ (2 <= episode_idx af)%Z.
Proof.
  unfold run_with.
  destruct (run_loop 2 20 demo_agent 1) as [[af| |] ev] eqn:Hr.
  - destruct (run_accounts demo_framework demo_environment 2 20 demo_agent 1
                af ev Hr) as [H1 [_ [_ [H4 [H5 _]]]]].
    exists af, ev; repeat split; assumption.
  - vm_compute in Hr; discriminate.
  - vm_compute in Hr; discriminate.
Defined.

Lemma lone_worker_episodes_witness :
  exists af ev,
    run_with 2 20 demo_agent = (Finished af, ev)
    /\ count is_start ev = 2%nat
    /\ episode_idx af = 2%Z.
Proof.
  unfold run_with.
  destruct (run_loop 2 20 demo_agent 1) as [[af| |] ev] eqn:Hr.
  - destruct (lone_worker_episodes demo_framework demo_environment 2 20
                demo_agent 1 af ev (fun _ => eq_refl)
                ltac:(vm_compute; split; discriminate)
                ltac:(vm_compute; discriminate) Hr) as [H1 H2].
    exists af, ev; repeat split; assumption.
  - vm_compute in Hr; discriminate.
  - vm_compute in Hr; discriminate.
Defined.

(** ** The pool of workers around the counter and its lock *)

Module PoolStateFacts.

Import Pool PoolState PoolFacts.

Lemma exec_lock_ok (n_games : Z) (sched : list nat) :
  forall s, lock_ok s -> lock_ok (exec n_games sched s).
Proof.
  induction sched as [|tid tl IH]; intros s H; [exact H|].
  exact (IH _ (pool_step_lock_ok n_games tid s H)).
Qed.

Lemma start_lock_owned (W : nat) : lock_owned (start W).
Proof. intros i H; discriminate. Qed.

Lemma step_lock_owned (n_games : Z) (tid : nat) (s : Shared) :
  lock_ok s -> lock_owned s -> lock_owned (step n_games tid s).
Proof.
  intros Hl Ho; unfold step.
  destruct (nth_error (workers s) tid) as [w|] eqn:Ht; [|exact Ho].
  assert (Hlt : (tid < length (workers s))%nat)
    by (apply nth_error_Some; congruence).
  pose proof (Hl tid w Ht) as Hown.
  destruct w as [| | | |tmp| |]; cbn [lock value workers] in Hown; try exact Ho.
  - destruct (lock s) eqn:Hlock; [exact Ho|].
    intros i Hi; discriminate.
  - intros i Hi; cbn [lock workers] in *.
    destruct (Ho i Hi) as [w [Hw Hb]].
    exists w; split; [|exact Hb].
    rewrite nth_error_list_set_neq; [exact Hw|].
    intros ->; rewrite Ht in Hw; inversion Hw; subst; discriminate.
  - destruct (lock s) eqn:Hlock; [exact Ho|].
    intros i Hi; cbn [lock workers] in *; inversion Hi; subst i.
    exists Holding; split; [now apply nth_error_list_set_eq | reflexivity].
  - intros i Hi; cbn [lock workers] in *.
    rewrite Hown in Hi; inversion Hi; subst i.
    exists (Loaded (value s)); split;
      [now apply nth_error_list_set_eq | reflexivity].
  - destruct Hown as [Hown _].
    intros i Hi; cbn [lock workers] in *.
    rewrite Hown in Hi; inversion Hi; subst i.
    exists Stored; split; [now apply nth_error_list_set_eq | reflexivity].
  - intros i Hi; discriminate.
Qed.

Lemma exec_lock_owned (n_games : Z) (sched : list nat) :
  forall s, lock_ok s -> lock_owned s -> lock_owned (exec n_games sched s).
Proof.
  induction sched as [|tid tl IH]; intros s Hl Ho; [exact Ho|].
  exact (IH _ (pool_step_lock_ok n_games tid s Hl)
           (step_lock_owned n_games tid s Hl Ho)).
Qed.

Lemma step_other (n_games : Z) (tid i : nat) (s : Shared) :
  tid <> i ->
  nth_error (workers (step n_games tid s)) i = nth_error (workers s) i.
Proof.
  intros Hne; unfold step.
  destruct (nth_error (workers s) tid) as [w|]; [|reflexivity].
  destruct w; try destruct (lock s); try destruct (value s <? n_games)%Z;
    cbn [workers]; rewrite ?nth_error_list_set_neq by exact Hne; reflexivity.
Qed.

Lemma step_exited (n_games : Z) (tid : nat) (s : Shared) :
  (value s <= value (step n_games tid s))%Z ->
  (forall i, nth_error (workers s) i = Some Exited -> (n_games <= value s)%Z) ->
  forall i, nth_error (workers (step n_games tid s)) i = Some Exited ->
            (n_games <= value (step n_games tid s))%Z.
Proof.
  intros Hle Hex i Hi.
  destruct (Nat.eq_dec tid i) as [<-|Hne].
  - destruct (nth_error (workers s) tid) as [w|] eqn:Ht.
    + assert (Hlt : (tid < length (workers s))%nat)
        by (apply nth_error_Some; congruence).
      revert Hle Hi; unfold step; rewrite Ht.
      destruct w; try destruct (lock s);
        cbn [workers value];
        rewrite ?nth_error_list_set_eq by exact Hlt;
        try (intros _ Hi; congruence).
      * destruct (Z.ltb_spec (value s) n_games); intros _ Hi;
          [discriminate | lia].
      * intros _ _; exact (Hex tid Ht).
      * intros _ _; exact (Hex tid Ht).
    + revert Hi; unfold step; rewrite Ht; intros Hi; congruence.
  - rewrite step_other in Hi by exact Hne.
    specialize (Hex i Hi); lia.
Qed.

(** One move changes the counter plus the increments owed by the episodes
    begun with it. *)
Lemma step_begun (n_games bound : Z) (tid : nat) (s : Shared) :
  lock_ok s -> (INT_MIN <= value s)%Z ->
  (value s + owed (workers s) <= bound)%Z -> (bound <= INT_MAX)%Z ->
  (value (step n_games tid s) + owed (workers (step n_games tid s))
   = value s + owed (workers s)
     + Z.of_nat (episodes_begun n_games [tid] s))%Z.
Proof.
  intros Hl Hmin Hsum Hmax.
  cbn [episodes_begun]; rewrite Nat.add_0_r.
  destruct (nth_error (workers s) tid) as [w|] eqn:Ht.
  2: { unfold step; rewrite Ht; simpl; lia. }
  assert (Hlt : (tid < length (workers s))%nat)
    by (apply nth_error_Some; congruence).
  pose proof (Hl tid w Ht) as Hown.
  pose proof (owed_member _ _ _ Ht) as Hmem.
  unfold step; rewrite Ht.
  destruct w as [| | | |tmp| |]; cbn [lock value workers owes] in *.
  - destruct (lock s) eqn:Hlock; [rewrite ?Ht; simpl; lia|].
    cbn [workers value]; rewrite nth_error_list_set_eq by exact Hlt.
    rewrite (owed_set _ _ _ _ Ht).
    destruct (value s <? n_games)%Z; cbn [owes]; simpl Z.of_nat; lia.
  - cbn [workers value]; rewrite ?nth_error_list_set_eq by exact Hlt.
    rewrite (owed_set _ _ _ _ Ht); cbn [owes]; simpl Z.of_nat; lia.
  - destruct (lock s) eqn:Hlock; [rewrite ?Ht; simpl; lia|].
    cbn [workers value]; rewrite (owed_set _ _ _ _ Ht); cbn [owes];
      simpl Z.of_nat; lia.
  - cbn [workers value]; rewrite (owed_set _ _ _ _ Ht); cbn [owes];
      simpl Z.of_nat; lia.
  - destruct Hown as [_ ->].
    cbn [workers value]; rewrite (owed_set _ _ _ _ Ht); cbn [owes].
    rewrite wrap_int_small by (unfold INT_MIN, INT_MAX in *; lia).
    simpl Z.of_nat; lia.
  - cbn [workers value]; rewrite (owed_set _ _ _ _ Ht); cbn [owes];
      simpl Z.of_nat; lia.
  - rewrite ?Ht; simpl; lia.
Qed.

Lemma exec_accounts (n_games bound : Z) (sched : list nat) :
  forall s,
    lock_ok s -> (INT_MIN <= value s)%Z ->
    (value s + owed (workers s) <= bound)%Z ->
    (n_games - 1 + Z.of_nat (length (workers s)) <= bound)%Z ->
    (bound <= INT_MAX)%Z ->
    (forall i, nth_error (workers s) i = Some Exited -> (n_games <= value s)%Z) ->
    (value (exec n_games sched s) + owed (workers (exec n_games sched s))
     = value s + owed (workers s)
       + Z.of_nat (episodes_begun n_games sched s))%Z
    /\ (forall i, nth_error (workers (exec n_games sched s)) i = Some Exited ->
                  (n_games <= value (exec n_games sched s))%Z).
Proof.
  induction sched as [|tid tl IH]; intros s Hl Hmin Hsum Hn Hmax Hex.
  - split; [simpl; lia | exact Hex].
  - destruct (exec_bounded n_games bound [tid] s Hl Hmin Hsum Hn Hmax)
      as [Hl' [Hle [Hsum' Hlen]]].
    change (exec n_games [tid] s) with (step n_games tid s) in *.
    pose proof (step_begun n_games bound tid s Hl Hmin Hsum Hmax) as Hb.
    cbn [episodes_begun] in Hb; rewrite Nat.add_0_r in Hb.
    destruct (IH (step n_games tid s) Hl' ltac:(lia) Hsum'
                ltac:(rewrite Hlen; exact Hn) Hmax
                (step_exited n_games tid s Hle Hex)) as [I1 I2].
    change (exec n_games (tid :: tl) s)
      with (exec n_games tl (step n_games tid s)).
    split; [|exact I2].
    rewrite I1, Hb; cbn [episodes_begun]; lia.
Qed.

Lemma owed_start (W : nat) : owed (repeat AtTest W) = 0%Z.
Proof. induction W as [|W IH]; [reflexivity | simpl; rewrite IH; reflexivity]. Qed.

Lemma owed_exited (l : list Worker) :
  forallb exited l = true -> owed l = 0%Z.
Proof.
  induction l as [|w tl IH]; [reflexivity|].
  cbn [forallb]; intros H; apply andb_prop in H; destruct H as [Hw Htl].
  destruct w; try discriminate; simpl; rewrite (IH Htl); reflexivity.
Qed.

Lemma exited_member (l : list Worker) (i : nat) (w : Worker) :
  forallb exited l = true -> nth_error l i = Some w -> w = Exited.
Proof.
  intros Hall Hi; apply nth_error_In in Hi.
  pose proof (proj1 (forallb_forall _ _) Hall w Hi) as Hw.
  destruct w; try discriminate; reflexivity.
Qed.

Lemma not_exited_member (l : list Worker) :
  forallb exited l = false ->
  exists i w, nth_error l i = Some w /\ exited w = false.
Proof.
  induction l as [|w tl IH]; [discriminate|].
  cbn [forallb]; intros H.
  destruct (exited w) eqn:Hw.
  - destruct (IH H) as [i [w' [Hi Hw']]].
    exists (S i), w'; split; assumption.
  - exists 0%nat, w; split; [reflexivity | exact Hw].
Qed.

Lemma step_moves (n_games : Z) (tid : nat) (s : Shared) (w w' : Worker) :
  nth_error (workers s) tid = Some w ->
  workers (step n_games tid s) = list_set (workers s) tid w' ->
  w' <> w ->
  step n_games tid s <> s.
Proof.
  intros Ht Hw Hne Heq.
  rewrite Heq in Hw.
  assert (Hlt : (tid < length (workers s))%nat)
    by (apply nth_error_Some; congruence).
  pose proof (nth_error_list_set_eq (workers s) tid w' Hlt) as Hset.
  rewrite <- Hw, Ht in Hset; inversion Hset; congruence.
Qed.

(** X13: The block of lines 187-188 holds one worker at a time: under any
    schedule, while one worker is between taking and releasing the lock no
    other worker is. *)
Theorem one_worker_in_block (n_games : Z) (W : nat) (sched : list nat)
    (i j : nat) (wi wj : Worker) :
  nth_error (workers (exec n_games sched (start W))) i = Some wi ->
  nth_error (workers (exec n_games sched (start W))) j = Some wj ->
  in_block wi = true -> i <> j -> in_block wj = false.
Proof.
  intros Hi Hj Hb Hne.
  pose proof (exec_lock_ok n_games sched _ (start_lock_ok W)) as Hl.
  pose proof (Hl i wi Hi) as Li; pose proof (Hl j wj Hj) as Lj.
  destruct wi; try discriminate; destruct wj; try reflexivity;
    exfalso; apply Hne; intuition congruence.
Qed.

Lemma one_worker_in_block_witness : in_block Waiting = false.
Proof.
  apply (one_worker_in_block 1 2 [0; 0; 1; 1; 0]%nat 0 1 Holding Waiting);
    [reflexivity | reflexivity | reflexivity | discriminate].
Defined.

Lemma exec_idle (n_games : Z) (sched : list nat) :
  forall s,
    lock_ok s -> (n_games <= value s)%Z -> owed (workers s) = 0%Z ->
    value (exec n_games sched s) = value s
    /\ owed (workers (exec n_games sched s)) = 0%Z.
Proof.
  induction sched as [|tid tl IH]; intros s Hl Hn Ho; [split; [reflexivity | exact Ho]|].
  change (exec n_games (tid :: tl) s)
    with (exec n_games tl (step n_games tid s)).
  destruct (pool_step_effect n_games tid s Hl)
    as [[Hv Hw] | [[Hv [Hlt Hw]] | [Hv [Hw H1]]]]; try lia.
  destruct (IH (step n_games tid s) (pool_step_lock_ok n_games tid s Hl))
    as [I1 I2]; [lia | lia |].
  rewrite I1, I2, Hv; auto.
Qed.

(** X14: When every worker has left its loop, the counter is the number of
    episodes the pool has played: at least the limit, and at most the limit
    plus the number of workers minus one, each worker having passed the test
    of line 151 at most once after the counter reached the limit; no episode
    at all when the limit is not positive; and the lock is free. *)
Theorem pool_exit_counter (n_games : Z) (W : nat) (sched : list nat) :
  (n_games - 1 + Z.of_nat W <= INT_MAX)%Z ->
  (1 <= W)%nat ->
  forallb exited (workers (exec n_games sched (start W))) = true ->
  value (exec n_games sched (start W))
  = Z.of_nat (episodes_begun n_games sched (start W))
  /\ (Z.max 0 n_games <= value (exec n_games sched (start W))
      <= (if (0 <? n_games)%Z then n_games - 1 + Z.of_nat W else 0))%Z
  /\ lock (exec n_games sched (start W)) = None.
Proof.
  intros Hn HW Hall.
  set (bound := Z.max 0 (n_games - 1 + Z.of_nat W)).
  assert (Hlen : length (workers (start W)) = W) by apply repeat_length.
  assert (H0 : (value (start W) + owed (workers (start W)) <= bound)%Z).
  { cbn [start value workers]; rewrite owed_start; unfold bound; lia. }
  assert (H1 : (n_games - 1 + Z.of_nat (length (workers (start W))) <= bound)%Z).
  { rewrite Hlen; unfold bound; lia. }
  assert (H2 : (bound <= INT_MAX)%Z).
  { unfold bound, INT_MAX in *; lia. }
  assert (H3 : (INT_MIN <= value (start W))%Z).
  { unfold INT_MIN; simpl; lia. }
  destruct (exec_bounded n_games bound sched (start W) (start_lock_ok W)
              H3 H0 H1 H2) as [Hl [Hle [Hsum Hlen']]].
  destruct (exec_accounts n_games bound sched (start W) (start_lock_ok W)
              H3 H0 H1 H2) as [Hacc Hex].
  { intros i Hi; cbn [start workers] in Hi.
    apply nth_error_In, repeat_spec in Hi; discriminate. }
  pose proof (owed_exited _ Hall) as Hz.
  rewrite Hz in Hacc, Hsum.
  cbn [start value workers] in Hacc, Hle; rewrite owed_start in Hacc.
  split; [lia|]; split.
  - split.
    + destruct (nth_error (workers (exec n_games sched (start W))) 0)
        as [w|] eqn:Hw.
      * pose proof (exited_member _ _ _ Hall Hw); subst w.
        specialize (Hex _ Hw); cbn [start value] in *; lia.
      * apply nth_error_None in Hw; rewrite Hlen', Hlen in Hw; lia.
    + destruct (Z.ltb_spec 0 n_games) as [Hpos|Hnon].
      * unfold bound in Hsum; lia.
      * destruct (exec_idle n_games sched (start W) (start_lock_ok W))
          as [Hidle _]; [exact Hnon | apply owed_start |].
        rewrite Hidle; cbn [start value]; lia.
  - pose proof (exec_lock_owned n_games sched _ (start_lock_ok W)
                  (start_lock_owned W)) as Ho.
    destruct (lock (exec n_games sched (start W))) as [i|] eqn:Hlock;
      [|reflexivity].
    destruct (Ho i Hlock) as [w [Hw Hb]].
    pose proof (exited_member _ _ _ Hall Hw); subst w; discriminate.
Qed.

Lemma pool_exit_counter_witness :
  value (exec 1 [0; 1; 0; 0; 0; 0; 0; 0; 1; 1; 1; 1; 1; 1]%nat (start 2)) = 2%Z
  /\ episodes_begun 1 [0; 1; 0; 0; 0; 0; 0; 0; 1; 1; 1; 1; 1; 1]%nat (start 2)
     = 2%nat.
Proof.
  destruct (pool_exit_counter 1 2
              [0; 1; 0; 0; 0; 0; 0; 0; 1; 1; 1; 1; 1; 1]%nat
              ltac:(vm_compute; discriminate) ltac:(lia) eq_refl)
    as [H1 [H2 _]].
  split; [|reflexivity].
  rewrite H1; reflexivity.
Defined.

(** X15: The pool cannot get stuck on the lock: under any schedule, as long as
    some worker has not left its loop, some worker can move. *)
Theorem pool_never_stuck (n_games : Z) (W : nat) (sched : list nat) :
  forallb exited (workers (exec n_games sched (start W))) = false ->
  exists tid,
    step n_games tid (exec n_games sched (start W))
    <> exec n_games sched (start W).
Proof.
  intros Hsome.
  pose proof (exec_lock_ok n_games sched _ (start_lock_ok W)) as Hl.
  pose proof (exec_lock_owned n_games sched _ (start_lock_ok W)
                (start_lock_owned W)) as Ho.
  set (s := exec n_games sched (start W)) in *.
  assert (Hblock : forall i w, nth_error (workers s) i = Some w ->
                     in_block w = true -> step n_games i s <> s).
  { intros i w Hw Hb.
    destruct w; try discriminate.
    - apply (step_moves n_games i s Holding (Loaded (value s)) Hw);
        [unfold step; rewrite Hw; reflexivity | discriminate].
    - apply (step_moves n_games i s (Loaded tmp) Stored Hw);
        [unfold step; rewrite Hw; reflexivity | discriminate].
    - apply (step_moves n_games i s Stored AtTest Hw);
        [unfold step; rewrite Hw; reflexivity | discriminate]. }
  destruct (lock s) as [i|] eqn:Hlock.
  - destruct (Ho i Hlock) as [w [Hw Hb]].
    exists i; exact (Hblock i w Hw Hb).
  - destruct (not_exited_member _ Hsome) as [i [w [Hw Hne]]].
    exists i.
    pose proof (Hl i w Hw) as Hown.
    destruct w; try discriminate; try (rewrite Hlock in Hown; discriminate).
    + apply (step_moves n_games i s AtTest
               (if (value s <? n_games)%Z then InEpisode else Exited) Hw);
        [unfold step; rewrite Hw, Hlock; reflexivity
        | destruct (value s <? n_games)%Z; discriminate].
    + apply (step_moves n_games i s InEpisode Waiting Hw);
        [unfold step; rewrite Hw; reflexivity | discriminate].
    + apply (step_moves n_games i s Waiting Holding Hw);
        [unfold step; rewrite Hw, Hlock; reflexivity | discriminate].
    + destruct Hown as [Hown _]; rewrite Hlock in Hown; discriminate.
Qed.

Lemma pool_never_stuck_witness :
  exists tid,
    step 1 tid (exec 1 [0; 0; 0; 1; 1]%nat (start 2))
    <> exec 1 [0; 0; 0; 1; 1]%nat (start 2).
Proof.
  apply (pool_never_stuck 1 2 [0; 0; 0; 1; 1]%nat); reflexivity.
Defined.

End PoolStateFacts.

(** ** Gradients from one synchronization point to the next *)

Lemma zero_grad_drops (slots : list (option nat)) (st : Store) :
  zero_grad true slots st = (map (fun _ => None) slots, st).
Proof.
  induction slots as [|slot tl IH]; [reflexivity|].
  cbn [zero_grad map]; destruct slot; rewrite IH; reflexivity.
Qed.

Lemma zero_grad_unset (mode : bool) (n : nat) (st : Store) :
  zero_grad mode (repeat None n) st = (repeat None n, st).
Proof.
  induction n as [|n IH]; [reflexivity|].
  cbn [repeat zero_grad]; rewrite IH; destruct mode; reflexivity.
Qed.

Lemma zero_grad_zeroes (idxs : list nat) :
  forall st : Store,
    NoDup idxs -> Forall (fun i => (i < length st)%nat) idxs ->
    exists st',
      zero_grad false (map Some idxs) st = (map Some idxs, st')
      /\ length st' = length st
      /\ (forall i old, In i idxs -> nth_error st i = Some old ->
            nth_error st' i = Some (zeros_like old))
      /\ (forall j, ~ In j idxs -> nth_error st' j = nth_error st j).
Proof.
  induction idxs as [|i tl IH]; intros st Hnd Hr.
  - exists st; simpl; repeat split; auto; contradiction.
  - inversion Hnd as [|? ? Hni Hnd']; subst.
    inversion Hr as [|? ? Hi Hr']; subst.
    destruct (nth_error st i) as [x|] eqn:Hx;
      [|apply nth_error_None in Hx; lia].
    destruct (IH (store_set st i (zeros_like x)) Hnd') as [st' [Hz [Hlen [Hin Hout]]]].
    { unfold store_set; rewrite list_set_length; exact Hr'. }
    exists st'; cbn [map zero_grad]; rewrite Hx, Hz.
    split; [reflexivity|]; split.
    { rewrite Hlen; unfold store_set; apply list_set_length. }
    split.
    + intros j old [<-|Hj] Hold.
      * rewrite Hout by exact Hni.
        unfold store_set; rewrite nth_error_list_set_eq by exact Hi.
        congruence.
      * apply Hin; [exact Hj|].
        unfold store_set; rewrite nth_error_list_set_neq; [exact Hold|].
        intros ->; contradiction.
    + intros j Hj.
      rewrite Hout by (intros H; apply Hj; right; exact H).
      unfold store_set; rewrite nth_error_list_set_neq; [reflexivity|].
      intros ->; apply Hj; left; reflexivity.
Qed.

Lemma accumulate_grad_linked (idxs : list nat) :
  forall (grads : list Tensor) (st : Store),
    NoDup idxs -> Forall (fun i => (i < length st)%nat) idxs ->
    exists st',
      accumulate_grad (map Some idxs) grads st = (map Some idxs, st')
      /\ length st' = length st
      /\ (forall k i old g,
            nth_error idxs k = Some i -> nth_error st i = Some old ->
            nth_error grads k = Some g ->
            nth_error st' i = Some (tensor_add old g))
      /\ (forall j, ~ In j idxs -> nth_error st' j = nth_error st j).
Proof.
  induction idxs as [|i tl IH]; intros grads st Hnd Hr.
  - exists st; simpl; repeat split; auto.
    intros k i old g Hk; destruct k; discriminate.
  - destruct grads as [|g gs].
    { exists st; simpl; repeat split; auto.
      intros k j old g _ _ Hk; destruct k; discriminate. }
    inversion Hnd as [|? ? Hni Hnd']; subst.
    inversion Hr as [|? ? Hi Hr']; subst.
    destruct (nth_error st i) as [x|] eqn:Hx;
      [|apply nth_error_None in Hx; lia].
    destruct (IH gs (store_set st i (tensor_add x g)) Hnd')
      as [st' [Ha [Hlen [Hin Hout]]]].
    { unfold store_set; rewrite list_set_length; exact Hr'. }
    exists st'; cbn [map accumulate_grad]; rewrite Hx, Ha.
    split; [reflexivity|]; split.
    { rewrite Hlen; unfold store_set; apply list_set_length. }
    split.
    + intros k j old g' Hk Hold Hg.
      destruct k as [|k]; cbn [nth_error] in Hk, Hg.
      * inversion Hk; inversion Hg; subst.
        rewrite Hout by exact Hni.
        unfold store_set; rewrite nth_error_list_set_eq by exact Hi.
        congruence.
      * apply (Hin k j old g' Hk); [|exact Hg].
        unfold store_set; rewrite nth_error_list_set_neq; [exact Hold|].
        intros ->; apply Hni; exact (nth_error_In _ _ Hk).
    + intros j Hj.
      rewrite Hout by (intros H; apply Hj; right; exact H).
      unfold store_set; rewrite nth_error_list_set_neq; [reflexivity|].
      intros ->; apply Hj; left; reflexivity.
Qed.

Lemma accumulate_grad_fresh (n : nat) :
  forall (grads : list Tensor) (st : Store),
    length grads = n ->
    accumulate_grad (repeat None n) grads st
    = (map Some (seq (length st) n), st ++ grads).
Proof.
  induction n as [|n IH]; intros grads st Hlen.
  - destruct grads; [|discriminate]. simpl; now rewrite app_nil_r.
  - destruct grads as [|g gs]; [discriminate|].
    cbn [repeat accumulate_grad].
    rewrite (IH gs (st ++ [g])) by (simpl in Hlen; lia).
    rewrite length_app, Nat.add_1_r, <- app_assoc; reflexivity.
Qed.

Lemma fresh_slots_read (grads : list Tensor) :
  forall st : Store,
    map (grad_value (st ++ grads)) (map Some (seq (length st) (length grads)))
    = map Some grads.
Proof.
  induction grads as [|g gs IH]; intros st; [reflexivity|].
  cbn [length seq map grad_value]; f_equal.
  - rewrite nth_error_app2 by lia. now rewrite Nat.sub_diag.
  - specialize (IH (st ++ [g])).
    rewrite length_app, Nat.add_1_r, <- app_assoc in IH; exact IH.
Qed.

Lemma add_zeros_row (u v : list R) :
  length u = length v ->
  map (fun p => fst p + snd p) (combine (map (fun _ => 0) u) v) = v.
Proof.
  revert v; induction u as [|x u IH]; intros [|y v] H; try discriminate;
    [reflexivity|].
  cbn [map combine fst snd]; rewrite IH by (simpl in H; lia).
  f_equal; lra.
Qed.

Lemma tensor_add_zeros (old g : Tensor) :
  same_shape old g = true -> tensor_add (zeros_like old) g = g.
Proof.
  destruct old as [u|a], g as [v|b]; try discriminate; cbn [same_shape].
  - intros H; apply Nat.eqb_eq in H.
    cbn [zeros_like tensor_add]; now rewrite add_zeros_row.
  - intros H; apply andb_prop in H; destruct H as [Hlen H].
    apply Nat.eqb_eq in Hlen.
    cbn [zeros_like tensor_add]; f_equal.
    revert b Hlen H; induction a as [|r a IH]; intros [|r' b] Hlen H;
      try discriminate; [reflexivity|].
    cbn [combine forallb fst snd] in H.
    apply andb_prop in H; destruct H as [Hr Hrest].
    apply Nat.eqb_eq in Hr.
    cbn [map combine fst snd].
    rewrite (IH b) by (simpl in Hlen; try lia; exact Hrest).
    rewrite add_zeros_row by exact Hr.
    reflexivity.
Qed.

Section GradientFacts.

Variable F : Framework.
Variable E : Environment.

Lemma do_zero_grad_linked (a : Agent F E) (idxs : list nat) :
  param_grad (global_actor_critic a) = map Some idxs ->
  NoDup idxs ->
  Forall (fun i => (i < length (grad_store a))%nat) idxs ->
  length (grad_store (do_zero_grad a)) = length (grad_store a)
  /\ forall i old,
       In i idxs -> nth_error (grad_store a) i = Some old ->
       nth_error (grad_store (do_zero_grad a)) i
       = Some (if set_to_none F then old else zeros_like old).
Proof.
  intros Hglob Hnd Hr; unfold do_zero_grad; rewrite Hglob.
  destruct (set_to_none F).
  - rewrite zero_grad_drops; cbn [grad_store]; auto.
  - destruct (zero_grad_zeroes idxs (grad_store a) Hnd Hr)
      as [st' [Hz [Hlen [Hin _]]]].
    rewrite Hz; cbn [grad_store]; auto.
Qed.

Lemma do_backward_linked (a : Agent F E) (done : bool) (idxs : list nat) :
  param_grad (local_actor_critic a) = map Some idxs ->
  NoDup idxs ->
  Forall (fun i => (i < length (grad_store a))%nat) idxs ->
  param_grad (local_actor_critic (do_backward a done)) = map Some idxs
  /\ length (grad_store (do_backward a done)) = length (grad_store a)
  /\ forall k i old g,
       nth_error idxs k = Some i -> nth_error (grad_store a) i = Some old ->
       nth_error (parameters (autograd F (local_actor_critic a) done)) k
       = Some g ->
       nth_error (grad_store (do_backward a done)) i = Some (tensor_add old g).
Proof.
  intros Hloc Hnd Hr; unfold do_backward; rewrite Hloc.
  destruct (accumulate_grad_linked idxs
              (parameters (autograd F (local_actor_critic a) done))
              (grad_store a) Hnd Hr) as [st' [Ha [Hlen [Hin _]]]].
  rewrite Ha; cbn [grad_store local_actor_critic set_param_grad param_grad].
  auto.
Qed.

Lemma pushed_linked (a : Agent F E) (done : bool) (idxs : list nat) :
  grads_linked a idxs ->
  grads_linked (do_push_grad (do_backward (do_zero_grad a) done)) idxs
  /\ forall k i old g,
       nth_error idxs k = Some i -> nth_error (grad_store a) i = Some old ->
       nth_error (parameters (autograd F (local_actor_critic a) done)) k
       = Some g ->
       nth_error (grad_store (do_push_grad (do_backward (do_zero_grad a) done))) i
       = Some (tensor_add (if set_to_none F then old else zeros_like old) g).
Proof.
  intros [Hloc [Hglob [Hnd Hr]]].
  destruct (do_zero_grad_frame F E a) as [Z1 [_ [_ Z4]]].
  destruct (do_zero_grad_linked a idxs Hglob Hnd Hr) as [Zlen Zin].
  assert (Hr1 : Forall (fun i => (i < length (grad_store (do_zero_grad a)))%nat)
                  idxs) by (rewrite Zlen; exact Hr).
  assert (Hloc1 : param_grad (local_actor_critic (do_zero_grad a))
                  = map Some idxs) by (rewrite Z1; exact Hloc).
  destruct (do_backward_frame F E (do_zero_grad a) done) as [B1 _].
  destruct (do_backward_linked (do_zero_grad a) done idxs Hloc1 Hnd Hr1)
    as [Bloc [Blen Bin]].
  split.
  - unfold grads_linked, do_push_grad;
      cbn [local_actor_critic global_actor_critic grad_store set_param_grad
             param_grad].
    rewrite Bloc, Blen, Zlen.
    split; [reflexivity|]; split; [|split; assumption].
    apply push_grad_overwrites.
    rewrite B1, Z4, Hglob; reflexivity.
  - intros k i old g Hk Hold Hg.
    unfold do_push_grad; cbn [grad_store].
    apply (Bin k i _ g Hk); [|rewrite Z1; exact Hg].
    exact (Zin i old (nth_error_In _ _ Hk) Hold).
Qed.

Lemma synchronize_keeps_grads (a a' : Agent F E) (done : bool) :
  synchronize a done = Some a' ->
  grad_store a' = grad_store (do_push_grad (do_backward (do_zero_grad a) done))
  /\ param_grad (local_actor_critic a')
     = param_grad (local_actor_critic
                     (do_push_grad (do_backward (do_zero_grad a) done)))
  /\ param_grad (global_actor_critic a')
     = param_grad (global_actor_critic
                     (do_push_grad (do_backward (do_zero_grad a) done)))
  /\ (optimizer a', state_dict (global_actor_critic a'))
     = adam_step F
         (optimizer (do_push_grad (do_backward (do_zero_grad a) done)))
         (state_dict (global_actor_critic
                        (do_push_grad (do_backward (do_zero_grad a) done))))
         (stepped_on a done).
Proof.
  unfold synchronize.
  destruct (calc_loss (local_actor_critic a) done); [|discriminate].
  intros H; inversion H; subst a'; clear H.
  unfold do_pull, do_step, stepped_on; cbv zeta.
  match goal with
  | |- context [adam_step F ?o ?s ?g] => destruct (adam_step F o s g) as [o' sd]
  end.
  destruct sd; simpl; repeat split; reflexivity.
Qed.

(** X12: From the second synchronization point on, the gradient slots of the
    local and the shared module are the same tensors.  What the optimizer is
    stepped on is then, parameter by parameter, the new gradient added to
    what the slot held: to zero when [zero_grad] zeroes in place, and to the
    gradient of the synchronization point before when [zero_grad] drops the
    shared module's slots, because nothing resets the local module's.  The
    slot keeps the sum for the next synchronization point. *)
Theorem gradients_across_syncs (a a' : Agent F E) (done : bool)
    (idxs : list nat) :
  grads_linked a idxs ->
  synchronize a done = Some a' ->
  grads_linked a' idxs
  /\ (optimizer a', state_dict (global_actor_critic a'))
     = adam_step F (optimizer a) (state_dict (global_actor_critic a))
         (stepped_on a done)
  /\ forall k i old g,
       nth_error idxs k = Some i ->
       nth_error (grad_store a) i = Some old ->
       nth_error (parameters (autograd F (local_actor_critic a) done)) k
       = Some g ->
       nth_error (stepped_on a done) k
       = Some (Some (tensor_add
                       (if set_to_none F then old else zeros_like old) g))
       /\ nth_error (grad_store a') i
          = Some (tensor_add (if set_to_none F then old else zeros_like old) g)
       /\ (set_to_none F = false -> same_shape old g = true ->
           nth_error (stepped_on a done) k = Some (Some g)).
Proof.
  intros Hlink Hs.
  destruct (pushed_linked a done idxs Hlink) as [[Ploc [Pglob [Pnd Pr]]] Pin].
  destruct (synchronize_keeps_grads a a' done Hs) as [Kst [Kloc [Kglob Kopt]]].
  destruct (do_zero_grad_frame F E a) as [_ [Z2 [Z3 _]]].
  destruct (do_backward_frame F E (do_zero_grad a) done) as [B1 [B2 _]].
  assert (Hread : forall k i old g,
             nth_error idxs k = Some i ->
             nth_error (grad_store a) i = Some old ->
             nth_error (parameters (autograd F (local_actor_critic a) done)) k
             = Some g ->
             nth_error (stepped_on a done) k
             = Some (Some (tensor_add
                             (if set_to_none F then old else zeros_like old) g))).
  { intros k i old g Hk Hold Hg.
    unfold stepped_on; cbv zeta; rewrite Pglob.
    rewrite (map_nth_error _ _ _ (map_nth_error Some _ _ Hk)).
    cbn [grad_value]; now rewrite (Pin k i old g Hk Hold Hg). }
  split; [|split].
  - unfold grads_linked; rewrite Kloc, Kglob, Kst; tauto.
  - rewrite Kopt; unfold do_push_grad at 1 2;
      cbn [optimizer global_actor_critic].
    rewrite B2, Z2.
    replace (state_dict (set_param_grad
                           (global_actor_critic
                              (do_backward (do_zero_grad a) done))
                           (push_grad
                              (param_grad
                                 (local_actor_critic
                                    (do_backward (do_zero_grad a) done)))
                              (param_grad
                                 (global_actor_critic
                                    (do_backward (do_zero_grad a) done))))))
      with (state_dict (global_actor_critic a))
      by (rewrite B1, <- Z3; reflexivity).
    reflexivity.
  - intros k i old g Hk Hold Hg.
    pose proof (Hread k i old g Hk Hold Hg) as Hu.
    split; [exact Hu|]; split.
    + rewrite Kst; exact (Pin k i old g Hk Hold Hg).
    + intros Hmode Hshape; rewrite Hu, Hmode, (tensor_add_zeros _ _ Hshape).
      reflexivity.
Qed.

(** X11: At a worker's first synchronization point every parameter gets a
    gradient tensor of its own, the shared module's slots are made to refer
    to the same tensors, and the optimizer is stepped on exactly the
    gradients of this segment. *)
Theorem first_sync_links (a : Agent F E) (done : bool) :
  grads_unset a ->
  grads_linked (do_push_grad (do_backward (do_zero_grad a) done))
    (seq (length (grad_store a)) 8)
  /\ grad_store (do_push_grad (do_backward (do_zero_grad a) done))
     = grad_store a ++ parameters (autograd F (local_actor_critic a) done)
  /\ stepped_on a done
     = map Some (parameters (autograd F (local_actor_critic a) done)).
Proof.
  intros [Hloc Hglob].
  assert (Hz : do_zero_grad a
               = mkAgent F E (local_actor_critic a)
                   (set_param_grad (global_actor_critic a) (repeat None 8))
                   (optimizer a) (grad_store a) (episode_idx a)
                   (global_rewards a) (env a)).
  { unfold do_zero_grad; rewrite Hglob, zero_grad_unset; reflexivity. }
  set (grads := parameters (autograd F (local_actor_critic a) done)).
  assert (Hb : do_backward (do_zero_grad a) done
               = mkAgent F E
                   (set_param_grad (local_actor_critic a)
                      (map Some (seq (length (grad_store a)) 8)))
                   (set_param_grad (global_actor_critic a) (repeat None 8))
                   (optimizer a) (grad_store a ++ grads) (episode_idx a)
                   (global_rewards a) (env a)).
  { rewrite Hz; unfold do_backward;
      cbn [local_actor_critic grad_store global_actor_critic optimizer
             episode_idx global_rewards env].
    rewrite Hloc; fold grads.
    rewrite (accumulate_grad_fresh 8 grads (grad_store a) eq_refl).
    reflexivity. }
  assert (Hst : grad_store (do_push_grad (do_backward (do_zero_grad a) done))
                = grad_store a ++ grads).
  { rewrite Hb; reflexivity. }
  assert (Hg : param_grad (global_actor_critic
                             (do_push_grad (do_backward (do_zero_grad a) done)))
               = map Some (seq (length (grad_store a)) 8)).
  { rewrite Hb; reflexivity. }
  split; [|split].
  - unfold grads_linked; rewrite Hg, Hst.
    split; [rewrite Hb; reflexivity|]; split; [reflexivity|].
    split; [apply seq_NoDup|].
    apply Forall_forall; intros i Hi; apply in_seq in Hi.
    rewrite length_app; change (length grads) with 8%nat; lia.
  - exact Hst.
  - unfold stepped_on; cbv zeta; rewrite Hg, Hst.
    exact (fresh_slots_read grads (grad_store a)).
Qed.

End GradientFacts.

Lemma recent_agent_again_linked : grads_linked recent_agent_again (seq 0 8).
Proof.
  unfold grads_linked.
  split; [reflexivity|]; split; [reflexivity|]; split; [apply seq_NoDup|].
  apply Forall_forall; intros i Hi; apply in_seq in Hi.
  change (length (grad_store recent_agent_again)) with 8%nat; lia.
Qed.

Lemma gradients_across_syncs_witness :
  exists a',
    synchronize recent_agent_again true = Some a'
    /\ grads_linked a' (seq 0 8)
    /\ nth_error (stepped_on recent_agent_again true) 1
       = Some (Some (tensor_add (Vec (bias demo_policy_l1))
                       (Vec (bias demo_policy_l1)))).
Proof.
  destruct (synchronize recent_agent_again true) as [a'|] eqn:Hs.
  - destruct (gradients_across_syncs recent_framework demo_environment
                recent_agent_again a' true (seq 0 8)
                recent_agent_again_linked Hs) as [H1 [_ H3]].
    exists a'; split; [reflexivity|]; split; [exact H1|].
    exact (proj1 (H3 1%nat 1%nat (Vec (bias demo_policy_l1))
                    (Vec (bias demo_policy_l1)) eq_refl eq_refl eq_refl)).
  - vm_compute in Hs; discriminate.
Defined.

Lemma first_sync_links_witness :
  stepped_on demo_agent_at_sync true
  = map Some (parameters (state_dict demo_buffer)).
Proof.
  exact (proj2 (proj2 (first_sync_links demo_framework demo_environment
                         demo_agent_at_sync true (conj eq_refl eq_refl)))).
Defined.

(** ** The calls of the worker loop get inputs they accept *)

Lemma bcast2_same {A B C : Type} (f : A -> B -> C) (xs : list A)
    (ys : list B) :
  length xs = length ys ->
  bcast2 f xs ys = Some (map (fun p => f (fst p) (snd p)) (combine xs ys)).
Proof. intros H; unfold bcast2; rewrite H, Nat.eqb_refl; reflexivity. Qed.

Lemma forward_batch_built (input_dim n_actions : nat) (m : ActorCritic)
    (batch : list State) :
  built_by_init input_dim n_actions m ->
  batch <> [] ->
  Forall (fun s => length s = input_dim) batch ->
  exists pi v,
    forward_batch m batch = Some (pi, v)
    /\ Forall (fun row => length row = n_actions) pi
    /\ length pi = length batch
    /\ length v = length batch.
Proof.
  intros Hb Hne Hall; rewrite forward_batch_nonempty by exact Hne; clear Hne.
  induction Hall as [|s tl Hs Htl IH].
  - exists [], []; simpl; repeat split; constructor.
  - destruct IH as [pi [v [Hfb [Hrows [Hpl Hvl]]]]].
    destruct (forward_built _ _ _ _ Hb Hs) as [logits [x [Hf Hl]]].
    cbn [mapM]; rewrite Hf.
    destruct (mapM (forward m) tl) as [rows|]; [|discriminate].
    inversion Hfb; subst.
    exists (logits :: map fst rows), (x :: map snd rows).
    cbn [map fst snd length].
    split; [reflexivity|]; split; [constructor; [reflexivity | exact Hrows]|].
    split; lia.
Qed.

Lemma action_dist_built (input_dim n_actions : nat) (m : ActorCritic)
    (state : State) :
  built_by_init input_dim n_actions m -> length state = input_dim ->
  exists probs, action_dist m state = Some probs /\ length probs = n_actions.
Proof.
  intros Hb Hs.
  destruct (forward_built _ _ _ _ Hb Hs) as [logits [v [Hf Hl]]].
  unfold action_dist, forward_batch; cbn [mapM]; rewrite Hf.
  cbn [map fst snd nth_error].
  eexists; split; [reflexivity|].
  now rewrite Categorical_length, softmax_length.
Qed.

Lemma calc_loss_built (input_dim n_actions : nat) (m : ActorCritic)
    (done : bool) :
  built_by_init input_dim n_actions m ->
  buffer_fits input_dim n_actions m ->
  (1 <= length (states m))%nat ->
  exists loss, calc_loss m done = Some loss.
Proof.
  intros Hb [[Hsa [Har Hrn]] [Hst [Hns Hact]]] Hpos.
  assert (Hfs : forall s, In s (states m) -> forward m s <> None).
  { intros s Hin.
    destruct (forward_built _ _ _ _ Hb (proj1 (Forall_forall _ _) Hst s Hin))
      as [l [v [Hf _]]]; rewrite Hf; discriminate. }
  assert (Hfn : forall s, In s (next_states m) -> forward m s <> None).
  { intros s Hin.
    destruct (forward_built _ _ _ _ Hb (proj1 (Forall_forall _ _) Hns s Hin))
      as [l [v [Hf _]]]; rewrite Hf; discriminate. }
  assert (Hne : next_states m <> []).
  { intros E0; rewrite E0 in Hrn; simpl in Hrn; lia. }
  assert (Hne0 : states m <> []).
  { intros E0; rewrite E0 in Hpos; simpl in Hpos; lia. }
  destruct (bootstrap_defined m done Hne Hfn) as [pi' [vn [x [_ [_ Hboot]]]]].
  pose proof (calc_R_returns_from m done _ Hne0 Hfs Hboot) as HR.
  destruct (forward_batch_built _ _ m (states m) Hb Hne0 Hst)
    as [pi [vs [Hfb [Hrows [Hpl Hvl]]]]].
  unfold calc_loss; rewrite HR, Hfb.
  set (Rs := returns_from (gamma m) (rewards m) (x * IZR (1 - Z.b2z done))).
  assert (HRl : length Rs = length vs).
  { unfold Rs; rewrite returns_from_length; lia. }
  rewrite (bcast2_same Rminus Rs vs HRl).
  rewrite (bcast2_same log_prob (map Categorical (map softmax pi)) (actions m))
    by (rewrite !length_map; lia).
  destruct (mapM_defined (fun lp : option R => lp)
              (map (fun p => log_prob (fst p) (snd p))
                 (combine (map Categorical (map softmax pi)) (actions m))))
    as [lps Hlps].
  { intros lp Hin; apply in_map_iff in Hin.
    destruct Hin as [[dist a] [<- Hin]].
    pose proof (in_combine_l _ _ _ _ Hin) as Hd.
    pose proof (in_combine_r _ _ _ _ Hin) as Ha.
    apply in_map_iff in Hd; destruct Hd as [p [<- Hp]].
    apply in_map_iff in Hp; destruct Hp as [row [<- Hrow]].
    cbn [fst snd]; rewrite log_prob_in_range; [discriminate|].
    rewrite (proj1 (Forall_forall _ _) Hrows row Hrow).
    exact (proj1 (Forall_forall _ _) Hact a Ha). }
  rewrite Hlps.
  pose proof (mapM_length _ _ _ Hlps) as Hll.
  rewrite length_map, length_combine, !length_map in Hll.
  rewrite (bcast2_same Rmult)
    by (repeat rewrite ?length_map, ?length_combine; lia).
  rewrite (bcast2_same Rplus)
    by (repeat rewrite ?length_map, ?length_combine; lia).
  unfold mean.
  match goal with |- exists loss, match ?l with _ => _ end = _ =>
    destruct l eqn:Htot end.
  - exfalso; apply (f_equal (@length R)) in Htot.
    repeat rewrite ?length_map, ?length_combine in Htot.
    simpl in Htot; lia.
  - eexists; reflexivity.
Qed.

Section LoopFacts.

Variable F : Framework.
Variable E : Environment.
Variables input_dim n_actions : nat.

Lemma observe_modules (a : Agent F E) :
  local_actor_critic (observe a) = local_actor_critic a
  /\ global_actor_critic (observe a) = global_actor_critic a.
Proof.
  unfold observe; destruct (others E (env a)); split; reflexivity.
Qed.

Lemma synchronize_built (a : Agent F E) (done : bool) :
  world_ok F E input_dim n_actions ->
  agent_fits input_dim n_actions a ->
  (1 <= length (states (local_actor_critic a)))%nat ->
  exists a', synchronize a done = Some a' /\ agent_fits input_dim n_actions a'.
Proof.
  intros [_ [_ [_ W4]]] [Hl [Hg Hbuf]] Hpos.
  destruct (calc_loss_built _ _ _ done Hl Hbuf Hpos) as [loss Hloss].
  destruct (synchronize a done) as [a'|] eqn:Hs.
  2: { unfold synchronize in Hs; rewrite Hloss in Hs; discriminate. }
  exists a'; split; [reflexivity|].
  destruct (synchronize_pulls F E a a' done Hs) as [Hsd [_ [H1 [H2 [H3 H4]]]]].
  destruct (synchronize_keeps_grads F E a a' done Hs) as [_ [_ [_ Kopt]]].
  destruct (do_zero_grad_frame F E a) as [_ [_ [Z3 _]]].
  destruct (do_backward_frame F E (do_zero_grad a) done) as [B1 _].
  assert (Hg' : layers_built input_dim n_actions
                  (state_dict (global_actor_critic a'))).
  { replace (state_dict (global_actor_critic a'))
      with (snd (optimizer a', state_dict (global_actor_critic a')))
      by reflexivity.
    rewrite Kopt; apply W4.
    unfold do_push_grad; cbn [global_actor_critic].
    change (layers_built input_dim n_actions
              (state_dict (global_actor_critic
                             (do_backward (do_zero_grad a) done)))).
    rewrite B1, Z3; exact Hg. }
  split; [|split].
  - change (layers_built input_dim n_actions
              (state_dict (local_actor_critic a'))).
    rewrite Hsd; exact Hg'.
  - exact Hg'.
  - unfold buffer_fits, balanced; rewrite H1, H2, H3, H4.
    repeat split; constructor.
Qed.

Lemma step_body_built (a : Agent F E) (t : nat) (state : State) (score : R) :
  world_ok F E input_dim n_actions -> (1 <= n_actions)%nat ->
  agent_fits input_dim n_actions a -> length state = input_dim ->
  exists a' state' score' done ev,
    step_body a t state score
    = (Finished (a', S t, state', score', done), ev)
    /\ agent_fits input_dim n_actions a'
    /\ length state' = input_dim.
Proof.
  intros Hw Hk [Hl [Hg [Hbal [Hst [Hns Hact]]]]] Hs.
  pose proof Hw as [_ [W2 [W3 _]]].
  destruct (action_dist_built _ _ _ _ Hl Hs) as [probs [Hp Hlen]].
  unfold step_body, choose_action; rewrite Hp.
  assert (Hne : probs <> []) by (intros ->; simpl in Hlen; lia).
  pose proof (W3 (env a) probs Hne) as Hrange.
  destruct (sample E (env a) probs) as [e1 action]; cbn [snd] in Hrange.
  pose proof (W2 e1 action) as Hnext.
  destruct (env_step E e1 action) as [e2 [[next_state reward] done]].
  cbn [fst snd] in Hnext.
  set (a1 := set_local (set_env a e2)
               (remember (local_actor_critic a) state action reward next_state)).
  assert (Hfit : agent_fits input_dim n_actions a1).
  { split; [exact Hl|]; split; [exact Hg|].
    unfold a1; cbn [set_local local_actor_critic].
    split; [apply remember_balanced; exact Hbal|].
    cbn [remember states next_states actions].
    repeat split; apply Forall_app; split; try assumption;
      constructor; try constructor; try assumption.
    rewrite <- Hlen; exact Hrange. }
  assert (Hpos : (1 <= length (states (local_actor_critic a1)))%nat).
  { unfold a1; cbn [set_local local_actor_critic remember states].
    rewrite length_app; simpl; lia. }
  destruct (Nat.eqb (t mod T_MAX) 0 || done).
  - destruct (synchronize_built a1 done Hw Hfit Hpos) as [a2 [Hs2 Hfit2]].
    rewrite Hs2.
    exists a2, next_state, (score + reward), done; eexists.
    split; [reflexivity|]; split; assumption.
  - exists a1, next_state, (score + reward), done, [].
    split; [reflexivity|]; split; assumption.
Qed.

Lemma episode_loop_built (fuel : nat) :
  forall (a : Agent F E) (t : nat) (state : State) (score : R),
    world_ok F E input_dim n_actions -> (1 <= n_actions)%nat ->
    agent_fits input_dim n_actions a -> length state = input_dim ->
    fst (episode_loop fuel a t state score) <> Crashed
    /\ forall a' t' sc ev,
         episode_loop fuel a t state score = (Finished (a', t', sc), ev) ->
         agent_fits input_dim n_actions a'.
Proof.
  induction fuel as [|fuel IH]; intros a t state score Hw Hk Hfit Hs.
  - simpl; split; [discriminate | intros; discriminate].
  - cbn [episode_loop].
    destruct (step_body_built a t state score Hw Hk Hfit Hs)
      as [a' [s' [sc' [dn [ev [Hsb [Hfit' Hs']]]]]]].
    rewrite Hsb; destruct dn.
    + split; [discriminate|].
      intros ? ? ? ? H; inversion H; subst; exact Hfit'.
    + destruct (IH a' (S t) s' sc' Hw Hk Hfit' Hs') as [I1 I2].
      destruct (episode_loop fuel a' (S t) s' sc') as [r ev'].
      cbn [fst] in *; split; [exact I1|].
      intros a2 t2 sc2 ev2 H; inversion H; subst.
      exact (I2 a2 t2 sc2 ev' eq_refl).
Qed.

Lemma episode_built (fuel : nat) (a : Agent F E) (t : nat) :
  world_ok F E input_dim n_actions -> (1 <= n_actions)%nat ->
  built_by_init input_dim n_actions (local_actor_critic a) ->
  built_by_init input_dim n_actions (global_actor_critic a) ->
  fst (episode fuel a t) <> Crashed
  /\ forall a' t' sc ev,
       episode fuel a t = (Finished (a', t', sc), ev) ->
       agent_fits input_dim n_actions a'.
Proof.
  intros Hw Hk Hl Hg; unfold episode.
  pose proof Hw as [W1 _].
  pose proof (W1 (env a)) as Hs.
  destruct (env_reset E (env a)) as [e state]; cbn [snd] in Hs.
  set (a1 := set_local (set_env a e) (clear_memory (local_actor_critic a))).
  assert (Hfit : agent_fits input_dim n_actions a1).
  { split; [exact Hl|]; split; [exact Hg|].
    unfold buffer_fits, balanced; cbn.
    repeat split; constructor. }
  destruct (episode_loop_built fuel a1 t state 0 Hw Hk Hfit Hs) as [I1 I2].
  destruct (episode_loop fuel a1 t state 0) as [r ev].
  cbn [fst] in *; split; [exact I1|].
  intros a' t' sc ev' H; inversion H; subst.
  exact (I2 a' t' sc ev eq_refl).
Qed.

(** X10: with observations of [input_dim] numbers, draws that are indices of
    the distribution drawn from, an optimizer that keeps the parameters'
    shapes and at least one action, no [forward], [choose_action], [calc_R]
    or [calc_loss] of a worker whose two modules have the shapes of
    [__init__] fails: each gets states of the layers' width, actions the
    policy has a logit for and a buffer that is not empty, and the modules
    keep their shapes.  ([Crashed] is the failure of one of these calls;
    [optimizer.step()], [backward()] and the environment are taken as
    functions, so what they may raise is outside this statement.) *)
Theorem run_calls_well_formed (n_games : Z) (fuel : nat) :
  forall (a : Agent F E) (t : nat),
    world_ok F E input_dim n_actions -> (1 <= n_actions)%nat ->
    built_by_init input_dim n_actions (local_actor_critic a) ->
    built_by_init input_dim n_actions (global_actor_critic a) ->
    fst (run_loop n_games fuel a t) <> Crashed
    /\ forall af ev,
         run_loop n_games fuel a t = (Finished af, ev) ->
         built_by_init input_dim n_actions (local_actor_critic af)
         /\ built_by_init input_dim n_actions (global_actor_critic af).
Proof.
  induction fuel as [|fuel IH]; intros a t Hw Hk Hl Hg.
  - simpl; split; [discriminate | intros; discriminate].
  - cbn [run_loop].
    destruct (observe_modules a) as [O1 O2].
    destruct (episode_idx (observe a) <? n_games)%Z.
    + destruct (episode_built fuel (observe a) t Hw Hk)
        as [E1 E2]; [rewrite O1; exact Hl | rewrite O2; exact Hg |].
      destruct (episode fuel (observe a) t) as [[[[a1 t'] score]| |] ev1];
        cbn [fst] in *; [|contradiction|split; [discriminate|intros; discriminate]].
      destruct (E2 a1 t' score ev1 eq_refl) as [Hl1 [Hg1 _]].
      destruct (observe_modules a1) as [P1 P2].
      destruct (IH (end_episode a1 score) t' Hw Hk) as [I1 I2].
      { unfold end_episode; cbn [local_actor_critic]; rewrite P1; exact Hl1. }
      { unfold end_episode; cbn [global_actor_critic]; rewrite P2; exact Hg1. }
      destruct (run_loop n_games fuel (end_episode a1 score) t') as [r ev'].
      cbn [fst] in *; split; [exact I1|].
      intros af ev H; inversion H; subst.
      exact (I2 af ev' eq_refl).
    + split; [discriminate|].
      intros af ev H; inversion H; subst.
      rewrite O1, O2; split; assumption.
Qed.

End LoopFacts.

Lemma demo_world_ok : world_ok demo_framework demo_environment 1 2.
Proof.
  split; [intros e; reflexivity|].
  split; [intros e a; reflexivity|].
  split.
  - intros e probs Hne; destruct probs; [congruence | simpl; lia].
  - intros o sd g H; exact H.
Qed.

Lemma run_calls_well_formed_witness :
  world_ok demo_framework demo_environment 1 2
  /\ fst (run 1000 wide_agent) <> Crashed.
Proof.
  split; [exact demo_world_ok|].
  exact (proj1 (run_calls_well_formed demo_framework demo_environment 1 2
                  N_GAMES 1000 wide_agent 1 demo_world_ok
                  ltac:(lia) wide_model_built wide_model_built)).
Defined.
